(** * ZCL metadata loader (Silabs XML flavour): preparers, orchestration, store

    A shallow embedding of the Silabs loader of [src-electron/zcl]: its
    preparers, [processParsedZclData], [parseZclFiles], [parseTextDefaults],
    [loadIndividualSilabsFile] and [loadSilabsZcl], together with the
    properties the specification states about them. *)

From Stdlib Require Import ZArith String Ascii List Lia Bool HexString DecimalString Sorted.
From stdpp Require Import base option list strings.
Import ListNotations.

Local Open Scope string_scope.
Local Open Scope Z_scope.

(** ** JavaScript values used by the loader *)

Module Js.

(** A JavaScript number as the loader sees it: the result of [parseInt] is
    either [NaN] or an integer. *)
Inductive num : Type :=
  | NaN
  | Int (z : Z).

(** A property that can be missing ([undefined]), explicitly [null], or hold a
    value. *)
Inductive slot (A : Type) : Type :=
  | Undefined
  | Null
  | Val (a : A).
Arguments Undefined {A}.
Arguments Null {A}.
Arguments Val {A} a.

(** White space as [parseInt] and [trim] skip it (the one-byte members of
    StrWhiteSpaceChar). *)
Definition is_space (c : ascii) : bool :=
  match nat_of_ascii c with
  | 9%nat | 10%nat | 11%nat | 12%nat | 13%nat | 32%nat => true
  | _ => false
  end.

Fixpoint trimStart (s : string) : string :=
  match s with
  | String c s' => if is_space c then trimStart s' else s
  | EmptyString => EmptyString
  end.

Fixpoint rev_string_onto (s acc : string) : string :=
  match s with
  | String c s' => rev_string_onto s' (String c acc)
  | EmptyString => acc
  end.

Definition rev_string (s : string) : string := rev_string_onto s EmptyString.

(** [String.prototype.trim]. *)
Definition trim (s : string) : string :=
  rev_string (trimStart (rev_string (trimStart s))).

Definition lower_ascii (c : ascii) : ascii :=
  let n := nat_of_ascii c in
  if (65 <=? n)%nat && (n <=? 90)%nat then ascii_of_nat (n + 32) else c.

(** [String.prototype.toLowerCase] on one-byte characters. *)
Fixpoint toLowerCase (s : string) : string :=
  match s with
  | String c s' => String (lower_ascii c) (toLowerCase s')
  | EmptyString => EmptyString
  end.

(** Value of a character as a digit in radixes up to 36. *)
Definition digit_value (c : ascii) : option Z :=
  let n := Z.of_nat (nat_of_ascii c) in
  if (48 <=? n) && (n <=? 57) then Some (n - 48)
  else if (97 <=? n) && (n <=? 122) then Some (n - 87)
  else if (65 <=? n) && (n <=? 90) then Some (n - 55)
  else None.

(** Longest prefix of radix-[r] digits, accumulated most significant first;
    [None] while no digit has been read. *)
Fixpoint digits (r : Z) (s : string) (acc : option Z) : option Z :=
  match s with
  | String c s' =>
      match digit_value c with
      | Some d =>
          if d <? r
          then digits r s' (Some (match acc with Some a => a * r + d | None => d end))
          else acc
      | None => acc
      end
  | EmptyString => acc
  end.

Definition strip_sign (s : string) : Z * string :=
  match s with
  | String "-" s' => (-1, s')
  | String "+" s' => (1, s')
  | _ => (1, s)
  end.

Definition strip_0x (s : string) : option string :=
  match s with
  | String "0" (String "x" s') => Some s'
  | String "0" (String "X" s') => Some s'
  | _ => None
  end.

(** [parseInt(s, radix)]; a radix of [0] stands for an omitted radix.
    Integers beyond 2^53, which JavaScript rounds, are kept exact. *)
Definition parseInt (s : string) (radix : Z) : num :=
  let '(sign, s1) := strip_sign (trimStart s) in
  if negb (radix =? 0) && ((radix <? 2) || (36 <? radix)) then NaN
  else
    let '(r, s2) :=
      if (radix =? 0) || (radix =? 16) then
        match strip_0x s1 with
        | Some rest => (16, rest)
        | None => (if radix =? 0 then 10 else radix, s1)
        end
      else (radix, s1) in
    match digits r s2 None with
    | Some n => Int (sign * n)
    | None => NaN
    end.

(** [parseInt] of a property that may be missing: [undefined] is first
    converted to the string "undefined". *)
Definition parseIntOpt (o : option string) (radix : Z) : num :=
  match o with
  | Some s => parseInt s radix
  | None => parseInt "undefined" radix
  end.

(** [x == 'true'] on an attribute that may be missing. *)
Definition isTrue (o : option string) : bool :=
  match o with
  | Some s => String.eqb s "true"
  | None => false
  end.

(** Truthiness of an attribute string: missing and empty are falsy. *)
Definition truthy (o : option string) : bool :=
  match o with
  | Some s => negb (String.eqb s EmptyString)
  | None => false
  end.

(** [Array.prototype.forEach] threading the state the callback mutates; the
    callback receives the element and its index. *)
Fixpoint forEachFrom {A St : Type} (i : nat) (body : St -> A -> nat -> St)
    (l : list A) (s : St) : St :=
  match l with
  | [] => s
  | x :: l' => forEachFrom (S i) body l' (body s x i)
  end.

Definition forEach {A St : Type} (l : list A) (body : St -> A -> nat -> St) (s : St) : St :=
  forEachFrom 0 body l s.

(** [Array.prototype.push] of one element. *)
Definition push {A : Type} (l : list A) (x : A) : list A := l ++ [x].

End Js.

Export Js.

(** ** Constants of [src-shared/db-enum.js] *)

Module dbEnum.

(** Modelled from the spec: the [side] constants of [src-shared/db-enum.js],
    a file that is not among the sources; the specification names the three
    sides "either", "client" and "server". *)
Definition side_either : string := "either".
Definition side_client : string := "client".
Definition side_server : string := "server".

End dbEnum.

(** ** Parsed XML elements

    The XML parser hands over one object per element: its attributes under
    [$], its text under [_], and one array per kind of child element.  An
    attribute that the element does not carry reads as [undefined], here
    [None].  The records below describe elements on which every property
    access of the preparers is defined: [$] exists wherever the source reads
    through it without a guard, and the children that the source indexes with
    [[0]] are present. *)

Module Xml.

Record Arg : Type := {
  arg_name : option string;
  arg_type : option string;
  arg_array : option string;
  arg_presentIf : option string;
  arg_countArg : option string;
  arg_introducedIn : option string;
  arg_removedIn : option string
}.

Record Command : Type := {
  cmd_code : option string;
  cmd_manufacturerCode : option string;
  cmd_name : option string;
  cmd_source : option string;
  cmd_optional : option string;
  cmd_introducedIn : option string;
  cmd_removedIn : option string;
  cmd_description : string;              (* description[0] *)
  cmd_arg : option (list Arg)            (* 'arg' in command *)
}.

Record Attribute : Type := {
  att_code : option string;
  att_manufacturerCode : option string;
  att_text : option string;              (* attribute._ *)
  att_type : string;
  att_side : option string;
  att_define : option string;
  att_min : option string;
  att_max : option string;
  att_length : option string;
  att_writable : option string;
  att_default : option string;
  att_optional : option string;
  att_reportable : option string;
  att_sceneRequired : option string;
  att_introducedIn : option string;
  att_removedIn : option string;
  att_entryType : option string
}.

Record GlobalAttribute : Type := {
  ga_side : option string;
  ga_code : option string;
  ga_value : option string
}.

Record ClusterAttrs : Type := {
  ca_code : option string;               (* 'code' in cluster.$ *)
  ca_manufacturerCode : option string;
  ca_singleton : option string;
  ca_introducedIn : option string;
  ca_removedIn : option string
}.

Record Cluster : Type := {
  cl_attrs : option ClusterAttrs;        (* '$' in cluster *)
  cl_code : string;                      (* code[0] *)
  cl_name : string;                      (* name[0] *)
  cl_description : string;               (* description[0] *)
  cl_define : string;                    (* define[0] *)
  cl_domain : string;                    (* domain[0] *)
  cl_command : option (list Command);
  cl_attribute : option (list Attribute);
  cl_globalAttribute : option (list GlobalAttribute)
}.

Record StructItem : Type := {
  si_name : option string;
  si_type : option string;
  si_entryType : option string;
  si_length : option string;
  si_writable : option string
}.

Record Struct : Type := {
  st_name : option string;
  st_item : option (list StructItem)     (* 'item' in struct *)
}.

Record EnumItem : Type := {
  ei_name : option string;
  ei_value : option string
}.

Record Enum : Type := {
  en_name : option string;
  en_type : option string;
  en_item : option (list EnumItem)
}.

Record BitmapField : Type := {
  bf_name : option string;
  bf_mask : option string
}.

Record Bitmap : Type := {
  bm_name : option string;
  bm_type : option string;
  bm_field : option (list BitmapField)
}.

End Xml.

(** ** Objects prepared for insertion *)

Module Prepared.

Record GlobalAttributeRow : Type := {
  gar_code : num;
  gar_side : option string;
  gar_value : option string
}.

Record ClusterGlobalAttribute : Type := {
  cga_code : num;
  cga_manufacturerCode : option string;
  cga_globalAttribute : list GlobalAttributeRow
}.

Record Arg : Type := {
  pa_name : option string;
  pa_type : option string;
  pa_isArray : Z;
  pa_presentIf : option string;
  pa_countArg : option string;
  pa_ordinal : nat;
  pa_introducedIn : option string;
  pa_removedIn : option string
}.

Record Command : Type := {
  pc_code : num;
  pc_manufacturerCode : slot num;
  pc_name : option string;
  pc_description : string;
  pc_source : option string;
  pc_isOptional : bool;
  pc_introducedIn : option string;
  pc_removedIn : option string;
  pc_args : option (list Arg)
}.

Record Attribute : Type := {
  pt_code : num;
  pt_manufacturerCode : slot num;
  pt_name : option string;
  pt_type : string;
  pt_side : option string;
  pt_define : option string;
  pt_min : option string;
  pt_max : option string;
  pt_minLength : Z;
  pt_maxLength : option string;          (* [None] is null *)
  pt_isWritable : bool;
  pt_defaultValue : option string;
  pt_isOptional : bool;
  pt_isReportable : bool;
  pt_isSceneRequired : bool;
  pt_introducedIn : option string;
  pt_removedIn : option string;
  pt_entryType : option string
}.

Record Cluster : Type := {
  isExtension : bool;
  code : slot num;
  name : option string;
  description : option string;
  define : option string;
  domain : option string;
  isSingleton : option bool;
  manufacturerCode : slot num;
  introducedIn : option string;
  removedIn : option string;
  commands : option (list Command);
  attributes : option (list Attribute)
}.

Record StructItem : Type := {
  psi_name : option string;
  psi_type : option string;
  psi_ordinal : nat;
  psi_entryType : option string;
  psi_minLength : Z;
  psi_maxLength : option string;
  psi_isWritable : bool
}.

Record Struct : Type := {
  ps_name : option string;
  ps_items : option (list StructItem)
}.

Record EnumItem : Type := {
  pei_name : option string;
  pei_value : num;
  pei_ordinal : nat
}.

Record Enum : Type := {
  pe_name : option string;
  pe_type : option string;
  pe_items : option (list EnumItem)
}.

Record BitmapField : Type := {
  pbf_name : option string;
  pbf_mask : num;
  pbf_type : string;
  pbf_ordinal : nat
}.

Record Bitmap : Type := {
  pb_name : option string;
  pb_type : option string;
  pb_fields : option (list BitmapField)
}.

End Prepared.

Import Xml Prepared.

(** ** Preparers *)

(** One [globalAttribute] entry pushed onto the rows collected so far. *)
Definition pushGlobalAttribute (rows : list GlobalAttributeRow)
    (ga : Xml.GlobalAttribute) (_ : nat) : list GlobalAttributeRow :=
  if decide (ga_side ga = Some dbEnum.side_either) then
    push
      (push rows
         {| gar_code := parseIntOpt (ga_code ga) 0;
            gar_side := Some dbEnum.side_client;
            gar_value := ga_value ga |})
      {| gar_code := parseIntOpt (ga_code ga) 0;
         gar_side := Some dbEnum.side_server;
         gar_value := ga_value ga |}
  else
    push rows
      {| gar_code := parseIntOpt (ga_code ga) 0;
         gar_side := ga_side ga;
         gar_value := ga_value ga |}.

(** [prepareClusterGlobalAttribute]; [None] is the [null] returned for a
    cluster without [globalAttribute] children. *)
Definition prepareClusterGlobalAttribute (cluster : Xml.Cluster)
    : option ClusterGlobalAttribute :=
  match cl_globalAttribute cluster with
  | Some gas =>
      Some {| cga_code := parseInt (cl_code cluster) 16;
              cga_manufacturerCode :=
                match cl_attrs cluster with
                | Some a => ca_manufacturerCode a
                | None => None
                end;
              cga_globalAttribute := forEach gas pushGlobalAttribute [] |}
  | None => None
  end.

(** The object pushed for an argument found at position [index]. *)
Definition preparedArg (arg : Xml.Arg) (index : nat) : Prepared.Arg :=
  {| pa_name := arg_name arg;
     pa_type := arg_type arg;
     pa_isArray := if isTrue (arg_array arg) then 1 else 0;
     pa_presentIf := arg_presentIf arg;
     pa_countArg := arg_countArg arg;
     pa_ordinal := index;
     pa_introducedIn := arg_introducedIn arg;
     pa_removedIn := arg_removedIn arg |}.

(** The callback of [command.arg.forEach]: only arguments that are not
    [removedIn] are pushed. *)
Definition pushArg (args : list Prepared.Arg) (arg : Xml.Arg) (index : nat)
    : list Prepared.Arg :=
  match arg_removedIn arg with
  | None => push args (preparedArg arg index)
  | Some _ => args
  end.

(** Manufacturer code of a command or attribute: the one of the cluster being
    prepared when the element does not carry one, its own parsed one
    otherwise. *)
Definition inheritManufacturerCode (own : option string) (ofCluster : slot num)
    : slot num :=
  match own with
  | None => ofCluster
  | Some s => Val (parseInt s 0)
  end.

(** The [cmd] object built for a command; [retMfg] is [ret.manufacturerCode]
    of the cluster being prepared. *)
Definition preparedCommand (retMfg : slot num) (command : Xml.Command)
    : Prepared.Command :=
  {| pc_code := parseIntOpt (cmd_code command) 0;
     pc_manufacturerCode :=
       inheritManufacturerCode (cmd_manufacturerCode command) retMfg;
     pc_name := cmd_name command;
     pc_description := trim (cmd_description command);
     pc_source := cmd_source command;
     pc_isOptional := isTrue (cmd_optional command);
     pc_introducedIn := cmd_introducedIn command;
     pc_removedIn := cmd_removedIn command;
     pc_args :=
       match cmd_arg command with
       | Some args => Some (forEach args pushArg [])
       | None => None
       end |}.

(** The callback of [cluster.command.forEach]. *)
Definition pushCommand (retMfg : slot num) (cmds : list Prepared.Command)
    (command : Xml.Command) (_ : nat) : list Prepared.Command :=
  push cmds (preparedCommand retMfg command).

(** The [att] object built for an attribute. *)
Definition preparedAttribute (retMfg : slot num) (attribute : Xml.Attribute)
    : Prepared.Attribute :=
  {| pt_code := parseIntOpt (att_code attribute) 0;
     pt_manufacturerCode :=
       inheritManufacturerCode (att_manufacturerCode attribute) retMfg;
     pt_name := att_text attribute;
     pt_type := toLowerCase (att_type attribute);
     pt_side := att_side attribute;
     pt_define := att_define attribute;
     pt_min := att_min attribute;
     pt_max := att_max attribute;
     pt_minLength := 0;
     pt_maxLength :=
       if truthy (att_length attribute) then att_length attribute else None;
     pt_isWritable := isTrue (att_writable attribute);
     pt_defaultValue := att_default attribute;
     pt_isOptional := isTrue (att_optional attribute);
     pt_isReportable := isTrue (att_reportable attribute);
     pt_isSceneRequired := isTrue (att_sceneRequired attribute);
     pt_introducedIn := att_introducedIn attribute;
     pt_removedIn := att_removedIn attribute;
     pt_entryType := att_entryType attribute |}.

(** The callback of [cluster.attribute.forEach]; an attribute that is
    [removedIn] is prepared but not pushed. *)
Definition pushAttribute (retMfg : slot num) (atts : list Prepared.Attribute)
    (attribute : Xml.Attribute) (_ : nat) : list Prepared.Attribute :=
  let att := preparedAttribute retMfg attribute in
  match pt_removedIn att with
  | None => push atts att
  | Some _ => atts
  end.

(** [ret.manufacturerCode] after the first part of [prepareCluster]: never
    assigned for an extension or a cluster without attributes. *)
Definition clusterManufacturerCode (cluster : Xml.Cluster) (isExt : bool)
    : slot num :=
  if isExt then Undefined
  else
    match cl_attrs cluster with
    | Some a =>
        match ca_manufacturerCode a with
        | None => Null
        | Some s => Val (parseInt s 0)
        end
    | None => Undefined
    end.

(** [prepareCluster(cluster, isExtension)]. *)
Definition prepareCluster (cluster : Xml.Cluster) (isExt : bool) : Prepared.Cluster :=
  let retMfg := clusterManufacturerCode cluster isExt in
  {| isExtension := isExt;
     code :=
       if isExt then
         match cl_attrs cluster with
         | Some a =>
             match ca_code a with
             | Some c => Val (parseInt c 0)
             | None => Undefined
             end
         | None => Undefined
         end
       else Val (parseInt (cl_code cluster) 0);
     name := if isExt then None else Some (cl_name cluster);
     description := if isExt then None else Some (trim (cl_description cluster));
     define := if isExt then None else Some (cl_define cluster);
     domain := if isExt then None else Some (cl_domain cluster);
     isSingleton :=
       if isExt then None
       else
         match cl_attrs cluster with
         | Some a => Some (isTrue (ca_singleton a))
         | None => Some false
         end;
     manufacturerCode := retMfg;
     introducedIn :=
       if isExt then None
       else match cl_attrs cluster with
            | Some a => ca_introducedIn a
            | None => None
            end;
     removedIn :=
       if isExt then None
       else match cl_attrs cluster with
            | Some a => ca_removedIn a
            | None => None
            end;
     commands :=
       match cl_command cluster with
       | Some cs => Some (forEach cs (pushCommand retMfg) [])
       | None => None
       end;
     attributes :=
       match cl_attribute cluster with
       | Some ats => Some (forEach ats (pushAttribute retMfg) [])
       | None => None
       end |}.

Definition preparedStructItem (item : Xml.StructItem) (index : nat)
    : Prepared.StructItem :=
  {| psi_name := si_name item;
     psi_type := si_type item;
     psi_ordinal := index;
     psi_entryType := si_entryType item;
     psi_minLength := 0;
     psi_maxLength := if truthy (si_length item) then si_length item else None;
     psi_isWritable := isTrue (si_writable item) |}.

Definition pushStructItem (items : list Prepared.StructItem)
    (item : Xml.StructItem) (index : nat) : list Prepared.StructItem :=
  push items (preparedStructItem item index).

(** [prepareStruct]. *)
Definition prepareStruct (struct : Xml.Struct) : Prepared.Struct :=
  {| ps_name := st_name struct;
     ps_items :=
       match st_item struct with
       | Some items => Some (forEach items pushStructItem [])
       | None => None
       end |}.

Definition preparedEnumItem (item : Xml.EnumItem) (index : nat)
    : Prepared.EnumItem :=
  {| pei_name := ei_name item;
     pei_value := parseIntOpt (ei_value item) 0;
     pei_ordinal := index |}.

Definition pushEnumItem (items : list Prepared.EnumItem)
    (item : Xml.EnumItem) (index : nat) : list Prepared.EnumItem :=
  push items (preparedEnumItem item index).

(** [prepareEnum]. *)
Definition prepareEnum (en : Xml.Enum) : Prepared.Enum :=
  {| pe_name := en_name en;
     pe_type := en_type en;
     pe_items :=
       match en_item en with
       | Some items => Some (forEach items pushEnumItem [])
       | None => None
       end |}.

Section Bitmaps.

(** [bin.bitCount] of [src-electron/util/bin.js], a file that is not among
    the sources: the preparers are stated for any such function. *)
Variable bitCount : num -> Z.

(** [maskToType]. *)
Definition maskToType (mask : option string) : string :=
  let n := parseIntOpt mask 0 in
  let bits := bitCount n in
  if bits <=? 1 then "bool"
  else if bits <=? 8 then "enum8"
  else if bits <=? 16 then "enum16"
  else "enum32".

Definition preparedBitmapField (field : Xml.BitmapField) (index : nat)
    : Prepared.BitmapField :=
  {| pbf_name := bf_name field;
     pbf_mask := parseIntOpt (bf_mask field) 0;
     pbf_type := maskToType (bf_mask field);
     pbf_ordinal := index |}.

Definition pushBitmapField (fields : list Prepared.BitmapField)
    (field : Xml.BitmapField) (index : nat) : list Prepared.BitmapField :=
  push fields (preparedBitmapField field index).

(** [prepareBitmap]. *)
Definition prepareBitmap (bm : Xml.Bitmap) : Prepared.Bitmap :=
  {| pb_name := bm_name bm;
     pb_type := bm_type bm;
     pb_fields :=
       match bm_field bm with
       | Some fields => Some (forEach fields pushBitmapField [])
       | None => None
       end |}.

End Bitmaps.

(** ** Asynchronous computations over a store

    An [async] function of the loader is a computation over the state of the
    store that either fulfils with a value or rejects with the value thrown.
    State changes made before a rejection stay: nothing is undone by an
    exception. *)

Module Async.

(** The value carried by a rejection: the message of the thrown string or
    [Error]. *)
Definition exn : Type := string.

Inductive outcome (A : Type) : Type :=
  | Fulfilled (a : A)
  | Rejected (e : exn).
Arguments Fulfilled {A} a.
Arguments Rejected {A} e.

Abbreviation async db A := (db -> db * outcome A) (only parsing).

Definition rejected {A} (o : outcome A) : Prop :=
  match o with
  | Rejected _ => True
  | Fulfilled _ => False
  end.

Section Combinators.
Context {db : Type}.

Definition ret {A} (a : A) : async db A := fun s => (s, Fulfilled a).

Definition throw {A} (e : exn) : async db A := fun s => (s, Rejected e).

(** [let x = await m; k x]. *)
Definition bind {A B} (m : async db A) (k : A -> async db B) : async db B :=
  fun s =>
    match m s with
    | (s', Fulfilled a) => k a s'
    | (s', Rejected e) => (s', Rejected e)
    end.

(** A synchronous step that may throw. *)
Definition lift {A} (o : outcome A) : async db A := fun s => (s, o).

(** [if (c) { await m }]. *)
Definition when (c : bool) (m : async db unit) : async db unit :=
  if c then m else ret tt.

(** [try { m } catch (err) { h err }]. *)
Definition tryCatch {A} (m : async db A) (h : exn -> async db A) : async db A :=
  fun s =>
    match m s with
    | (s', Fulfilled a) => (s', Fulfilled a)
    | (s', Rejected e) => h e s'
    end.

(** [try { m } finally { f }] where [f] is started and not awaited: its
    effect on the store happens, its own outcome is dropped, and the outcome
    of [m] is the outcome of the whole. *)
Definition tryFinallyDetached {A B} (m : async db A) (f : async db B) : async db A :=
  fun s =>
    let '(s1, r) := m s in
    let '(s2, _) := f s1 in
    (s2, r).

(** [Promise.all] over promises that have all been started: every one of
    them runs to its end, also after another has rejected; the whole fulfils
    with all the values or rejects.  The store effects are taken in array
    order, and so is the rejection reported when several reject: of the ways
    the chains can interleave, this is the one in which each chain runs to
    its end before the next takes its first step. *)
Fixpoint all {A} (ps : list (async db A)) : async db (list A) :=
  match ps with
  | [] => ret []
  | p :: ps' =>
      fun s =>
        let '(s1, r) := p s in
        let '(s2, rs) := all ps' s1 in
        (s2,
         match r, rs with
         | Fulfilled a, Fulfilled l => Fulfilled (a :: l)
         | Rejected e, _ => Rejected e
         | Fulfilled _, Rejected e => Rejected e
         end)
  end.

Definition ignore {A} (m : async db A) : async db unit :=
  bind m (fun _ => ret tt).

End Combinators.

Module Notations.
Notation "'let*' x := m 'in' k" := (bind m (fun x => k))
  (at level 10, x name, m at level 100, k at level 200).
Notation "'await' m 'in' k" := (bind m (fun _ => k))
  (at level 10, m at level 100, k at level 200).
End Notations.

End Async.

Import Async Async.Notations.

(** ** The manifest and what the loader reads from it *)

(** A value of the manifest's [defaults.text] map: a string or a number
    (integers; [_.isNumber] holds of the second only). *)
Inductive OptionValue : Type :=
  | VStr (s : string)
  | VNum (z : Z).

(** An entry that is either an array of strings or one comma-separated
    string. *)
Inductive ListOrCsv : Type :=
  | AsArray (l : list string)
  | AsCsv (s : string).

Record Options : Type := {
  opt_text : option (list (string * ListOrCsv));
  opt_bool : option ListOrCsv
}.

Record Defaults : Type := {
  def_text : option (list (string * OptionValue));
  def_bool : option (list (string * bool))   (* truthiness of each value *)
}.

(** What [collectDataFromJsonFile] and [collectDataFromPropertiesFile] put
    into the context. *)
Record Manifest : Type := {
  zclFiles : list string;
  manufacturersXml : option string;
  zclSchema : option string;
  zclValidation : option string;
  options : option Options;
  defaults : option Defaults;
  version : option string;
  supportCustomZclDevice : bool
}.

Record Metadata : Type := {
  md_data : string;
  md_crc : Z
}.

(** The context [loadSilabsZcl] returns. *)
Record Context : Type := {
  metadataFile : string;
  ctx_metadata : Metadata;
  packageId : Z;
  ctx_manifest : Manifest
}.

Record OptionRow : Type := {
  or_id : Z;
  or_packageRef : Z;
  or_category : string;
  or_code : string;
  or_label : string
}.

(** What [qualifyZclFile] resolves with: [q_data] is left out for a file that
    is already loaded. *)
Record Qualified : Type := {
  q_filePath : string;
  q_packageId : Z;
  q_data : option string
}.

(** The argument of [processParsedZclData] in single-file loading. *)
Record ParsedArgument (Parsed : Type) : Type := {
  pa_qualified : Qualified;
  pa_result : option Parsed
}.
Arguments pa_qualified {Parsed} _.
Arguments pa_result {Parsed} _.

(** The result of [loadIndividualSilabsFile]. *)
Inductive LoadResult : Type :=
  | LoadSucceeded (pkgId : Z)        (* { succeeded: true, packageId } *)
  | LoadFailed (err : exn).          (* { succeeded: false, err } *)

Definition succeeded (r : LoadResult) : bool :=
  match r with
  | LoadSucceeded _ => true
  | LoadFailed _ => false
  end.

(** [Number.prototype.toString(16)] on an integer. *)
Definition toString16 (z : Z) : string :=
  match z with
  | Z0 => "0"
  | Zpos p => HexString.Raw.of_pos p EmptyString
  | Zneg p => "-" ++ HexString.Raw.of_pos p EmptyString
  end.

(** Conversion of an option value to a string, as string interpolation and
    the store's text column do it. *)
Definition valueToString (v : OptionValue) : string :=
  match v with
  | VStr s => s
  | VNum z => NilZero.string_of_int (Z.to_int z)
  end.

Definition isNumber (v : OptionValue) : bool :=
  match v with
  | VNum _ => true
  | VStr _ => false
  end.

(** [String.prototype.split(',')]. *)
Fixpoint splitComma (s : string) (cur : string) : list string :=
  match s with
  | EmptyString => [rev_string cur]
  | String c s' =>
      if Ascii.eqb c ","
      then rev_string cur :: splitComma s' EmptyString
      else splitComma s' (String c cur)
  end.

Definition optionList (v : ListOrCsv) : list string :=
  match v with
  | AsArray l => l
  | AsCsv s => map trim (splitComma s EmptyString)
  end.

(** ** The collaborators of the loader

    The database access layer, the package and loader queries, the file
    system and the parsers of XML, JSON and properties files live in modules
    that are not among the sources; the loader is stated against this
    interface to them.  [collectData] stands for [collectDataFromJsonFile]
    and [collectDataFromPropertiesFile], which only rearrange what those
    parsers and the path lookup return.  The steps [parseZclFiles],
    [parseManufacturerData], [processCustomZclDeviceType], [parseZclSchema]
    and [processParsedZclData] enter [loadSilabsZcl] and
    [loadIndividualSilabsFile] only through their effect on the store and
    their outcome, so they are left open here as well; the order in which
    the insertions of [parseZclFiles] begin is the subject of
    [Module Phases]. *)
Class Backend (db Parsed : Type) : Type := {
  dbBeginTransaction : async db unit;
  dbCommit : async db unit;
  readMetadataFile : string -> async db Metadata;
  recordToplevelPackage : string -> Z -> async db Z;
  collectData : bool -> string -> Metadata -> async db Manifest;
  recordVersion : Z -> string -> async db unit;
  parseZclFiles : Z -> list string -> async db unit;
  parseManufacturerData : Z -> string -> async db unit;
  processCustomZclDeviceType : Z -> async db unit;
  parseZclSchema : Z -> string -> string -> async db unit;
  insertOptionsKeyValues : Z -> string -> list (OptionValue * string) -> async db unit;
  selectSpecificOptionValue : Z -> string -> OptionValue -> async db (option OptionRow);
  insertDefaultOptionValue : Z -> string -> Z -> async db unit;
  readFile : string -> async db string;
  checksum : string -> Z;
  qualifyZclFile : string -> string -> Z -> async db Qualified;
  parseXml : string -> async db Parsed;
  processParsedZclData : ParsedArgument Parsed -> async db (list (async db unit));
  processZclPostLoading : async db unit
}.

Section Loader.
Context {db Parsed : Type} `{B : Backend db Parsed}.

(** [parseTextOptions]. *)
Definition parseTextOptions (pkgRef : Z) (textOptions : option (list (string * ListOrCsv)))
    : async db unit :=
  match textOptions with
  | None => ret tt
  | Some entries =>
      ignore (all (map (fun '(optionKey, val) =>
        insertOptionsKeyValues pkgRef optionKey
          (map (fun optionValue => (VStr (toLowerCase optionValue), optionValue))
               (optionList val))) entries))
  end.

(** [parseBoolOptions]. *)
Definition parseBoolOptions (pkgRef : Z) (booleanCategories : option ListOrCsv)
    : async db unit :=
  match booleanCategories with
  | None => ret tt
  | Some cats =>
      ignore (all (map (fun optionCategory =>
        insertOptionsKeyValues pkgRef optionCategory
          [(VNum 1, "True"); (VNum 0, "False")]) (optionList cats)))
  end.

(** [parseOptions]. *)
Definition parseOptions (pkgId : Z) (o : Options) : async db unit :=
  ignore (all [parseTextOptions pkgId (opt_text o); parseBoolOptions pkgId (opt_bool o)]).

(** The two lookups of [parseTextDefaults] for one category: the value as
    declared, then, for a number without a match, its hexadecimal rendering. *)
Definition lookupTextDefault (pkgRef : Z) (optionCategory : string) (txt : OptionValue)
    : async db (option OptionRow) :=
  let* specificValue := selectSpecificOptionValue pkgRef optionCategory txt in
  match specificValue with
  | Some _ => ret specificValue
  | None =>
      if isNumber txt then
        let hex := "0x" ++ match txt with VNum z => toString16 z | VStr s => s end in
        selectSpecificOptionValue pkgRef optionCategory (VStr hex)
      else ret specificValue
  end.

Definition noMatchMessage (optionCategory : string) (txt : OptionValue) : exn :=
  "Default value for: " ++ optionCategory ++ "/" ++ valueToString txt
    ++ " does not match an option.".

(** The promise chain [parseTextDefaults] builds for one category. *)
Definition textDefault (pkgRef : Z) (optionCategory : string) (txt : OptionValue)
    : async db unit :=
  let* specificValue := lookupTextDefault pkgRef optionCategory txt in
  match specificValue with
  | None => throw (noMatchMessage optionCategory txt)
  | Some row => insertDefaultOptionValue pkgRef optionCategory (or_id row)
  end.

(** [parseTextDefaults]. *)
Definition parseTextDefaults (pkgRef : Z) (textDefaults : option (list (string * OptionValue)))
    : async db unit :=
  match textDefaults with
  | None => ret tt
  | Some entries =>
      ignore (all (map (fun '(optionCategory, txt) =>
        textDefault pkgRef optionCategory txt) entries))
  end.

(** [parseBoolDefaults]; reading [id] of a lookup without a row throws. *)
Definition parseBoolDefaults (pkgRef : Z) (booleanCategories : option (list (string * bool)))
    : async db unit :=
  match booleanCategories with
  | None => ret tt
  | Some entries =>
      ignore (all (map (fun '(optionCategory, v) =>
        let* specificValue := selectSpecificOptionValue pkgRef optionCategory
                           (VNum (if v : bool then 1 else 0)) in
        match specificValue with
        | Some row => insertDefaultOptionValue pkgRef optionCategory (or_id row)
        | None => throw "TypeError: Cannot read property 'id' of undefined"
        end) entries))
  end.

(** [parseDefaults]. *)
Definition parseDefaults (pkgId : Z) (d : Defaults) : async db unit :=
  ignore (all [parseTextDefaults pkgId (def_text d); parseBoolDefaults pkgId (def_bool d)]).

(** The [try] block of [loadSilabsZcl]. *)
Definition loadSilabsZclBody (metafile : string) (isJson : bool) : async db Context :=
  let* md := readMetadataFile metafile in
  let* pkgId := recordToplevelPackage metafile (md_crc md) in
  let* m := collectData isJson metafile md in
  await match version m with
        | Some v => recordVersion pkgId v
        | None => ret tt
        end in
  await parseZclFiles pkgId (zclFiles m) in
  await match manufacturersXml m with
        | Some f => parseManufacturerData pkgId f
        | None => ret tt
        end in
  await when (supportCustomZclDevice m) (processCustomZclDeviceType pkgId) in
  await match options m with
        | Some o => parseOptions pkgId o
        | None => ret tt
        end in
  await match defaults m with
        | Some d => parseDefaults pkgId d
        | None => ret tt
        end in
  await match zclSchema m, zclValidation m with
        | Some sch, Some val => parseZclSchema pkgId sch val
        | _, _ => ret tt
        end in
  ret {| metadataFile := metafile; ctx_metadata := md;
         packageId := pkgId; ctx_manifest := m |}.

(** [loadSilabsZcl]: the transaction is begun, the body runs, a caught error
    is logged and thrown again, and [finally] calls [dbCommit] without
    awaiting it. *)
Definition loadSilabsZcl (metafile : string) (isJson : bool) : async db Context :=
  await dbBeginTransaction in
  tryFinallyDetached
    (tryCatch (loadSilabsZclBody metafile isJson) (fun err => throw err))
    dbCommit.

(** What the bound validator answers: nothing, or an object with [isValid]. *)
Definition Validation : Type := option bool.

(** The [try] block of [loadIndividualSilabsFile]. *)
Definition loadIndividualSilabsFileBody (filePath : string)
    (boundValidator : option (string -> outcome Validation)) : async db LoadResult :=
  let* fileContent := readFile filePath in
  let* result := qualifyZclFile filePath fileContent (checksum fileContent) in
  let pkgId := q_packageId result in
  let* validation := match boundValidator with
                     | Some v => lift (v fileContent)
                     | None => ret None
                     end in
  let* parsed := match q_data result with
                 | Some d => let* r := parseXml d in ret (Some r)
                 | None => ret None
                 end in
  await match validation with
        | Some false => throw "Validation Failed"
        | _ => ret tt
        end in
  let* laterPromises := processParsedZclData
                          {| pa_qualified := result; pa_result := parsed |} in
  await all laterPromises in
  await processZclPostLoading in
  ret (LoadSucceeded pkgId).

(** [loadIndividualSilabsFile]. *)
Definition loadIndividualSilabsFile (filePath : string)
    (boundValidator : option (string -> outcome Validation)) : async db LoadResult :=
  tryCatch (loadIndividualSilabsFileBody filePath boundValidator)
           (fun err => ret (LoadFailed err)).

End Loader.

(** ** Order of insertions in a manifest-driven load

    [parseZclFiles] starts [parseSingleZclFile] for every file; each file is
    read, qualified and parsed, and [processParsedZclData] then calls the
    [process...] functions of the tags it finds.  Calling one of them starts
    its insertion at once; only the cluster-extension and global-attribute
    work is wrapped in functions that [parseZclFiles] calls after every file
    has settled.  The machine below records when each insertion begins and
    ends, under a scheduler that decides which pending operation finishes
    next and whether it succeeds. *)

Module Phases.

Local Open Scope list_scope.
Local Open Scope nat_scope.

Inductive Insertion : Type :=
  | insertAtomics
  | insertBitmaps
  | insertClusters
  | insertSpecs
  | insertDomains
  | insertEnums
  | insertStructs
  | insertDeviceTypes
  | insertGlobals
  | insertGlobalAttributeDefault
  | insertClusterExtensions.

#[export] Instance Insertion_eq_dec : EqDecision Insertion.
Proof. solve_decision. Defined.

(** The phase an insertion belongs to: domains (and their specs) first,
    cluster extensions and global attribute defaults last. *)
Definition phase (i : Insertion) : nat :=
  match i with
  | insertSpecs | insertDomains => 1
  | insertGlobalAttributeDefault | insertClusterExtensions => 3
  | _ => 2
  end.

(** The tags found under [configurator]; [someGlobalAttribute] tells whether
    any cluster carries a [globalAttribute] child, that is whether
    [processClusterGlobalAttributes] has anything to insert. *)
Record Configurator : Type := {
  atomic : bool;
  bitmap : bool;
  cluster : bool;
  someGlobalAttribute : bool;
  domain : bool;
  enum : bool;
  struct : bool;
  deviceType : bool;
  global : bool;
  clusterExtension : bool
}.

Inductive File : Type :=
  | Unreadable            (* reading, qualifying or parsing throws *)
  | AlreadyLoaded         (* qualified without data: no [result] *)
  | ParsedFile (c : option Configurator).   (* 'configurator' in data *)

(** The functions pushed onto [promisesStep3]. *)
Inductive Later : Type :=
  | processClusterGlobalAttributes (some : bool)
  | processClusterExtensions.

Definition tag (b : bool) (i : Insertion) : list Insertion :=
  if b then [i] else [].

(** Insertions started by the synchronous part of [processParsedZclData], in
    the order of the calls. *)
Definition startedAtOnce (c : Configurator) : list Insertion :=
  tag (atomic c) insertAtomics ++ tag (bitmap c) insertBitmaps
    ++ tag (cluster c) insertClusters ++ tag (domain c) insertSpecs
    ++ tag (enum c) insertEnums ++ tag (struct c) insertStructs
    ++ tag (deviceType c) insertDeviceTypes ++ tag (global c) insertGlobals.

Definition promisesStep3 (c : Configurator) : list Later :=
  (if cluster c then [processClusterGlobalAttributes (someGlobalAttribute c)] else [])
    ++ (if clusterExtension c then [processClusterExtensions] else []).

(** What calling a later function starts. *)
Definition startedBy (l : Later) : list Insertion :=
  match l with
  | processClusterGlobalAttributes true => [insertGlobalAttributeDefault]
  | processClusterGlobalAttributes false => []
  | processClusterExtensions => [insertClusterExtensions]
  end.

Inductive Event : Type :=
  | Begin (file : nat) (i : Insertion)
  | Finish (file : nat) (i : Insertion) (ok : bool).

(** One file of the load: whether [processParsedZclData] has run for it (or
    the file has been given up), the insertions under way, and whether one of
    them has failed, which rejects the file's promise. *)
Record FileState : Type := {
  content : File;
  dispatched : bool;
  pending : list Insertion;
  failed : bool
}.

Record State : Type := {
  files : list FileState;
  joined : bool;          (* [parseZclFiles] has called the later functions *)
  events : list Event     (* latest first *)
}.

Definition trace (st : State) : list Event := rev (events st).

Inductive Choice : Type :=
  | Dispatch (file : nat)
  | Complete (file : nat) (i : Insertion) (ok : bool)
  | Join.

Definition begins (f : nat) (l : list Insertion) : list Event :=
  rev (map (Begin f) l).

(** [processParsedZclData] up to its first [await]. *)
Definition processParsedZclData (f : nat) (fs : FileState) : FileState * list Event :=
  match content fs with
  | ParsedFile (Some c) =>
      ({| content := content fs; dispatched := true;
          pending := startedAtOnce c; failed := false |},
       begins f (startedAtOnce c))
  | _ =>
      ({| content := content fs; dispatched := true;
          pending := []; failed := false |}, [])
  end.

Definition without (i : Insertion) (l : list Insertion) : list Insertion :=
  List.remove Insertion_eq_dec i l.

(** An insertion finishes.  A successful [insertSpecs] lets [processDomains]
    go on to [insertDomains]. *)
Definition complete (f : nat) (i : Insertion) (ok : bool) (fs : FileState)
    : FileState * list Event :=
  let next :=
    match i with
    | insertSpecs => if ok then [insertDomains] else []
    | _ => []
    end in
  ({| content := content fs; dispatched := dispatched fs;
      pending := without i (pending fs) ++ next;
      failed := failed fs || negb ok |},
   begins f next ++ [Finish f i ok]).

(** The promise of [parseSingleZclFile] has fulfilled. *)
Definition fulfilled (fs : FileState) : bool :=
  dispatched fs && negb (failed fs)
    && match pending fs with [] => true | _ => false end.

(** What the fulfilled promise of a file holds: [None] is the [undefined] of
    a file whose error was caught. *)
Definition laterOf (fs : FileState) : option (list Later) :=
  match content fs with
  | Unreadable => None
  | AlreadyLoaded => Some []
  | ParsedFile None => Some []
  | ParsedFile (Some c) => Some (promisesStep3 c)
  end.

(** [laterPromises.map((promise) => promise())] over the flattened results:
    the later functions are called file by file; calling [undefined] throws
    and ends the map.  A later function that throws while it is being called
    would end the map in the same way; that is not represented here, so the
    insertions begun here are all that the code can begin, not fewer. *)
Fixpoint callLater (f : nat) (l : list FileState)
    : list FileState * list Event :=
  match l with
  | [] => ([], [])
  | fs :: l' =>
      match laterOf fs with
      | None => (fs :: l', [])
      | Some ls =>
          let started := concat (map startedBy ls) in
          let '(rest, evs) := callLater (S f) l' in
          ({| content := content fs; dispatched := dispatched fs;
              pending := pending fs ++ started; failed := failed fs |} :: rest,
           evs ++ begins f started)
      end
  end.

Definition step (c : Choice) (st : State) : State :=
  match c with
  | Dispatch f =>
      match files st !! f with
      | Some fs =>
          if dispatched fs then st
          else
            let '(fs', evs) := processParsedZclData f fs in
            {| files := <[f := fs']> (files st); joined := joined st;
               events := evs ++ events st |}
      | None => st
      end
  | Complete f i ok =>
      match files st !! f with
      | Some fs =>
          if decide (i ∈ pending fs) then
            let '(fs', evs) := complete f i ok fs in
            {| files := <[f := fs']> (files st); joined := joined st;
               events := evs ++ events st |}
          else st
      | None => st
      end
  | Join =>
      if joined st then st
      else if forallb fulfilled (files st) then
        let '(fss, evs) := callLater 0 (files st) in
        {| files := fss; joined := true; events := evs ++ events st |}
      else st
  end.

(** A choice that is not enabled leaves the state as it is. *)
Definition run (sched : list Choice) (st : State) : State :=
  fold_left (fun s c => step c s) sched st.

(** [parseZclFiles] at the moment every [parseSingleZclFile] has been
    called. *)
Definition parseZclFiles (zclFiles : list File) : State :=
  {| files := map (fun c => {| content := c; dispatched := false;
                               pending := []; failed := false |}) zclFiles;
     joined := false;
     events := [] |}.

(** The insertions of phases 1 and 2 that the tags of a file call for. *)
Definition calledFor (c : Configurator) : list Insertion :=
  startedAtOnce c ++ tag (domain c) insertDomains.

(** The ordering the specification asks for between phase [n] and the phases
    before it, on a trace: when an insertion of phase [n] begins, every
    insertion of phase [m] that the trace begins at all has finished. *)
Definition barrier (m n : nat) (tr : list Event) : Prop :=
  forall pre f i post,
    tr = pre ++ Begin f i :: post -> phase i = n ->
    forall g j, phase j = m -> Begin g j ∈ tr -> exists ok, Finish g j ok ∈ pre.

(** *** What holds of every state the machine reaches *)

Section Invariant.
Variable zclFiles : list File.

(** On events listed latest first: wherever an insertion of phase 3 begins,
    nothing of an earlier phase begins later, everything of an earlier phase
    that began before has finished with success, and so has every insertion
    the files call for. *)
Definition ordered (evs : list Event) : Prop :=
  forall later f i earlier,
    evs = later ++ Begin f i :: earlier -> phase i = 3 ->
    (forall g j, Begin g j ∈ later -> phase j = 3) /\
    (forall g j, phase j <> 3 -> Begin g j ∈ earlier -> Finish g j true ∈ earlier) /\
    (forall g c j, zclFiles !! g = Some (ParsedFile (Some c)) -> j ∈ calledFor c ->
       Finish g j true ∈ earlier).

Record Inv (st : State) : Prop := {
  inv_content : map content (files st) = zclFiles;
  inv_idle : forall g fs, files st !! g = Some fs -> dispatched fs = false ->
    pending fs = [] /\ failed fs = false;
  inv_before : joined st = false ->
    forall f i, Begin f i ∈ events st -> phase i <> 3;
  inv_after : joined st = true ->
    forall g fs, files st !! g = Some fs ->
      dispatched fs = true /\ forall j, j ∈ pending fs -> phase j = 3;
  inv_track : forall g j, Begin g j ∈ events st -> phase j <> 3 ->
    Finish g j true ∈ events st \/
    exists fs, files st !! g = Some fs /\ (j ∈ pending fs \/ failed fs = true);
  inv_started : forall g fs c, files st !! g = Some fs -> dispatched fs = true ->
    content fs = ParsedFile (Some c) ->
    forall j, j ∈ startedAtOnce c -> Begin g j ∈ events st;
  inv_domains : forall g, Finish g insertSpecs true ∈ events st ->
    Begin g insertDomains ∈ events st;
  inv_ordered : ordered (events st)
}.

End Invariant.

End Phases.

(** ** An in-memory transactional store *)

Module MemStore.

Local Open Scope list_scope.

Inductive Row : Type :=
  | PackageRow (id : Z) (path : string) (crc : Z)
  | VersionRow (pkg : Z) (v : string)
  | FileRow (pkg : Z) (path : string)
  | OptionRowOf (r : OptionRow)
  | OptionDefaultRow (pkg : Z) (category : string) (optionRef : Z).

(** Modelled from the spec: the relational store behind [db-api.js],
    [query-package.js] and [query-loader.js], none of which is among the
    sources.  The specification treats it as a generic transactional store
    with [beginTransaction], [commit], [insert] and lookups by key: readers
    see the [committed] rows; rows written inside a transaction are kept
    aside in [working] until [dbCommit] publishes them. *)
Record Store : Type := {
  committed : list Row;
  working : option (list Row)
}.

(** The rows a statement of the loader sees. *)
Definition view (s : Store) : list Row :=
  match working s with
  | Some w => w
  | None => committed s
  end.

Definition insert (rows : list Row) : async Store unit :=
  fun s =>
    (match working s with
     | Some w => {| committed := committed s; working := Some (w ++ rows) |}
     | None => {| committed := committed s ++ rows; working := None |}
     end, Fulfilled tt).

Definition begin : async Store unit :=
  fun s => ({| committed := committed s; working := Some (view s) |}, Fulfilled tt).

Definition commit : async Store unit :=
  fun s => ({| committed := view s; working := None |}, Fulfilled tt).

Definition nextId (s : Store) : Z := Z.of_nat (length (view s)) + 1.

Fixpoint findPackage (path : string) (crc : Z) (rows : list Row) : option Z :=
  match rows with
  | PackageRow id p c :: rows' =>
      if String.eqb p path && (c =? crc)%Z then Some id else findPackage path crc rows'
  | _ :: rows' => findPackage path crc rows'
  | [] => None
  end.

Fixpoint findOption (pkg : Z) (category code : string) (rows : list Row)
    : option OptionRow :=
  match rows with
  | OptionRowOf r :: rows' =>
      if (or_packageRef r =? pkg)%Z && String.eqb (or_category r) category
         && String.eqb (or_code r) code
      then Some r else findOption pkg category code rows'
  | _ :: rows' => findOption pkg category code rows'
  | [] => None
  end.

Fixpoint optionRows (pkg : Z) (category : string) (id : Z)
    (entries : list (OptionValue * string)) : list Row :=
  match entries with
  | (code, label) :: entries' =>
      OptionRowOf {| or_id := id; or_packageRef := pkg; or_category := category;
                     or_code := valueToString code; or_label := label |}
        :: optionRows pkg category (id + 1)%Z entries'
  | [] => []
  end.

(** The files and manifests the loader can find. *)
Record World : Type := {
  w_file : string -> option string;
  w_manifest : string -> option Manifest
}.

Definition recordPackage (path : string) (crc : Z) : async Store Z :=
  fun s =>
    match findPackage path crc (view s) with
    | Some id => (s, Fulfilled id)
    | None => let id := nextId s in
              (fst (insert [PackageRow id path crc] s), Fulfilled id)
    end.

Definition readFrom (w : World) (path : string) : async Store string :=
  fun s =>
    match w_file w path with
    | Some d => (s, Fulfilled d)
    | None => (s, Rejected ("ENOENT: no such file or directory, open '" ++ path ++ "'")%string)
    end.

Definition storeFiles (w : World) (pkg : Z) (paths : list string) : async Store unit :=
  fun s =>
    (fst (insert (map (FileRow pkg) (filter (fun p => bool_decide (is_Some (w_file w p))) paths)) s),
     if forallb (fun p => bool_decide (is_Some (w_file w p))) paths
     then Fulfilled tt
     else Rejected "TypeError: promise is not a function"%string).

(** Modelled from the spec: the collaborators of the loader over this store.
    Their modules are not among the sources; packages are recorded once per
    path and checksum, options are rows looked up by package, category and
    code, and every insertion goes through [insert]. *)
#[export] Instance backend (w : World) : Backend Store string := {|
  dbBeginTransaction := begin;
  dbCommit := commit;
  readMetadataFile := fun path =>
    let* d := readFrom w path in
    ret {| md_data := d; md_crc := Z.of_nat (String.length d) |};
  recordToplevelPackage := recordPackage;
  collectData := fun _ _ md =>
    match w_manifest w (md_data md) with
    | Some m => ret m
    | None => throw "SyntaxError: Unexpected token"%string
    end;
  recordVersion := fun pkg v => insert [VersionRow pkg v];
  parseZclFiles := storeFiles w;
  parseManufacturerData := fun pkg f => await readFrom w f in ret tt;
  processCustomZclDeviceType := fun _ => ret tt;
  parseZclSchema := fun pkg sch val =>
    await readFrom w sch in await readFrom w val in ret tt;
  insertOptionsKeyValues := fun pkg category entries s =>
    insert (optionRows pkg category (nextId s) entries) s;
  selectSpecificOptionValue := fun pkg category v s =>
    (s, Fulfilled (findOption pkg category (valueToString v) (view s)));
  insertDefaultOptionValue := fun pkg category ref =>
    insert [OptionDefaultRow pkg category ref];
  readFile := readFrom w;
  checksum := fun d => Z.of_nat (String.length d);
  qualifyZclFile := fun path d crc =>
    let* id := recordPackage path crc in
    ret {| q_filePath := path; q_packageId := id; q_data := Some d |};
  parseXml := fun d =>
    if String.eqb d EmptyString then throw "Error: Unexpected end"%string else ret d;
  processParsedZclData := fun arg =>
    await insert [FileRow (q_packageId (pa_qualified arg)) (q_filePath (pa_qualified arg))] in
    ret [];
  processZclPostLoading := ret tt
|}.

Definition empty : Store := {| committed := []; working := None |}.

End MemStore.

(** ** Byte formatting helper *)

Module HelperC.

Local Open Scope list_scope.

Section Bytes.

(** Width in bytes of the fixed-width types the package knows, by name. *)
Variable atomicSize : string -> option nat.








End Bytes.

End HelperC.

(** ** Sample inputs *)

Module Examples.

Local Open Scope list_scope.

Definition arg (nm ty : string) (removed : option string) : Xml.Arg :=
  {| arg_name := Some nm; arg_type := Some ty; arg_array := None;
     arg_presentIf := None; arg_countArg := None;
     arg_introducedIn := None; arg_removedIn := removed |}.

(** A command whose first argument was removed in a later revision. *)
Definition moveToLevel : Xml.Command :=
  {| cmd_code := Some "0x00"; cmd_manufacturerCode := None;
     cmd_name := Some "MoveToLevel"; cmd_source := Some "client";
     cmd_optional := Some "false"; cmd_introducedIn := None;
     cmd_removedIn := None;
     cmd_description := "  Moves to a level. ";
     cmd_arg := Some [arg "reserved" "INT8U" (Some "zcl-7.0");
                      arg "level" "INT8U" None;
                      arg "transitionTime" "INT16U" None] |}.

Definition sampleCommand : Xml.Command :=
  {| cmd_code := Some "0x01"; cmd_manufacturerCode := Some "0x1049";
     cmd_name := Some "SampleMfgSpecificOff"; cmd_source := Some "client";
     cmd_optional := Some "true"; cmd_introducedIn := None;
     cmd_removedIn := None; cmd_description := "Vendor command";
     cmd_arg := None |}.

Definition attribute (cd nm : string) (mfg removed : option string) : Xml.Attribute :=
  {| att_code := Some cd; att_manufacturerCode := mfg; att_text := Some nm;
     att_type := "INT8U"; att_side := Some "server"; att_define := None;
     att_min := None; att_max := None; att_length := None;
     att_writable := Some "true"; att_default := Some "0x00";
     att_optional := None; att_reportable := None; att_sceneRequired := None;
     att_introducedIn := None; att_removedIn := removed;
     att_entryType := None |}.

Definition levelControl : Xml.Cluster :=
  {| cl_attrs := Some {| ca_code := None; ca_manufacturerCode := Some "0x1002";
                         ca_singleton := None; ca_introducedIn := None;
                         ca_removedIn := None |};
     cl_code := "0x0008"; cl_name := "Level Control";
     cl_description := " Controls a level. "; cl_define := "LEVEL_CONTROL_CLUSTER";
     cl_domain := "General";
     cl_command := Some [moveToLevel; sampleCommand];
     cl_attribute := Some [attribute "0x0000" "current level" None None;
                           attribute "0x0001" "vendor level" (Some "0x1049") None;
                           attribute "0x0002" "old level" None (Some "zcl-6.0")];
     cl_globalAttribute :=
       Some [ {| ga_side := Some "either"; ga_code := Some "0xFFFD";
                 ga_value := Some "3" |};
              {| ga_side := Some "server"; ga_code := Some "0xFFFC";
                 ga_value := Some "1" |} ] |}.

Definition structItem (nm ty : string) : Xml.StructItem :=
  {| si_name := Some nm; si_type := Some ty; si_entryType := None;
     si_length := None; si_writable := None |}.

Definition protocol : Xml.Struct :=
  {| st_name := Some "Protocol";
     st_item := Some [structItem "manufacturerCode" "INT16U";
                      structItem "protocolId" "INT8U";
                      structItem "mode" "INT8U"] |}.

Definition status : Xml.Enum :=
  {| en_name := Some "Status"; en_type := Some "ENUM8";
     en_item := Some [ {| ei_name := Some "SUCCESS"; ei_value := Some "0x00" |};
                       {| ei_name := Some "FAILURE"; ei_value := Some "0x01" |} ] |}.

Definition locationType : Xml.Bitmap :=
  {| bm_name := Some "LocationType"; bm_type := Some "BITMAP8";
     bm_field := Some [ {| bf_name := Some "Absolute"; bf_mask := Some "0x01" |};
                        {| bf_name := Some "Method"; bf_mask := Some "0x7E" |} ] |}.

(** Number of set bits of a non-negative integer. *)
Definition popCount (n : num) : Z :=
  match n with
  | Int (Zpos p) =>
      (fix bits (q : positive) : Z :=
         match q with
         | xH => 1
         | xO q' => bits q'
         | xI q' => 1 + bits q'
         end) p
  | _ => 0
  end.

(** A manifest with one text option category and a default for it. *)
Definition manifestWith (dflt : OptionValue) : Manifest :=
  {| zclFiles := ["general.xml"]; manufacturersXml := None;
     zclSchema := None; zclValidation := None;
     options := Some {| opt_text := Some [("defaultResponsePolicy",
                                            AsCsv "Always, Never, 0xA")];
                        opt_bool := Some (AsArray ["commandDiscovery"]) |};
     defaults := Some {| def_text := Some [("defaultResponsePolicy", dflt)];
                         def_bool := Some [("commandDiscovery", true)] |};
     version := Some "ZCL Test Data";
     supportCustomZclDevice := false |}.

Definition world : MemStore.World :=
  {| MemStore.w_file := fun path =>
       if String.eqb path "zcl.json" then Some "good"
       else if String.eqb path "zcl-hex.json" then Some "hex"
       else if String.eqb path "zcl-bad.json" then Some "bad"
       else if String.eqb path "general.xml" then Some "<configurator/>"
       else if String.eqb path "empty.xml" then Some EmptyString
       else None;
     MemStore.w_manifest := fun data =>
       if String.eqb data "good" then Some (manifestWith (VStr "always"))
       else if String.eqb data "hex" then Some (manifestWith (VNum 10))
       else if String.eqb data "bad" then Some (manifestWith (VStr "sometimes"))
       else None |}.

(** The store once the package row and the options of the manifest are in. *)
Definition storeWithOptions : MemStore.Store :=
  fst (bind (MemStore.recordPackage "zcl.json" 4)
         (fun pkgId =>
            match options (manifestWith (VNum 10)) with
            | Some o => parseOptions (B := MemStore.backend world) pkgId o
            | None => ret tt
            end) MemStore.empty).


Import Phases.

(** A file that only declares domains. *)
Definition domainsXml : File :=
  ParsedFile (Some {| atomic := false; bitmap := false; cluster := false;
                      someGlobalAttribute := false; domain := true; enum := false;
                      struct := false; deviceType := false; global := false;
                      clusterExtension := false |}).

(** A file with clusters, one of them with global attributes, and cluster
    extensions. *)
Definition clustersXml : File :=
  ParsedFile (Some {| atomic := false; bitmap := false; cluster := true;
                      someGlobalAttribute := true; domain := false; enum := false;
                      struct := false; deviceType := false; global := false;
                      clusterExtension := true |}).

End Examples.

(** ** The properties of the load as the specification words them *)

Module Claims.

(** All or nothing: a load that ends in an error leaves the rows readers see
    as they were before it. *)
Definition rollsBackOnError (w : MemStore.World) : Prop :=
  forall metafile isJson s s' e,
    loadSilabsZcl (B := MemStore.backend w) metafile isJson s = (s', Rejected e) ->
    MemStore.committed s' = MemStore.committed s.

(** Phase ordering across the files of a load: no insertion of phase 3 begins
    before every insertion of phase 2 has finished, and none of phase 2
    before every insertion of phase 1 has finished. *)
Definition phasesInOrder (zclFiles : list Phases.File) (sched : list Phases.Choice) : Prop :=
  let tr := Phases.trace (Phases.run sched (Phases.parseZclFiles zclFiles)) in
  Phases.barrier 2 3 tr /\ Phases.barrier 1 2 tr.

(** Modelled from the spec: the manufacturer code of the owning cluster, read
    off the cluster element a row is prepared from. *)
Definition owningClusterCode (cluster : Xml.Cluster) : option num :=
  match cl_attrs cluster with
  | Some a =>
      match ca_manufacturerCode a with
      | Some s => Some (parseInt s 0)
      | None => None
      end
  | None => None
  end.

(** Modelled from the spec: the manufacturer code a prepared row carries, if
    it carries one. *)
Definition codeOf (v : slot num) : option num :=
  match v with
  | Val n => Some n
  | _ => None
  end.

(** Modelled from the spec: every command and every attribute that is kept
    carries its own manufacturer code when it sets one, and the one of the
    owning cluster when it sets none. *)
Definition inheritsManufacturerCode (cluster : Xml.Cluster) (isExt : bool) : Prop :=
  let ret := prepareCluster cluster isExt in
  (forall cmds k command,
     cl_command cluster = Some cmds -> cmds !! k = Some command ->
     exists pcmds pc,
       commands ret = Some pcmds /\ pcmds !! k = Some pc /\
       codeOf (pc_manufacturerCode pc)
         = match cmd_manufacturerCode command with
           | Some s => Some (parseInt s 0)
           | None => owningClusterCode cluster
           end) /\
  (forall atts attribute,
     cl_attribute cluster = Some atts -> attribute ∈ atts ->
     att_removedIn attribute = None ->
     exists patts pt,
       attributes ret = Some patts /\ pt ∈ patts /\
       pt_name pt = att_text attribute /\
       codeOf (pt_manufacturerCode pt)
         = match att_manufacturerCode attribute with
           | Some s => Some (parseInt s 0)
           | None => owningClusterCode cluster
           end).

End Claims.

(** ** Domains and device types *)

Module Elements.

Record Older : Type := {
  old_spec : option string;
  old_certifiable : option string
}.

Record Domain : Type := {
  dom_name : option string;
  dom_spec : option string;
  dom_certifiable : option string;
  dom_older : option (list Older)        (* 'older' in domain *)
}.

Record Include : Type := {
  inc_client : option string;
  inc_server : option string;
  inc_clientLocked : option string;
  inc_serverLocked : option string;
  inc_cluster : option string;
  inc_text : option string;                       (* include._ *)
  inc_requireAttribute : option (list string);    (* 'requireAttribute' in include *)
  inc_requireCommand : option (list string)
}.

Record Clusters : Type := {
  cls_include : option (list Include)    (* 'include' in cluster *)
}.

Record DeviceType : Type := {
  dt_deviceId : option string;           (* deviceId[0]['_'] *)
  dt_profileId : option string;          (* profileId[0]['_'] *)
  dt_domain : string;
  dt_name : string;
  dt_typeName : string;
  dt_clusters : option (list Clusters)   (* 'clusters' in deviceType *)
}.

End Elements.

Module Objects.

Record Spec : Type := {
  sp_specCode : option string;
  sp_specDescription : string;
  sp_specCertifiable : bool
}.

Record Domain : Type := {
  pd_name : option string;
  pd_specCode : option string;
  pd_specDescription : string;
  pd_specCertifiable : bool;
  pd_older : option (list Spec);
  pd_specRef : option Z                  (* set by [processDomains] *)
}.

Record Inclusion : Type := {
  pi_client : bool;
  pi_server : bool;
  pi_clientLocked : bool;
  pi_serverLocked : bool;
  pi_clusterName : option string;
  pi_requiredAttributes : list string;
  pi_requiredCommands : list string
}.

Record DeviceType : Type := {
  pdt_code : num;
  pdt_profileId : num;
  pdt_domain : string;
  pdt_name : string;
  pdt_description : string;
  pdt_clusters : option (list Inclusion)
}.

End Objects.

Import Elements Objects.

(** A value inside a template literal: [undefined] prints as such. *)
Definition interpolate (o : option string) : string :=
  match o with
  | Some s => s
  | None => "undefined"
  end.

Definition pushOlder (domain : Elements.Domain) (older : list Spec)
    (old : Elements.Older) (_ : nat) : list Spec :=
  push older
    {| sp_specCode := old_spec old;
       sp_specDescription :=
         "Older " ++ interpolate (dom_name domain) ++ " spec "
           ++ interpolate (old_spec old);
       sp_specCertifiable := isTrue (old_certifiable old) |}.

(** [prepareDomain]. *)
Definition prepareDomain (domain : Elements.Domain) : Objects.Domain :=
  {| pd_name := dom_name domain;
     pd_specCode := dom_spec domain;
     pd_specDescription :=
       "Latest " ++ interpolate (dom_name domain) ++ " spec: "
         ++ interpolate (dom_spec domain);
     pd_specCertifiable := isTrue (dom_certifiable domain);
     pd_older :=
       match dom_older domain with
       | Some olds => Some (forEach olds (pushOlder domain) [])
       | None => None
       end;
     pd_specRef := None |}.

(** The object pushed for one [include] element. *)
Definition preparedInclusion (include : Elements.Include) : Inclusion :=
  {| pi_client := isTrue (inc_client include);
     pi_server := isTrue (inc_server include);
     pi_clientLocked := isTrue (inc_clientLocked include);
     pi_serverLocked := isTrue (inc_serverLocked include);
     pi_clusterName :=
       match inc_cluster include with
       | Some c => Some c
       | None => inc_text include
       end;
     pi_requiredAttributes :=
       match inc_requireAttribute include with
       | Some l => l
       | None => []
       end;
     pi_requiredCommands :=
       match inc_requireCommand include with
       | Some l => l
       | None => []
       end |}.

Definition pushInclusion (clusters : list Inclusion) (include : Elements.Include)
    (_ : nat) : list Inclusion :=
  push clusters (preparedInclusion include).

(** The callback of [deviceType.clusters.forEach]. *)
Definition pushInclusions (clusters : list Inclusion) (cluster : Elements.Clusters)
    (_ : nat) : list Inclusion :=
  match cls_include cluster with
  | Some includes => forEach includes pushInclusion clusters
  | None => clusters
  end.

(** [prepareDeviceType]. *)
Definition prepareDeviceType (deviceType : Elements.DeviceType) : Objects.DeviceType :=
  {| pdt_code := parseIntOpt (dt_deviceId deviceType) 0;
     pdt_profileId := parseIntOpt (dt_profileId deviceType) 0;
     pdt_domain := dt_domain deviceType;
     pdt_name := dt_name deviceType;
     pdt_description := dt_typeName deviceType;
     pdt_clusters :=
       match dt_clusters deviceType with
       | Some cls => Some (forEach cls pushInclusions [])
       | None => None
       end |}.

(** ** The [process...] functions that do more than map a preparer *)

Section Process.
Context {db : Type}.

(** The insertions of [query-loader.js], a file that is not among the
    sources. *)
Variable insertGlobalAttributeDefault : Z -> list ClusterGlobalAttribute -> async db unit.
Variable insertSpecs : Z -> list Objects.Domain -> async db (list Z).
Variable insertDomains : Z -> list Objects.Domain -> async db unit.

Definition pushPrepared (objs : list ClusterGlobalAttribute) (x : Xml.Cluster)
    (_ : nat) : list ClusterGlobalAttribute :=
  match prepareClusterGlobalAttribute x with
  | Some p => push objs p
  | None => objs
  end.

(** [processClusterGlobalAttributes]; the [null] it returns when there is
    nothing to insert is a computation that does nothing. *)
Definition processClusterGlobalAttributes (packageId : Z) (data : list Xml.Cluster)
    : async db unit :=
  let objs := forEach data pushPrepared [] in
  if (0 <? length objs)%nat
  then insertGlobalAttributeDefault packageId objs
  else ret tt.

Definition setSpecRef (id : Z) (d : Objects.Domain) : Objects.Domain :=
  {| pd_name := pd_name d; pd_specCode := pd_specCode d;
     pd_specDescription := pd_specDescription d;
     pd_specCertifiable := pd_specCertifiable d;
     pd_older := pd_older d; pd_specRef := Some id |}.

(** The loop [for (let i = 0; i < specIds.length; i++)
    preparedDomains[i].specRef = specIds[i]], from index [i] on; assigning
    through an index past the end of [preparedDomains] throws. *)
Fixpoint assignSpecRefs (i : nat) (specIds : list Z) (preparedDomains : list Objects.Domain)
    : outcome (list Objects.Domain) :=
  match specIds with
  | [] => Fulfilled preparedDomains
  | id :: specIds' =>
      match preparedDomains !! i with
      | Some d => assignSpecRefs (S i) specIds' (<[i := setSpecRef id d]> preparedDomains)
      | None => Rejected "TypeError: Cannot set property 'specRef' of undefined"
      end
  end.

(** A domain with the reference it is given, if any. *)
Definition withSpecRef (ref : option Z) (d : Objects.Domain) : Objects.Domain :=
  match ref with
  | Some id => setSpecRef id d
  | None => d
  end.

(** [processDomains]. *)
Definition processDomains (packageId : Z) (data : list Elements.Domain) : async db unit :=
  let preparedDomains := map prepareDomain data in
  let* specIds := insertSpecs packageId preparedDomains in
  let* withRefs := lift (assignSpecRefs 0 specIds preparedDomains) in
  insertDomains packageId withRefs.

End Process.

(** ** More sample inputs *)

Module Samples.

Local Open Scope list_scope.

(** An extension that carries a manufacturer code of its own. *)
Definition levelControlExtension : Xml.Cluster :=
  {| cl_attrs := Some {| ca_code := Some "0x0008"; ca_manufacturerCode := Some "0x1002";
                         ca_singleton := None; ca_introducedIn := None;
                         ca_removedIn := None |};
     cl_code := EmptyString; cl_name := EmptyString; cl_description := EmptyString;
     cl_define := EmptyString; cl_domain := EmptyString;
     cl_command := Some [Examples.moveToLevel];
     cl_attribute := Some [Examples.attribute "0x4000" "extra level" None None];
     cl_globalAttribute := None |}.

(** A cluster with a command that was removed in a later revision. *)
Definition oldCluster : Xml.Cluster :=
  {| cl_attrs := None;
     cl_code := "0x0010"; cl_name := "Old"; cl_description := "Old cluster";
     cl_define := "OLD_CLUSTER"; cl_domain := "General";
     cl_command :=
       Some [ {| cmd_code := Some "0x00"; cmd_manufacturerCode := None;
                 cmd_name := Some "Gone"; cmd_source := Some "client";
                 cmd_optional := None; cmd_introducedIn := None;
                 cmd_removedIn := Some "zcl-7.0"; cmd_description := "Gone";
                 cmd_arg := None |} ];
     cl_attribute := None;
     cl_globalAttribute := None |}.

Definition include (nm : string) : Elements.Include :=
  {| inc_client := Some "true"; inc_server := Some "false";
     inc_clientLocked := None; inc_serverLocked := None;
     inc_cluster := Some nm; inc_text := None;
     inc_requireAttribute := None; inc_requireCommand := None |}.

Definition onOffLight : Elements.DeviceType :=
  {| dt_deviceId := Some "0x0100"; dt_profileId := Some "0x0104";
     dt_domain := "HA"; dt_name := "HA-onoff"; dt_typeName := "HA On/Off Light";
     dt_clusters :=
       Some [ {| cls_include := Some [include "Basic"; include "On/off"] |};
              {| cls_include := None |};
              {| cls_include := Some [include "Groups"] |} ] |}.

Definition domain (nm spec : string) : Elements.Domain :=
  {| dom_name := Some nm; dom_spec := Some spec; dom_certifiable := Some "true";
     dom_older := None |}.

(** A store that only counts what it is given. *)
Definition countSpecs (pkg : Z) (ds : list Objects.Domain) : async (list Z) (list Z) :=
  fun s => (s, Fulfilled (map (fun i => 100 + Z.of_nat i) (seq 0 (length ds)))).

(** A store that refuses the specs. *)
Definition refuseSpecs (pkg : Z) (ds : list Objects.Domain) : async (list Z) (list Z) :=
  fun s => (s, Rejected "SQLITE_CONSTRAINT").

Definition keepRefs (pkg : Z) (ds : list Objects.Domain) : async (list Z) unit :=
  fun s => (s ++ map (fun d => match pd_specRef d with Some r => r | None => -1 end) ds,
            Fulfilled tt).

Definition countRows (pkg : Z) (objs : list ClusterGlobalAttribute) : async (list Z) unit :=
  fun s => (s ++ [Z.of_nat (length objs)], Fulfilled tt).

End Samples.

(** ** Parsing the files of a manifest, step by step

    [parseSingleZclFile] and [parseZclFiles] as computations over the store:
    what they resolve with and when they reject.  The interleaving of the
    insertions they start is the subject of [Module Phases]. *)

Module Files.

Section Files.
Context {db Parsed : Type} `{B : Backend db Parsed}.

(** [qualifyZclFile] called for a file of the package [packageId] of a
    manifest: package id, path, content and checksum. *)
Variable qualifyZclFileOf : Z -> string -> string -> Z -> async db Qualified.

(** The part of [parseSingleZclFile] that its [try] guards: reading,
    qualifying and parsing. *)
Definition readAndParse (packageId : Z) (file : string)
    : async db (ParsedArgument Parsed) :=
  let* fileContent := readFile file in
  let* result := qualifyZclFileOf packageId file fileContent (checksum fileContent) in
  let* parsed := match q_data result with
                 | Some _ => let* r := parseXml fileContent in ret (Some r)
                 | None => ret None
                 end in
  ret {| pa_qualified := result; pa_result := parsed |}.

(** [parseSingleZclFile].  An error of the guarded part is logged and the
    function resolves with [undefined], here [None].  The promise of
    [processParsedZclData] is returned without being awaited, so its
    rejection is not caught. *)
Definition parseSingleZclFile (packageId : Z) (file : string)
    : async db (option (list (async db unit))) :=
  fun s =>
    match readAndParse packageId file s with
    | (s', Rejected _) => (s', Fulfilled None)
    | (s', Fulfilled argument) =>
        match processParsedZclData argument s' with
        | (s'', Fulfilled later) => (s'', Fulfilled (Some later))
        | (s'', Rejected e) => (s'', Rejected e)
        end
    end.

(** [results.flat(2)]: the later functions of all files in one list; the
    [undefined] of a file that was given up stays in it. *)
Fixpoint flat {T : Type} (results : list (option (list T))) : list (option T) :=
  match results with
  | [] => []
  | None :: results' => None :: flat results'
  | Some l :: results' => map Some l ++ flat results'
  end%list.

(** [laterPromises.map((promise) => promise())]: the functions called before
    the map ends, and whether it ended by calling [undefined]. *)
Fixpoint callEach {T : Type} (laterPromises : list (option T)) : list T * bool :=
  match laterPromises with
  | [] => ([], false)
  | None :: _ => ([], true)
  | Some promise :: rest =>
      let '(called, threw) := callEach rest in (promise :: called, threw)
  end.

(** [parseZclFiles].  When the map over the later functions throws, the
    functions called before it keep running but nobody waits for them. *)
Definition parseZclFiles (packageId : Z) (zclFiles : list string) : async db unit :=
  let* results := all (map (parseSingleZclFile packageId) zclFiles) in
  let '(called, threw) := callEach (flat results) in
  if threw
  then fun s => (fst (all called s), Rejected "TypeError: promise is not a function")
  else await all called in processZclPostLoading.

End Files.

End Files.

(** ** The custom device type *)

Module CustomDevice.

Section CustomDevice.
Context {db Row : Type}.

(** The device type described by [dbEnum.customDevice], and the two queries
    [processCustomZclDeviceType] uses; their modules are not among the
    sources. *)
Variable customDevice : Objects.DeviceType.
Variable selectDeviceTypeByCodeAndName : Z -> num -> string -> async db (option Row).
Variable insertDeviceTypes : Z -> list Objects.DeviceType -> async db unit.

(** [processCustomZclDeviceType]. *)
Definition processCustomZclDeviceType (packageId : Z) : async db unit :=
  let customDeviceTypes :=
    [ {| pdt_code := pdt_code customDevice;
         pdt_profileId := pdt_profileId customDevice;
         pdt_domain := pdt_domain customDevice;
         pdt_name := pdt_name customDevice;
         pdt_description := pdt_description customDevice;
         pdt_clusters := None |} ] in
  let* existingCustomDevice :=
    selectDeviceTypeByCodeAndName packageId (pdt_code customDevice)
                                  (pdt_name customDevice) in
  match existingCustomDevice with
  | None => insertDeviceTypes packageId customDeviceTypes
  | Some _ => ret tt
  end.

End CustomDevice.

End CustomDevice.

(** ** Reading the manifest *)

Section Collect.

(** [util.locateRelativeFilePath], [path.join] and [path.dirname]; the
    first is given [None] for a key the manifest does not have and answers
    [None] for a file it does not find. *)
Variable locateRelativeFilePath : list string -> option string -> option string.
Variable pathJoin : string -> string -> string.
Variable dirname : string -> string.

Inductive XmlRoot : Type :=
  | RootString (p : string)
  | RootArray (ps : list string).

(** The object a JSON manifest parses to. *)
Record JsonManifest : Type := {
  obj_xmlRoot : XmlRoot;
  obj_xmlFile : list string;
  obj_manufacturersXml : option string;
  obj_zclSchema : option string;
  obj_zclValidation : option string;
  obj_options : option Options;
  obj_defaults : option Defaults;
  obj_version : option string;
  obj_supportCustomZclDevice : bool
}.

(** The properties a properties manifest parses to. *)
Record PropertiesManifest : Type := {
  prop_xmlRoot : string;
  prop_xmlFile : string;
  prop_manufacturersXml : option string;
  prop_zclSchema : option string;
  prop_zclValidation : option string;
  prop_options : option Options;
  prop_defaults : option Defaults;
  prop_version : option string;
  prop_supportCustomZclDevice : bool
}.

Definition pushLocated (fileLocations : list string) (zclFiles : list string)
    (xmlF : string) (_ : nat) : list string :=
  match locateRelativeFilePath fileLocations (Some xmlF) with
  | Some f => push zclFiles f
  | None => zclFiles
  end.

(** [collectDataFromJsonFile], after [JSON.parse]. *)
Definition collectDataFromJsonFile (metadataFile : string) (obj : JsonManifest) : Manifest :=
  let fileLocations :=
    match obj_xmlRoot obj with
    | RootArray ps => map (fun p => pathJoin (dirname metadataFile) p) ps
    | RootString p => [pathJoin (dirname metadataFile) p]
    end in
  {| zclFiles := forEach (obj_xmlFile obj) (pushLocated fileLocations) [];
     manufacturersXml := locateRelativeFilePath fileLocations (obj_manufacturersXml obj);
     zclSchema := locateRelativeFilePath fileLocations (obj_zclSchema obj);
     zclValidation := locateRelativeFilePath fileLocations (obj_zclValidation obj);
     options := obj_options obj;
     defaults := obj_defaults obj;
     version := obj_version obj;
     supportCustomZclDevice := obj_supportCustomZclDevice obj |}.

(** [collectDataFromPropertiesFile], once the properties are parsed. *)
Definition collectDataFromPropertiesFile (metadataFile : string)
    (zclProps : PropertiesManifest) : Manifest :=
  let fileLocations :=
    map (fun p => pathJoin (dirname metadataFile) p)
        (splitComma (prop_xmlRoot zclProps) EmptyString) in
  {| zclFiles := forEach (splitComma (prop_xmlFile zclProps) EmptyString)
                         (pushLocated fileLocations) [];
     manufacturersXml := locateRelativeFilePath fileLocations (prop_manufacturersXml zclProps);
     zclSchema := locateRelativeFilePath fileLocations (prop_zclSchema zclProps);
     zclValidation := locateRelativeFilePath fileLocations (prop_zclValidation zclProps);
     options := prop_options zclProps;
     defaults := prop_defaults zclProps;
     version := prop_version zclProps;
     supportCustomZclDevice := prop_supportCustomZclDevice zclProps |}.

End Collect.

(** ** Sample collaborators *)

Module Collaborators.


(** A store that only knows whether the custom device type is in it. *)
Definition selectCustom (pkg : Z) (code : num) (name : string) : async bool (option unit) :=
  fun present => (present, Fulfilled (if present then Some tt else None)).

Definition insertCustom (pkg : Z) (dts : list Objects.DeviceType) : async bool unit :=
  fun _ => (true, Fulfilled tt).

Definition customDevice : Objects.DeviceType :=
  {| pdt_code := Int 65535; pdt_profileId := Int 65535; pdt_domain := "Custom";
     pdt_name := "Custom ZCL Device Type"; pdt_description := "Custom ZCL device type";
     pdt_clusters := None |}.

(** The in-memory store, except that it refuses to begin a transaction. *)
Definition refusing : Backend MemStore.Store string :=
  {| dbBeginTransaction := throw "SQLITE_BUSY";
       dbCommit := dbCommit (Backend := MemStore.backend Examples.world);
       readMetadataFile := readMetadataFile (Backend := MemStore.backend Examples.world);
       recordToplevelPackage := recordToplevelPackage (Backend := MemStore.backend Examples.world);
       collectData := collectData (Backend := MemStore.backend Examples.world);
       recordVersion := recordVersion (Backend := MemStore.backend Examples.world);
       parseZclFiles := parseZclFiles (Backend := MemStore.backend Examples.world);
       parseManufacturerData := parseManufacturerData (Backend := MemStore.backend Examples.world);
       processCustomZclDeviceType :=
         processCustomZclDeviceType (Backend := MemStore.backend Examples.world);
       parseZclSchema := parseZclSchema (Backend := MemStore.backend Examples.world);
       insertOptionsKeyValues :=
         insertOptionsKeyValues (Backend := MemStore.backend Examples.world);
       selectSpecificOptionValue :=
         selectSpecificOptionValue (Backend := MemStore.backend Examples.world);
       insertDefaultOptionValue :=
         insertDefaultOptionValue (Backend := MemStore.backend Examples.world);
       readFile := readFile (Backend := MemStore.backend Examples.world);
       checksum := checksum (Backend := MemStore.backend Examples.world);
       qualifyZclFile := qualifyZclFile (Backend := MemStore.backend Examples.world);
       parseXml := parseXml (Backend := MemStore.backend Examples.world);
       processParsedZclData :=
         processParsedZclData (Backend := MemStore.backend Examples.world);
       processZclPostLoading :=
         processZclPostLoading (Backend := MemStore.backend Examples.world) |}.

End Collaborators.

(** ** More of what holds of every state of the phase machine *)

Module PhaseFacts.

Import Phases.

Local Open Scope list_scope.
Local Open Scope nat_scope.

(** The insertions the tags of a file can lead to: those its tags call for
    and those its later functions start. *)
Definition allowed (c : Configurator) : list Insertion :=
  calledFor c ++ concat (map startedBy (promisesStep3 c)).

Definition fileOf (e : Event) : nat :=
  match e with
  | Begin f _ => f
  | Finish f _ _ => f
  end.

Section Invariant.
Variable zclFiles : list File.

(** Where the insertions come from: each one is led to by a tag of its
    file, the domains follow the specs, a failure of phase 1 or 2 keeps the
    later functions from being called, and these are called only up to the
    first file given up. *)
Record Inv2 (st : State) : Prop := {
  inv_tagged : forall g j, Begin g j ∈ events st ->
    exists c, zclFiles !! g = Some (ParsedFile (Some c)) /\ j ∈ allowed c;
  inv_pending_tagged : forall g fs j, files st !! g = Some fs -> j ∈ pending fs ->
    exists c, content fs = ParsedFile (Some c) /\ j ∈ allowed c;
  inv_specs_first : forall later g earlier,
    events st = later ++ Begin g insertDomains :: earlier ->
    Finish g insertSpecs true ∈ earlier;
  inv_failure : forall g j, phase j <> 3 -> Finish g j false ∈ events st ->
    joined st = false /\ exists fs, files st !! g = Some fs /\ failed fs = true;
  inv_readable : forall g j, Begin g j ∈ events st -> phase j = 3 ->
    forall k, k <= g -> zclFiles !! k <> Some Unreadable
}.

(** Nothing happens twice: the events are pairwise distinct, a file not
    yet dispatched has none, and an insertion is under way from its
    beginning to its end. *)
Record Inv3 (st : State) : Prop := {
  inv_nodup : NoDup (events st);
  inv_quiet : forall g fs, files st !! g = Some fs -> dispatched fs = false ->
    forall e, e ∈ events st -> fileOf e <> g;
  inv_pending_begun : forall g fs j, files st !! g = Some fs -> j ∈ pending fs ->
    Begin g j ∈ events st;
  inv_begun : forall g j ok, Finish g j ok ∈ events st -> Begin g j ∈ events st;
  inv_finished : forall g fs j ok, files st !! g = Some fs ->
    Finish g j ok ∈ events st -> j ∉ pending fs
}.

(** Nothing is lost: an insertion that has begun is under way or has
    ended. *)
Record Inv4 (st : State) : Prop := {
  inv_resolved : forall g j, Begin g j ∈ events st ->
    exists fs, files st !! g = Some fs /\
      (j ∈ pending fs \/ exists ok, Finish g j ok ∈ events st)
}.

End Invariant.

End PhaseFacts.

(** * Properties *)

(** ** [forEach] with a callback that pushes *)

Section ForEach.
Context {A B : Type}.

Local Open Scope list_scope.
Local Open Scope nat_scope.

Lemma forEachFrom_collect (g : nat -> A -> list B) (body : list B -> A -> nat -> list B) :
  (forall acc x i, body acc x i = acc ++ g i x) ->
  forall l i acc,
    forEachFrom i body l acc = acc ++ concat (imap (fun k => g (i + k)) l).
Proof.
  intros Hbody l. induction l as [|x l IH]; intros i acc; simpl.
  - by rewrite app_nil_r.
  - rewrite Hbody, IH, <- app_assoc. f_equal.
    replace (i + 0) with i by lia. f_equal. f_equal.
    apply imap_ext. intros k y _. simpl. f_equal. lia.
Qed.

Lemma forEach_collect (g : nat -> A -> list B) (body : list B -> A -> nat -> list B) l :
  (forall acc x i, body acc x i = acc ++ g i x) ->
  forEach l body [] = concat (imap g l).
Proof.
  intros Hbody. unfold forEach. by rewrite (forEachFrom_collect g body Hbody).
Qed.

Lemma concat_imap_singleton (f : nat -> A -> B) l :
  concat (imap (fun i x => [f i x]) l) = imap f l.
Proof.
  revert f. induction l as [|x l IH]; intros f; simpl; [done|].
  f_equal. apply IH.
Qed.

(** A callback that pushes one object per element yields one object per
    element, in order. *)
Lemma forEach_push (f : A -> nat -> B) (body : list B -> A -> nat -> list B) l :
  (forall acc x i, body acc x i = push acc (f x i)) ->
  forEach l body [] = imap (fun i x => f x i) l.
Proof.
  intros Hbody.
  rewrite (forEach_collect (fun i x => [f x i])) by (intros; apply Hbody).
  apply concat_imap_singleton.
Qed.

Lemma elem_of_concat_imap (g : nat -> A -> list B) l y :
  y ∈ concat (imap g l) <-> exists i x, l !! i = Some x /\ y ∈ g i x.
Proof.
  revert g. induction l as [|x l IH]; intros g; simpl.
  - split; [by intros ?%elem_of_nil | by intros (i & z & ? & _)].
  - rewrite elem_of_app, IH. split.
    + intros [H | (i & z & Hl & Hy)]; [by exists 0, x | by exists (S i), z].
    + intros ([|i] & z & Hl & Hy); simpl in *.
      * left. by simplify_eq.
      * right. by exists i, z.
Qed.

Lemma imap_indices (f : nat -> A -> B) (h : B -> nat) l j :
  (forall i x, h (f i x) = j + i) ->
  map h (imap f l) = seq j (length l).
Proof.
  revert f j. induction l as [|x l IH]; intros f j Hh; simpl; [done|].
  rewrite Hh. replace (j + 0) with j by lia. f_equal.
  apply IH. intros i y. simpl. rewrite Hh. lia.
Qed.

End ForEach.

(** ** Global attributes *)

Lemma pushGlobalAttribute_rows rows ga i :
  pushGlobalAttribute rows ga i =
    (rows ++
      if decide (ga_side ga = Some dbEnum.side_either) then
        [ {| gar_code := parseIntOpt (ga_code ga) 0;
             gar_side := Some dbEnum.side_client;
             gar_value := ga_value ga |};
          {| gar_code := parseIntOpt (ga_code ga) 0;
             gar_side := Some dbEnum.side_server;
             gar_value := ga_value ga |} ]
      else
        [ {| gar_code := parseIntOpt (ga_code ga) 0;
             gar_side := ga_side ga;
             gar_value := ga_value ga |} ])%list.
Proof.
  unfold pushGlobalAttribute, push. case_decide; [|done].
  by rewrite <- app_assoc.
Qed.

(** C3. Every [globalAttribute] entry of a cluster contributes its own group
    of prepared rows, the groups following each other in source order: an
    entry whose side is "either" contributes exactly two rows, the first with
    side client and the second with side server, both with the entry's code
    and value; an entry with any other side contributes exactly one row with
    that side. *)
Theorem prepareClusterGlobalAttribute_either_expands
    (cluster : Xml.Cluster) (gas : list Xml.GlobalAttribute) :
  cl_globalAttribute cluster = Some gas ->
  exists ret groups,
    prepareClusterGlobalAttribute cluster = Some ret /\
    cga_globalAttribute ret = concat groups /\
    Forall2 (fun ga rows =>
      (ga_side ga = Some "either" ->
         rows = [ {| gar_code := parseIntOpt (ga_code ga) 0;
                     gar_side := Some "client"; gar_value := ga_value ga |};
                  {| gar_code := parseIntOpt (ga_code ga) 0;
                     gar_side := Some "server"; gar_value := ga_value ga |} ]) /\
      (ga_side ga <> Some "either" ->
         rows = [ {| gar_code := parseIntOpt (ga_code ga) 0;
                     gar_side := ga_side ga; gar_value := ga_value ga |} ]))
      gas groups.
Proof.
  intros Hgas. unfold prepareClusterGlobalAttribute. rewrite Hgas.
  pose (g := fun (_ : nat) (ga : Xml.GlobalAttribute) =>
    if decide (ga_side ga = Some dbEnum.side_either) then
      [ {| gar_code := parseIntOpt (ga_code ga) 0;
           gar_side := Some dbEnum.side_client; gar_value := ga_value ga |};
        {| gar_code := parseIntOpt (ga_code ga) 0;
           gar_side := Some dbEnum.side_server; gar_value := ga_value ga |} ]
    else
      [ {| gar_code := parseIntOpt (ga_code ga) 0;
           gar_side := ga_side ga; gar_value := ga_value ga |} ]).
  eexists _, (imap g gas). split; [reflexivity|]. simpl. split.
  - apply (forEach_collect g). intros acc ga i. apply pushGlobalAttribute_rows.
  - clear Hgas.
    induction gas as [|ga gas IH]; simpl; constructor; [|exact IH].
    unfold g, dbEnum.side_either, dbEnum.side_client, dbEnum.side_server.
    case_decide; split; intros; congruence.
Qed.

(** The sample cluster carries one "either" entry and one "server" entry. *)
Lemma prepareClusterGlobalAttribute_either_expands_witness :
  cl_globalAttribute Examples.levelControl
    = Some [ {| ga_side := Some "either"; ga_code := Some "0xFFFD";
                ga_value := Some "3" |};
             {| ga_side := Some "server"; ga_code := Some "0xFFFC";
                ga_value := Some "1" |} ] /\
  exists ret groups,
    prepareClusterGlobalAttribute Examples.levelControl = Some ret /\
    cga_globalAttribute ret = concat groups /\
    length groups = 2%nat.
Proof.
  split; [reflexivity|].
  destruct (prepareClusterGlobalAttribute_either_expands
              Examples.levelControl _ eq_refl) as (ret & groups & Hret & Hrows & Hall).
  exists ret, groups. split; [exact Hret|]. split; [exact Hrows|].
  apply Forall2_length in Hall. simpl in Hall. congruence.
Defined.

(** ** Commands, arguments and attributes of a prepared cluster *)

Section Cluster.

Local Open Scope list_scope.
Local Open Scope nat_scope.

Lemma imap_ignoring_index {A B} (f : A -> B) (l : list A) :
  imap (fun _ x => f x) l = map f l.
Proof. apply (imap_const f). Qed.

(** The prepared argument list, argument by argument. *)
Lemma prepared_args (args : list Xml.Arg) :
  forEach args pushArg [] =
    concat (imap (fun i arg =>
                    match arg_removedIn arg with
                    | None => [preparedArg arg i]
                    | Some _ => []
                    end) args).
Proof.
  apply (forEach_collect (fun i arg => match arg_removedIn arg with
                                       | None => [preparedArg arg i]
                                       | Some _ => []
                                       end)).
  intros acc arg i. unfold pushArg, push.
  destruct (arg_removedIn arg); [by rewrite app_nil_r | done].
Qed.

Lemma elem_of_prepared_args (args : list Xml.Arg) (p : Prepared.Arg) :
  p ∈ forEach args pushArg [] <->
  exists arg, args !! pa_ordinal p = Some arg /\ arg_removedIn arg = None /\
              p = preparedArg arg (pa_ordinal p).
Proof.
  rewrite prepared_args, elem_of_concat_imap. split.
  - intros (i & arg & Hi & Hp). exists arg.
    destruct (arg_removedIn arg); [by apply elem_of_nil in Hp|].
    apply list_elem_of_singleton in Hp. by subst p.
  - intros (arg & Hi & Hrem & Hp). exists (pa_ordinal p), arg. rewrite Hrem.
    split; [done | by apply list_elem_of_singleton].
Qed.

(** The ordinals of the prepared arguments increase strictly and start no
    lower than the index of the first source argument. *)
Lemma prepared_args_sorted (args : list Xml.Arg) (j : nat) :
  let rows := concat (imap (fun i arg =>
                              match arg_removedIn arg with
                              | None => [preparedArg arg (j + i)]
                              | Some _ => []
                              end) args) in
  StronglySorted lt (map pa_ordinal rows) /\ Forall (fun o => j <= o) (map pa_ordinal rows).
Proof.
  revert j. induction args as [|arg args IH]; intros j; simpl.
  - split; constructor.
  - destruct (IH (S j)) as [Hsorted Hlow].
    assert (Heq : imap ((fun i a => match arg_removedIn a with
                                    | None => [preparedArg a (j + i)]
                                    | Some _ => []
                                    end) ∘ S) args
                  = imap (fun i a => match arg_removedIn a with
                                     | None => [preparedArg a (S j + i)]
                                     | Some _ => []
                                     end) args).
    { apply imap_ext. intros i a _. simpl.
      replace (j + S i) with (S (j + i)) by lia. done. }
    rewrite Heq. clear Heq.
    assert (Hlow' : Forall (fun o => j <= o)
              (map pa_ordinal (concat (imap (fun i a => match arg_removedIn a with
                                     | None => [preparedArg a (S j + i)]
                                     | Some _ => []
                                     end) args)))).
    { eapply Forall_impl; [exact Hlow|]. simpl. intros; lia. }
    destruct (arg_removedIn arg); simpl; [by split|].
    split.
    + constructor; [exact Hsorted|].
      eapply Forall_impl; [exact Hlow|]. simpl. intros; lia.
    + constructor; [lia | exact Hlow'].
Qed.

Lemma prepared_commands (cluster : Xml.Cluster) (isExt : bool) :
  commands (prepareCluster cluster isExt) =
    match cl_command cluster with
    | Some cmds =>
        Some (map (preparedCommand (manufacturerCode (prepareCluster cluster isExt))) cmds)
    | None => None
    end.
Proof.
  simpl. destruct (cl_command cluster) as [cmds|]; [|done]. f_equal.
  rewrite (forEach_push (fun c (_ : nat) =>
             preparedCommand (clusterManufacturerCode cluster isExt) c))
    by done.
  apply imap_ignoring_index.
Qed.

Lemma prepared_attributes (cluster : Xml.Cluster) (isExt : bool) :
  attributes (prepareCluster cluster isExt) =
    match cl_attribute cluster with
    | Some atts =>
        Some (concat (imap (fun (_ : nat) a =>
                match att_removedIn a with
                | None => [preparedAttribute
                             (manufacturerCode (prepareCluster cluster isExt)) a]
                | Some _ => []
                end) atts))
    | None => None
    end.
Proof.
  simpl. destruct (cl_attribute cluster) as [atts|]; [|done]. f_equal.
  apply (forEach_collect (fun (_ : nat) a =>
           match att_removedIn a with
           | None => [preparedAttribute (clusterManufacturerCode cluster isExt) a]
           | Some _ => []
           end)).
  intros acc a i. unfold pushAttribute, push. simpl.
  destruct (att_removedIn a); [by rewrite app_nil_r | done].
Qed.

End Cluster.

(** C4. In every command of a prepared cluster, the prepared [args] list
    holds exactly the source arguments without a [removedIn] marker: every
    prepared argument stems from a source argument that carries no
    [removedIn], and every source argument that carries none is in the list;
    so no prepared argument has the position of an argument with a
    [removedIn] marker as its ordinal. *)
Theorem prepareCluster_args_exclude_removed
    (cluster : Xml.Cluster) (isExt : bool) (cmds : list Xml.Command) :
  cl_command cluster = Some cmds ->
  exists pcmds,
    commands (prepareCluster cluster isExt) = Some pcmds /\
    Forall2 (fun command pc =>
      forall args, cmd_arg command = Some args ->
        exists pargs,
          pc_args pc = Some pargs /\
          (forall i arg, args !! i = Some arg -> arg_removedIn arg = None ->
             preparedArg arg i ∈ pargs) /\
          (forall p, p ∈ pargs ->
             exists arg, args !! pa_ordinal p = Some arg /\
                         arg_removedIn arg = None /\
                         p = preparedArg arg (pa_ordinal p)) /\
          (forall i arg, args !! i = Some arg -> arg_removedIn arg <> None ->
             forall p, p ∈ pargs -> pa_ordinal p <> i))
      cmds pcmds.
Proof.
  intros Hcmds. rewrite prepared_commands, Hcmds.
  eexists. split; [reflexivity|].
  apply Forall2_fmap_r, Forall_Forall2_diag, Forall_forall.
  intros command _ args Hargs. simpl. rewrite Hargs.
  eexists. split; [reflexivity|]. repeat split.
  - intros i arg Hi Hrem. apply elem_of_prepared_args. by exists arg.
  - intros p Hp. by apply elem_of_prepared_args.
  - intros i arg Hi Hrem p Hin Hord.
    apply elem_of_prepared_args in Hin as (arg' & Hi' & Hrem' & _).
    congruence.
Qed.

(** Of the three arguments of the sample command, the first is removed. *)
Lemma prepareCluster_args_exclude_removed_witness :
  cl_command Examples.levelControl
    = Some [Examples.moveToLevel; Examples.sampleCommand] /\
  exists pcmds,
    commands (prepareCluster Examples.levelControl false) = Some pcmds /\
    length pcmds = 2%nat.
Proof.
  split; [reflexivity|].
  destruct (prepareCluster_args_exclude_removed Examples.levelControl false _ eq_refl)
    as (pcmds & Hp & Hall).
  exists pcmds. split; [exact Hp|].
  apply Forall2_length in Hall. simpl in Hall. congruence.
Defined.

Lemma concat_imap_filter {A B} (keep : A -> bool) (f : A -> B) (l : list A) :
  concat (imap (fun (_ : nat) a => if keep a then [f a] else []) l)
    = map f (List.filter keep l).
Proof.
  rewrite imap_ignoring_index.
  induction l as [|a l IH]; simpl; [done|].
  destruct (keep a); simpl; by rewrite IH.
Qed.

(** C5, as the code has it.  [prepareCluster] prepares one row for every
    command and one for every attribute without a [removedIn] marker, in
    source order.  A row whose element sets a manufacturer code carries that
    value, parsed as an integer; a row whose element sets none carries
    [ret.manufacturerCode] of the object being prepared.  For a cluster that
    is not an extension this is the [manufacturerCode] attribute of the
    cluster element, parsed ([null] without the attribute, left unassigned
    for an element without attributes); for an extension it is never
    assigned, whatever the element carries. *)
Theorem prepareCluster_manufacturerCode_inherited
    (cluster : Xml.Cluster) (isExt : bool) :
  let ret := prepareCluster cluster isExt in
  (forall cmds, cl_command cluster = Some cmds ->
     exists pcmds,
       commands ret = Some pcmds /\
       Forall2 (fun command pc =>
                  pc = preparedCommand (manufacturerCode ret) command /\
                  pc_manufacturerCode pc
                    = match cmd_manufacturerCode command with
                      | Some s => Val (parseInt s 0)
                      | None => manufacturerCode ret
                      end)
               cmds pcmds) /\
  (forall atts, cl_attribute cluster = Some atts ->
     exists patts,
       attributes ret = Some patts /\
       Forall2 (fun attribute pt =>
                  pt = preparedAttribute (manufacturerCode ret) attribute /\
                  pt_manufacturerCode pt
                    = match att_manufacturerCode attribute with
                      | Some s => Val (parseInt s 0)
                      | None => manufacturerCode ret
                      end)
               (List.filter (fun a => match att_removedIn a with
                                      | None => true
                                      | Some _ => false
                                      end) atts)
               patts) /\
  (isExt = false ->
     manufacturerCode ret =
       match cl_attrs cluster with
       | Some a =>
           match ca_manufacturerCode a with
           | Some s => Val (parseInt s 0)
           | None => Null
           end
       | None => Undefined
       end) /\
  (isExt = true -> manufacturerCode ret = Undefined) /\
  (isExt = false -> Claims.inheritsManufacturerCode cluster isExt).
Proof.
  intros ret.
  assert (Hcmds : forall cmds, cl_command cluster = Some cmds ->
            commands ret
              = Some (map (preparedCommand (manufacturerCode ret)) cmds)).
  { intros cmds Hc. subst ret. by rewrite prepared_commands, Hc. }
  assert (Hatts : forall atts, cl_attribute cluster = Some atts ->
            attributes ret
              = Some (map (preparedAttribute (manufacturerCode ret))
                        (List.filter (fun a => match att_removedIn a with
                                               | None => true
                                               | Some _ => false
                                               end) atts))).
  { intros atts Ha. subst ret. rewrite prepared_attributes, Ha. f_equal.
    rewrite <- concat_imap_filter. f_equal. apply imap_ext. intros i a _.
    by destruct (att_removedIn a). }
  assert (Hown : isExt = false ->
            Claims.codeOf (manufacturerCode ret) = Claims.owningClusterCode cluster).
  { intros ->. subst ret. simpl. unfold clusterManufacturerCode, Claims.owningClusterCode.
    destruct (cl_attrs cluster) as [a|]; [|done].
    by destruct (ca_manufacturerCode a). }
  split_and!.
  - intros cmds Hc. eexists. split; [by apply Hcmds|].
    apply Forall2_fmap_r, Forall_Forall2_diag, Forall_forall.
    intros command _. split; [done|]. simpl.
    by destruct (cmd_manufacturerCode command).
  - intros atts Ha. eexists. split; [by apply Hatts|].
    apply Forall2_fmap_r, Forall_Forall2_diag, Forall_forall.
    intros attribute _. split; [done|]. simpl.
    by destruct (att_manufacturerCode attribute).
  - intros ->. subst ret. simpl. unfold clusterManufacturerCode.
    by destruct (cl_attrs cluster).
  - by intros ->.
  - intros Hext. split.
    + intros cmds k command Hc Hk.
      exists (map (preparedCommand (manufacturerCode ret)) cmds),
        (preparedCommand (manufacturerCode ret) command).
      split; [by rewrite <- Hcmds|]. split.
      * change (map ?f cmds) with (f <$> cmds). by rewrite list_lookup_fmap, Hk.
      * simpl. destruct (cmd_manufacturerCode command); [done | by apply Hown].
    + intros atts attribute Ha Hin Hkept.
      eexists _, (preparedAttribute (manufacturerCode ret) attribute).
      split; [by rewrite <- Hatts|]. split; [|split; [done|]].
      * change (map ?f ?l) with (f <$> l). apply list_elem_of_fmap.
        exists attribute. split; [done|].
        apply list_elem_of_In, filter_In. split; [by apply list_elem_of_In|].
        by rewrite Hkept.
      * simpl. destruct (att_manufacturerCode attribute); [done | by apply Hown].
Qed.

(** C5, as stated, fails for an extension: the sample extension carries the
    manufacturer code 0x1002, and its command, which sets none, is prepared
    without a manufacturer code. *)
Lemma extension_rows_do_not_inherit :
  ~ Claims.inheritsManufacturerCode Samples.levelControlExtension true.
Proof.
  intros [Hcmds _].
  destruct (Hcmds _ 0%nat _ eq_refl eq_refl) as (pcmds & pc & Hp & Hk & Hcode).
  vm_compute in Hp. injection Hp as <-.
  vm_compute in Hk. injection Hk as <-.
  vm_compute in Hcode. discriminate Hcode.
Qed.

(** In the sample cluster (manufacturer code 0x1002) the first command and
    the first attribute inherit, the second ones keep their own 0x1049, and
    the attribute that was removed gets no row. *)
Lemma prepareCluster_manufacturerCode_inherited_witness :
  exists pcmds patts,
    commands (prepareCluster Examples.levelControl false) = Some pcmds /\
    attributes (prepareCluster Examples.levelControl false) = Some patts /\
    map pc_manufacturerCode pcmds = [Val (Int 4098); Val (Int 4169)] /\
    map pt_manufacturerCode patts = [Val (Int 4098); Val (Int 4169)] /\
    length pcmds = 2%nat /\ length patts = 2%nat /\
    manufacturerCode (prepareCluster Examples.levelControl false) = Val (Int 4098).
Proof.
  destruct (prepareCluster_manufacturerCode_inherited Examples.levelControl false)
    as (Hcmds & Hatts & Hown & _ & _).
  destruct (Hcmds _ eq_refl) as (pcmds & Hp & Hall).
  destruct (Hatts _ eq_refl) as (patts & Hq & Hall').
  exists pcmds, patts. split; [exact Hp|]. split; [exact Hq|].
  assert (Hl : length pcmds = 2%nat).
  { apply Forall2_length in Hall. simpl in Hall. congruence. }
  assert (Hl' : length patts = 2%nat).
  { apply Forall2_length in Hall'. simpl in Hall'. congruence. }
  vm_compute in Hp. injection Hp as <-.
  vm_compute in Hq. injection Hq as <-.
  split; [reflexivity|]. split; [reflexivity|].
  split; [exact Hl|]. split; [exact Hl'|]. exact (Hown eq_refl).
Defined.

(** ** Ordinals *)

(** C9. The items of a prepared struct are the source items in source order,
    the item at position [i] carrying ordinal [i]: for a struct with N items
    the ordinal sequence is 0..N-1.  The same holds of the items of a
    prepared enum and of the fields of a prepared bitmap. *)
Theorem prepared_ordinals_by_position :
  (forall struct items, st_item struct = Some items ->
     exists pitems,
       ps_items (prepareStruct struct) = Some pitems /\
       map psi_ordinal pitems = seq 0 (length items) /\
       forall i item, items !! i = Some item ->
         pitems !! i = Some (preparedStructItem item i)) /\
  (forall en items, en_item en = Some items ->
     exists pitems,
       pe_items (prepareEnum en) = Some pitems /\
       map pei_ordinal pitems = seq 0 (length items) /\
       forall i item, items !! i = Some item ->
         pitems !! i = Some (preparedEnumItem item i)) /\
  (forall bitCount bm fields, bm_field bm = Some fields ->
     exists pfields,
       pb_fields (prepareBitmap bitCount bm) = Some pfields /\
       map pbf_ordinal pfields = seq 0 (length fields) /\
       forall i field, fields !! i = Some field ->
         pfields !! i = Some (preparedBitmapField bitCount field i)).
Proof.
  split; [|split].
  - intros struct items Hitems. unfold prepareStruct. rewrite Hitems. simpl.
    rewrite (forEach_push preparedStructItem) by done.
    eexists. split; [reflexivity|]. split.
    + by apply imap_indices.
    + intros i item Hi. by rewrite list_lookup_imap, Hi.
  - intros en items Hitems. unfold prepareEnum. rewrite Hitems. simpl.
    rewrite (forEach_push preparedEnumItem) by done.
    eexists. split; [reflexivity|]. split.
    + by apply imap_indices.
    + intros i item Hi. by rewrite list_lookup_imap, Hi.
  - intros bitCount bm fields Hfields. unfold prepareBitmap. rewrite Hfields. simpl.
    rewrite (forEach_push (preparedBitmapField bitCount)) by done.
    eexists. split; [reflexivity|]. split.
    + by apply imap_indices.
    + intros i field Hi. by rewrite list_lookup_imap, Hi.
Qed.

(** The sample struct has three items, the sample enum and bitmap two. *)
Lemma prepared_ordinals_by_position_witness :
  (exists pitems, ps_items (prepareStruct Examples.protocol) = Some pitems /\
                  map psi_ordinal pitems = [0; 1; 2]%nat) /\
  (exists pitems, pe_items (prepareEnum Examples.status) = Some pitems /\
                  map pei_ordinal pitems = [0; 1]%nat) /\
  (exists pfields,
     pb_fields (prepareBitmap Examples.popCount Examples.locationType) = Some pfields /\
     map pbf_ordinal pfields = [0; 1]%nat).
Proof.
  destruct prepared_ordinals_by_position as (Hs & He & Hb).
  split; [|split].
  - destruct (Hs Examples.protocol _ eq_refl) as (pitems & H1 & H2 & _).
    exists pitems. split; [exact H1 | exact H2].
  - destruct (He Examples.status _ eq_refl) as (pitems & H1 & H2 & _).
    exists pitems. split; [exact H1 | exact H2].
  - destruct (Hb Examples.popCount Examples.locationType _ eq_refl)
      as (pfields & H1 & H2 & _).
    exists pfields. split; [exact H1 | exact H2].
Defined.

(** C10. The ordinal of every prepared argument of a command is the position
    its source argument has in the source list, so the ordinals increase in
    source order but skip the positions of arguments marked [removedIn]:
    whenever a removed argument precedes a surviving one, the ordinal
    sequence of the k prepared arguments is not 0..k-1. *)
Theorem prepareCluster_arg_ordinals_keep_source_index
    (cluster : Xml.Cluster) (isExt : bool) (cmds : list Xml.Command) :
  cl_command cluster = Some cmds ->
  exists pcmds,
    commands (prepareCluster cluster isExt) = Some pcmds /\
    Forall2 (fun command pc =>
      forall args, cmd_arg command = Some args ->
        exists pargs,
          pc_args pc = Some pargs /\
          (forall p, p ∈ pargs ->
             exists arg, args !! pa_ordinal p = Some arg /\
                         arg_removedIn arg = None /\
                         pa_name p = arg_name arg /\ pa_type p = arg_type arg) /\
          StronglySorted lt (map pa_ordinal pargs) /\
          (forall i j removed kept,
             (i < j)%nat ->
             args !! i = Some removed -> arg_removedIn removed <> None ->
             args !! j = Some kept -> arg_removedIn kept = None ->
             map pa_ordinal pargs <> seq 0 (length pargs)))
      cmds pcmds.
Proof.
  intros Hcmds. rewrite prepared_commands, Hcmds.
  eexists. split; [reflexivity|].
  apply Forall2_fmap_r, Forall_Forall2_diag, Forall_forall.
  intros command _ args Hargs. simpl. rewrite Hargs.
  eexists. split; [reflexivity|]. split; [|split].
  - intros p Hp. apply elem_of_prepared_args in Hp as (arg & Hi & Hrem & Hp).
    exists arg. rewrite Hp. by simpl.
  - rewrite prepared_args. apply (prepared_args_sorted args 0).
  - intros i j removed kept Hij Hi Hrem Hj Hkept Heq.
    assert (Hjin : j ∈ map pa_ordinal (forEach args pushArg [])).
    { apply (list_elem_of_fmap pa_ordinal). exists (preparedArg kept j).
      split; [done|]. apply elem_of_prepared_args. by exists kept. }
    rewrite Heq in Hjin. apply elem_of_seq in Hjin.
    assert (Hiin : i ∈ map pa_ordinal (forEach args pushArg [])).
    { rewrite Heq. apply elem_of_seq. lia. }
    apply (list_elem_of_fmap pa_ordinal) in Hiin as (p & -> & Hp).
    apply elem_of_prepared_args in Hp as (arg & Hi' & Hrem' & _).
    congruence.
Qed.

(** The sample command loses its first argument: the two that stay carry the
    ordinals 1 and 2. *)
Lemma prepareCluster_arg_ordinals_keep_source_index_witness :
  cl_command Examples.levelControl
    = Some [Examples.moveToLevel; Examples.sampleCommand] /\
  exists pcmds pc pargs,
    commands (prepareCluster Examples.levelControl false) = Some pcmds /\
    pcmds !! 0%nat = Some pc /\ pc_args pc = Some pargs /\
    map pa_ordinal pargs = [1; 2]%nat /\
    map pa_ordinal pargs <> seq 0 (length pargs).
Proof.
  split; [reflexivity|].
  destruct (prepareCluster_arg_ordinals_keep_source_index
              Examples.levelControl false _ eq_refl) as (pcmds & Hp & Hall).
  vm_compute in Hp. injection Hp as <-.
  apply Forall2_cons_1 in Hall as [Hfirst _].
  destruct (Hfirst _ eq_refl) as (pargs & Hargs & _ & _ & Hgap).
  vm_compute in Hargs. injection Hargs as <-.
  eexists _, _, _. split; [reflexivity|]. split; [reflexivity|].
  split; [reflexivity|]. split; [reflexivity|].
  apply (Hgap 0%nat 1%nat (Examples.arg "reserved" "INT8U" (Some "zcl-7.0"))
              (Examples.arg "level" "INT8U" None)); [lia|done..].
Defined.

(** ** Asynchronous combinators *)

Section AsyncFacts.
Context {db : Type}.

Lemma all_cons {A} (p : async db A) ps s :
  Async.all (p :: ps) s =
    (fst (Async.all ps (fst (p s))),
     match snd (p s), snd (Async.all ps (fst (p s))) with
     | Fulfilled a, Fulfilled l => Fulfilled (a :: l)
     | Rejected e, _ => Rejected e
     | Fulfilled _, Rejected e => Rejected e
     end).
Proof.
  simpl. destruct (p s) as [s1 r]. simpl. by destruct (Async.all ps s1).
Qed.

Lemma all_app_state {A} (l1 l2 : list (async db A)) s :
  fst (Async.all (l1 ++ l2) s) = fst (Async.all l2 (fst (Async.all l1 s))).
Proof.
  revert s. induction l1 as [|p l1 IH]; intros s; [done|].
  rewrite <- app_comm_cons, !all_cons. simpl. apply IH.
Qed.

(** [Promise.all] rejects as soon as one of its promises does, whatever the
    others do. *)
Lemma all_rejected {A} (l1 : list (async db A)) p l2 s :
  rejected (snd (p (fst (Async.all l1 s)))) ->
  rejected (snd (Async.all (l1 ++ p :: l2) s)).
Proof.
  revert s. induction l1 as [|q l1 IH]; intros s Hp.
  - simpl in Hp. rewrite app_nil_l, all_cons. simpl.
    by destruct (snd (p s)).
  - rewrite <- app_comm_cons, all_cons. simpl.
    rewrite all_cons in Hp. simpl in Hp. specialize (IH _ Hp).
    destruct (snd (q (s))); [|done].
    by destruct (snd (Async.all (l1 ++ p :: l2) (fst (q s)))).
Qed.

Lemma ignore_state {A} (m : async db A) s : fst (ignore m s) = fst (m s).
Proof. unfold ignore, bind, ret. by destruct (m s) as [s' [a|e]]. Qed.

Lemma ignore_rejected {A} (m : async db A) s :
  rejected (snd (ignore m s)) <-> rejected (snd (m s)).
Proof. unfold ignore, bind, ret. by destruct (m s) as [s' [a|e]]. Qed.

End AsyncFacts.

(** ** Text defaults *)

Section TextDefaults.
Context {db Parsed : Type} `{B : Backend db Parsed}.



End TextDefaults.


(** ** Transactions *)

Section Transaction.
Context {db Parsed : Type} `{B : Backend db Parsed}.

(** C1, as the code has it. Once the transaction has begun, [loadSilabsZcl]
    ends by calling [dbCommit] on whatever state its body has left, whether
    the body fulfilled or threw: nothing is rolled back, the writes made
    before an error are committed with the rest, and the outcome of the load
    is the outcome of the body, a thrown error being thrown again. *)
Theorem loadSilabsZcl_commits_in_every_case
    (metafile : string) (isJson : bool) (s s0 : db) :
  dbBeginTransaction s = (s0, Fulfilled tt) ->
  loadSilabsZcl metafile isJson s =
    (fst (dbCommit (fst (loadSilabsZclBody metafile isJson s0))),
     snd (loadSilabsZclBody metafile isJson s0)).
Proof.
  intros Hbegin. unfold loadSilabsZcl, bind, tryFinallyDetached, tryCatch, throw.
  rewrite Hbegin.
  destruct (loadSilabsZclBody metafile isJson s0) as [s1 [ctx|e]]; simpl;
    by destruct (dbCommit s1).
Qed.

(** C2. [loadIndividualSilabsFile] always fulfils, whatever the file, the
    validator and the collaborators do: with [{ succeeded: true, packageId }]
    when its body ran to the end, and with [{ succeeded: false, err }], [err]
    being the value thrown, when anything in the body threw or rejected. *)
Theorem loadIndividualSilabsFile_never_throws
    (filePath : string) (boundValidator : option (string -> outcome Validation))
    (s : db) :
  exists s' r,
    loadIndividualSilabsFile filePath boundValidator s = (s', Fulfilled r) /\
    ((exists pkgId,
        r = LoadSucceeded pkgId /\ succeeded r = true /\
        loadIndividualSilabsFileBody filePath boundValidator s
          = (s', Fulfilled (LoadSucceeded pkgId))) \/
     (exists err,
        r = LoadFailed err /\ succeeded r = false /\
        loadIndividualSilabsFileBody filePath boundValidator s
          = (s', Rejected err))).
Proof.
  unfold loadIndividualSilabsFile, tryCatch, ret.
  destruct (loadIndividualSilabsFileBody filePath boundValidator s)
    as [s' [r|e]] eqn:Hbody.
  - exists s', r. split; [done|]. left.
    assert (Hr : exists pkgId, r = LoadSucceeded pkgId).
    { revert Hbody. unfold loadIndividualSilabsFileBody, bind, ret, throw, lift.
      repeat match goal with
             | |- context [match ?m ?st with _ => _ end] =>
                 destruct (m st) as [? [?|?]]; try discriminate
             | |- context [match ?o with Some _ => _ | None => _ end] =>
                 destruct o; try discriminate
             | |- context [match ?o with Fulfilled _ => _ | Rejected _ => _ end] =>
                 destruct o; try discriminate
             | |- context [if ?b then _ else _] => destruct b; try discriminate
             end;
        intros [= _ <-]; eauto. }
    destruct Hr as [pkgId ->]. by exists pkgId.
  - exists s', (LoadFailed e). split; [done|]. right. by exists e.
Qed.

End Transaction.

(** C1, as stated, fails: a manifest whose text default matches no option
    makes the load throw after the package, its version, its files and its
    options have been written, and these rows are committed. *)
Lemma loadSilabsZcl_commits_partial_package :
  ~ Claims.rollsBackOnError Examples.world.
Proof.
  intros Hclaim.
  specialize (Hclaim "zcl-bad.json" true MemStore.empty _ _ eq_refl).
  discriminate Hclaim.
Qed.

(** The failing load of the sample world: the rows of the package are
    committed and the error reaches the caller. *)
Lemma loadSilabsZcl_commits_in_every_case_witness :
  dbBeginTransaction (Backend := MemStore.backend Examples.world) MemStore.empty
    = ({| MemStore.committed := []; MemStore.working := Some [] |}, Fulfilled tt) /\
  snd (loadSilabsZcl (B := MemStore.backend Examples.world)
         "zcl-bad.json" true MemStore.empty)
    = Rejected "Default value for: defaultResponsePolicy/sometimes does not match an option." /\
  In (MemStore.PackageRow 1 "zcl-bad.json" 3)
     (MemStore.committed
        (fst (loadSilabsZcl (B := MemStore.backend Examples.world)
                "zcl-bad.json" true MemStore.empty))).
Proof.
  split; [reflexivity|].
  rewrite (loadSilabsZcl_commits_in_every_case (B := MemStore.backend Examples.world)
             "zcl-bad.json" true MemStore.empty _ eq_refl).
  split; [reflexivity|]. vm_compute. left. reflexivity.
Defined.

(** ** Phase ordering *)

Section PhaseOrder.
Import Phases.

Local Open Scope list_scope.
Local Open Scope nat_scope.

Variable zclFiles : list File.

Lemma split_events (new evs later earlier : list Event) e :
  new ++ evs = later ++ e :: earlier ->
  (exists l2, later = new ++ l2 /\ evs = l2 ++ e :: earlier) \/
  (exists n2, new = later ++ e :: n2 /\ earlier = n2 ++ evs).
Proof.
  revert later. induction new as [|a new IH]; intros later Heq; simpl in *.
  - left. by exists later.
  - destruct later as [|b later]; simpl in *.
    + injection Heq as -> <-. right. by exists new.
    + injection Heq as -> Heq. destruct (IH _ Heq) as [(l2 & -> & ->)|(n2 & -> & ->)].
      * left. by exists l2.
      * right. by exists n2.
Qed.

Lemma ordered_without_phase3 evs :
  (forall f i, Begin f i ∈ evs -> phase i <> 3) -> ordered zclFiles evs.
Proof.
  intros Hno later f i earlier -> Hph. exfalso. apply (Hno f i); [|done].
  apply elem_of_app. right. apply list_elem_of_here.
Qed.

Lemma ordered_finish evs f i ok :
  ordered zclFiles evs -> ordered zclFiles (Finish f i ok :: evs).
Proof.
  intros Hord later g j earlier Heq Hph.
  destruct later as [|e later]; [done|]. simpl in Heq. injection Heq as <- ->.
  destruct (Hord later g j earlier eq_refl Hph) as (H1 & H2 & H3).
  split; [|done].
  intros g' j' Hin. apply elem_of_cons in Hin as [Hin|Hin]; [done|].
  by apply (H1 g').
Qed.

Lemma ordered_join new evs :
  (forall f i, Begin f i ∈ evs -> phase i <> 3) ->
  (forall g j, phase j <> 3 -> Begin g j ∈ evs -> Finish g j true ∈ evs) ->
  (forall g c j, zclFiles !! g = Some (ParsedFile (Some c)) -> j ∈ calledFor c ->
     Finish g j true ∈ evs) ->
  (forall e, e ∈ new -> exists f i, e = Begin f i /\ phase i = 3) ->
  ordered zclFiles (new ++ evs).
Proof.
  intros Hno Hdone Hall Hnew later f i earlier Heq Hph.
  apply split_events in Heq as [(l2 & -> & ->)|(n2 & -> & ->)].
  - exfalso. apply (Hno f i); [|done].
    apply elem_of_app. right. apply list_elem_of_here.
  - split; [|split].
    + intros g j Hin.
      destruct (Hnew (Begin g j)) as (f' & i' & [= -> ->] & Hph'); [|done].
      apply elem_of_app. by left.
    + intros g j Hj Hin. apply elem_of_app. right.
      apply elem_of_app in Hin as [Hin|Hin]; [|by apply Hdone].
      destruct (Hnew (Begin g j)) as (f' & i' & [= -> ->] & Hph'); [|done].
      apply elem_of_app. right. apply list_elem_of_further. done.
    + intros g c j Hg Hj. apply elem_of_app. right. by apply (Hall g c).
Qed.

Lemma elem_of_begins f l e :
  e ∈ begins f l <-> exists j, e = Begin f j /\ j ∈ l.
Proof.
  unfold begins. rewrite list_elem_of_In, <- in_rev, <- list_elem_of_In.
  change (map (Begin f) l) with (Begin f <$> l). apply list_elem_of_fmap.
Qed.

Lemma elem_of_tag b i j : j ∈ tag b i <-> b = true /\ j = i.
Proof.
  unfold tag. destruct b.
  - rewrite list_elem_of_singleton. split; [by intros -> | by intros [_ ->]].
  - split; [by intros ?%elem_of_nil | by intros [? _]].
Qed.

Lemma startedAtOnce_phase c j : j ∈ startedAtOnce c -> phase j <> 3.
Proof.
  unfold startedAtOnce. rewrite !elem_of_app, !elem_of_tag.
  intros H. decompose [or and] H; subst; simpl; lia.
Qed.

Lemma elem_of_without i j l : j ∈ without i l <-> j ∈ l /\ j <> i.
Proof.
  unfold without. rewrite !list_elem_of_In. split.
  - intros H. by apply in_remove in H.
  - intros [? ?]. by apply in_in_remove.
Qed.

Lemma fulfilled_true fs :
  fulfilled fs = true <->
  dispatched fs = true /\ failed fs = false /\ pending fs = [].
Proof.
  unfold fulfilled.
  destruct (dispatched fs), (failed fs), (pending fs); simpl;
    split; try done; intros (? & ? & ?); done.
Qed.

Lemma inv_init : Inv zclFiles (parseZclFiles zclFiles).
Proof.
  split; simpl.
  - rewrite map_map. simpl. apply map_id.
  - intros g fs Hg _.
    change (map ?f zclFiles) with (f <$> zclFiles) in Hg.
    rewrite list_lookup_fmap in Hg.
    destruct (zclFiles !! g); simpl in Hg; [|done]. by injection Hg as <-.
  - by intros _ f i ?%elem_of_nil.
  - done.
  - by intros g j ?%elem_of_nil.
  - intros g fs c Hg Hd.
    change (map ?f zclFiles) with (f <$> zclFiles) in Hg.
    rewrite list_lookup_fmap in Hg.
    destruct (zclFiles !! g); simpl in Hg; [|done]. by injection Hg as <-.
  - by intros g ?%elem_of_nil.
  - apply ordered_without_phase3. by intros f i ?%elem_of_nil.
Qed.

Lemma content_insert (l : list FileState) f fs fs' :
  l !! f = Some fs -> content fs' = content fs ->
  map content (<[f := fs']> l) = map content l.
Proof.
  intros Hf Hc. change (map content ?x) with (content <$> x).
  rewrite list_fmap_insert, Hc. apply list_insert_id.
  by rewrite list_lookup_fmap, Hf.
Qed.

Lemma lookup_insert_cases (l : list FileState) f fs' g fs0 :
  <[f := fs']> l !! g = Some fs0 ->
  (g = f /\ fs0 = fs') \/ (g <> f /\ l !! g = Some fs0).
Proof.
  intros H. destruct (decide (f = g)) as [->|Hne].
  - left. split; [done|].
    rewrite list_lookup_insert_eq in H; [congruence|].
    destruct (decide (g < length l)); [done|].
    rewrite lookup_ge_None_2 in H; [done|]. rewrite length_insert. lia.
  - right. rewrite list_lookup_insert_ne in H by done. split; [congruence|done].
Qed.

Lemma processParsedZclData_spec f fs :
  let '(fs', evs) := processParsedZclData f fs in
  content fs' = content fs /\ dispatched fs' = true /\ failed fs' = false /\
  (forall e, e ∈ evs <-> exists j, e = Begin f j /\ j ∈ pending fs') /\
  (forall j, j ∈ pending fs' -> phase j <> 3) /\
  (forall c, content fs = ParsedFile (Some c) -> pending fs' = startedAtOnce c).
Proof.
  assert (Hnone : forall e : Event,
            e ∈ [] <-> exists j : Insertion, e = Begin f j /\ j ∈ []).
  { intros e. split; [by intros ?%elem_of_nil|].
    by intros (j & _ & ?%elem_of_nil). }
  unfold processParsedZclData.
  destruct (content fs) as [| |[c|]] eqn:Hc; simpl; split_and!; try done;
    try (by intros j ?%elem_of_nil).
  - intros e. apply elem_of_begins.
  - apply startedAtOnce_phase.
  - by intros c' [= ->].
Qed.

Lemma inv_dispatch st f :
  Inv zclFiles st -> Inv zclFiles (step (Dispatch f) st).
Proof.
  intros HI. simpl.
  destruct (files st !! f) as [fs|] eqn:Hf; [|done].
  destruct (dispatched fs) eqn:Hd; [done|].
  pose proof (processParsedZclData_spec f fs) as Hspec.
  destruct (processParsedZclData f fs) as [fs' evs].
  destruct Hspec as (Hc & Hd' & Hfail & Hevs & Hph & Hstarted).
  assert (Hj : joined st = false).
  { destruct (joined st) eqn:Hj; [|done].
    destruct (inv_after _ _ HI Hj f fs Hf) as [? _]. congruence. }
  destruct (inv_idle _ _ HI f fs Hf Hd) as [Hpend0 Hfail0].
  assert (Hflt : f < length (files st)) by (by eapply lookup_lt_Some).
  assert (Hbefore : forall g i, Begin g i ∈ evs ++ events st -> phase i <> 3).
  { intros g i Hin. apply elem_of_app in Hin as [Hin|Hin].
    - apply Hevs in Hin as (j & [= -> ->] & Hin). by apply Hph.
    - by apply (inv_before _ _ HI Hj g). }
  split; simpl.
  - rewrite (content_insert _ _ fs) by done. apply (inv_content _ _ HI).
  - intros g fs0 Hg Hd0.
    apply lookup_insert_cases in Hg as [[-> ->]|[Hne Hg]]; [congruence|].
    by apply (inv_idle _ _ HI g).
  - intros _. exact Hbefore.
  - intros Hj'. congruence.
  - intros g j Hin Hphj. apply elem_of_app in Hin as [Hin|Hin].
    + apply Hevs in Hin as (j' & [= -> ->] & Hin). right. exists fs'.
      split; [by apply list_lookup_insert_eq | by left].
    + destruct (inv_track _ _ HI g j Hin Hphj) as [Hfin|(fs0 & Hg & Hcase)].
      * left. apply elem_of_app. by right.
      * destruct (decide (g = f)) as [->|Hne].
        -- rewrite Hf in Hg. injection Hg as <-. rewrite Hpend0, Hfail0 in Hcase.
           destruct Hcase as [?%elem_of_nil|?]; done.
        -- right. exists fs0. by rewrite list_lookup_insert_ne.
  - intros g fs0 c Hg Hd0 Hc0 j Hjin. apply elem_of_app.
    apply lookup_insert_cases in Hg as [[-> ->]|[Hne Hg]].
    + left. apply Hevs. exists j. split; [done|].
      rewrite (Hstarted c); [done | congruence].
    + right. by apply (inv_started _ _ HI g fs0 c).
  - intros g Hin. apply elem_of_app. right. apply (inv_domains _ _ HI).
    apply elem_of_app in Hin as [Hin|Hin]; [|done].
    by apply Hevs in Hin as (j & ? & _).
  - by apply ordered_without_phase3.
Qed.

Lemma inv_complete st f i ok :
  Inv zclFiles st -> Inv zclFiles (step (Complete f i ok) st).
Proof.
  intros HI. simpl.
  destruct (files st !! f) as [fs|] eqn:Hf; [|done].
  case_decide as Hi; [|done]. simpl.
  set (next := match i with
               | insertSpecs => if ok then [insertDomains] else []
               | _ => []
               end).
  assert (Hflt : f < length (files st)) by (by eapply lookup_lt_Some).
  assert (Hd : dispatched fs = true).
  { destruct (dispatched fs) eqn:Hd; [done|].
    destruct (inv_idle _ _ HI f fs Hf Hd) as [Hp _]. rewrite Hp in Hi.
    by apply elem_of_nil in Hi. }
  assert (Hnext : forall j, j ∈ next -> j = insertDomains /\ i = insertSpecs /\ ok = true).
  { intros j. unfold next. destruct i, ok; try (by intros ?%elem_of_nil).
    by intros ->%list_elem_of_singleton. }
  assert (Hnew : forall e, e ∈ begins f next ++ [Finish f i ok] ->
            e = Finish f i ok \/
            (e = Begin f insertDomains /\ i = insertSpecs /\ ok = true)).
  { intros e [Hin|Hin]%elem_of_app.
    - apply elem_of_begins in Hin as (j & -> & Hin).
      destruct (Hnext j Hin) as (-> & -> & ->). by right.
    - apply list_elem_of_singleton in Hin. by left. }
  assert (Hafter : joined st = true -> next = []).
  { intros Hj. destruct (inv_after _ _ HI Hj f fs Hf) as [_ Hph].
    specialize (Hph i Hi). unfold next. by destruct i. }
  split; simpl.
  - rewrite (content_insert _ _ fs) by done. apply (inv_content _ _ HI).
  - intros g fs0 Hg Hd0.
    apply lookup_insert_cases in Hg as [[-> ->]|[Hne Hg]]; [simpl in Hd0; congruence|].
    by apply (inv_idle _ _ HI g).
  - intros Hj g j Hin. apply elem_of_app in Hin as [Hin|Hin].
    + destruct (Hnew _ Hin) as [?|([= -> ->] & _)]; [done|]. simpl. lia.
    + by apply (inv_before _ _ HI Hj g).
  - intros Hj g fs0 Hg.
    apply lookup_insert_cases in Hg as [[-> ->]|[Hne Hg]];
      [|by apply (inv_after _ _ HI Hj g)].
    destruct (inv_after _ _ HI Hj f fs Hf) as [_ Hph]. simpl. split; [done|].
    intros j. rewrite (Hafter Hj), app_nil_r, elem_of_without.
    intros [Hin _]. by apply Hph.
  - intros g j Hin Hphj. apply elem_of_app in Hin as [Hin|Hin].
    + destruct (Hnew _ Hin) as [?|([= -> ->] & -> & ->)]; [done|].
      right. eexists. split; [by apply list_lookup_insert_eq|]. simpl. left.
      apply elem_of_app. right. by apply list_elem_of_singleton.
    + destruct (inv_track _ _ HI g j Hin Hphj) as [Hfin|(fs0 & Hg & Hcase)].
      * left. apply elem_of_app. by right.
      * destruct (decide (g = f)) as [->|Hne];
          [|right; exists fs0; by rewrite list_lookup_insert_ne].
        rewrite Hf in Hg. injection Hg as <-.
        destruct Hcase as [Hpend|Hfailed].
        -- destruct (decide (j = i)) as [->|Hji].
           ++ destruct ok.
              ** left. apply elem_of_app. left. apply elem_of_app. right.
                 by apply list_elem_of_singleton.
              ** right. eexists. split; [by apply list_lookup_insert_eq|].
                 simpl. right. apply orb_true_r.
           ++ right. eexists. split; [by apply list_lookup_insert_eq|].
              simpl. left. apply elem_of_app. left. by apply elem_of_without.
        -- right. eexists. split; [by apply list_lookup_insert_eq|].
           simpl. right. by rewrite Hfailed.
  - intros g fs0 c Hg Hd0 Hc0 j Hjin. apply elem_of_app. right.
    apply lookup_insert_cases in Hg as [[-> ->]|[Hne Hg]].
    + by apply (inv_started _ _ HI f fs c).
    + by apply (inv_started _ _ HI g fs0 c).
  - intros g Hin. apply elem_of_app in Hin as [Hin|Hin].
    + destruct (Hnew _ Hin) as [[= -> <- <-]|[? _]]; [|done].
      apply elem_of_app. left. apply elem_of_app. left.
      apply elem_of_begins. exists insertDomains. split; [done|].
      by apply list_elem_of_singleton.
    + apply elem_of_app. right. by apply (inv_domains _ _ HI).
  - destruct (joined st) eqn:Hj.
    + rewrite (Hafter eq_refl). simpl. apply ordered_finish, (inv_ordered _ _ HI).
    + apply ordered_without_phase3. intros g j Hin.
      apply elem_of_app in Hin as [Hin|Hin].
      * destruct (Hnew _ Hin) as [?|([= -> ->] & _)]; [done|]. simpl. lia.
      * by apply (inv_before _ _ HI Hj g).
Qed.

Lemma startedBy_phase l j : j ∈ concat (map startedBy l) -> phase j = 3.
Proof.
  induction l as [|x l IH]; simpl; [by intros ?%elem_of_nil|].
  intros [Hin|Hin]%elem_of_app; [|by apply IH].
  destruct x as [[|]|]; simpl in Hin;
    try (by apply elem_of_nil in Hin);
    by apply list_elem_of_singleton in Hin as ->.
Qed.

Lemma callLater_spec l k :
  let '(l', evs) := callLater k l in
  map content l' = map content l /\
  (forall g fs', l' !! g = Some fs' ->
     exists fs, l !! g = Some fs /\ dispatched fs' = dispatched fs /\
       content fs' = content fs /\
       forall j, j ∈ pending fs' -> j ∈ pending fs \/ phase j = 3) /\
  (forall e, e ∈ evs -> exists f i, e = Begin f i /\ phase i = 3).
Proof.
  revert k. induction l as [|fs l IH]; intros k; simpl.
  - split_and!; [done| |by intros e ?%elem_of_nil]. by intros g fs'.
  - destruct (laterOf fs) as [ls|].
    + specialize (IH (S k)). destruct (callLater (S k) l) as [rest evs].
      destruct IH as (Hc & Hl & He). split_and!.
      * simpl. by rewrite Hc.
      * intros [|g] fs' Hg; simpl in Hg.
        -- injection Hg as <-. exists fs. simpl. split_and!; try done.
           intros j [Hin|Hin]%elem_of_app; [by left|].
           right. by apply (startedBy_phase ls).
        -- by apply Hl.
      * intros e [Hin|Hin]%elem_of_app; [by apply He|].
        apply elem_of_begins in Hin as (j & -> & Hin).
        exists k, j. split; [done|]. by apply (startedBy_phase ls).
    + split_and!; [done| |by intros e ?%elem_of_nil].
      intros g fs' Hg. exists fs'. split_and!; try done. by left.
Qed.

Lemma inv_join st : Inv zclFiles st -> Inv zclFiles (step Join st).
Proof.
  intros HI. simpl.
  destruct (joined st) eqn:Hj; [done|].
  destruct (forallb fulfilled (files st)) eqn:Hall; [|done].
  assert (Hful : forall g fs, files st !! g = Some fs ->
            dispatched fs = true /\ failed fs = false /\ pending fs = []).
  { intros g fs Hg. apply fulfilled_true.
    rewrite forallb_forall in Hall. apply Hall, list_elem_of_In.
    by apply list_elem_of_lookup_2 in Hg. }
  pose proof (callLater_spec (files st) 0) as Hspec.
  destruct (callLater 0 (files st)) as [fss evs].
  destruct Hspec as (Hc & Hl & He).
  assert (Hdone : forall g j, phase j <> 3 -> Begin g j ∈ events st ->
            Finish g j true ∈ events st).
  { intros g j Hph Hin.
    destruct (inv_track _ _ HI g j Hin Hph) as [?|(fs & Hg & Hcase)]; [done|].
    destruct (Hful g fs Hg) as (_ & Hfail & Hpend). rewrite Hfail, Hpend in Hcase.
    destruct Hcase as [?%elem_of_nil|?]; done. }
  split; simpl.
  - rewrite Hc. apply (inv_content _ _ HI).
  - intros g fs' Hg Hd. destruct (Hl g fs' Hg) as (fs & Hg0 & Hd0 & _).
    destruct (Hful g fs Hg0) as (? & _). congruence.
  - done.
  - intros _ g fs' Hg. destruct (Hl g fs' Hg) as (fs & Hg0 & Hd0 & _ & Hp).
    destruct (Hful g fs Hg0) as (Hd & _ & Hpend). split; [congruence|].
    intros j Hin. destruct (Hp j Hin) as [Hold|?]; [|done].
    rewrite Hpend in Hold. by apply elem_of_nil in Hold.
  - intros g j Hin Hph. left. apply elem_of_app. right. apply Hdone; [done|].
    apply elem_of_app in Hin as [Hin|Hin]; [|done].
    destruct (He _ Hin) as (f' & i' & [= -> ->] & ?). done.
  - intros g fs' c Hg Hd Hc' j Hin. apply elem_of_app. right.
    destruct (Hl g fs' Hg) as (fs & Hg0 & Hd0 & Hc0 & _).
    apply (inv_started _ _ HI g fs c); [done|congruence|congruence|done].
  - intros g Hin. apply elem_of_app. right. apply (inv_domains _ _ HI).
    apply elem_of_app in Hin as [Hin|Hin]; [|done].
    by destruct (He _ Hin) as (f' & i' & ? & _).
  - apply ordered_join; [by apply (inv_before _ _ HI Hj) | exact Hdone | | exact He].
    intros g c j Hg Hin.
    assert (Hfs : exists fs, files st !! g = Some fs /\ content fs = ParsedFile (Some c)).
    { rewrite <- (inv_content _ _ HI) in Hg.
      change (map content ?x) with (content <$> x) in Hg.
      rewrite list_lookup_fmap in Hg.
      destruct (files st !! g) as [fs|]; simpl in Hg; [|done].
      exists fs. split; [done|congruence]. }
    destruct Hfs as (fs & Hgfs & Hcfs).
    destruct (Hful g fs Hgfs) as (Hd & _ & _).
    unfold calledFor in Hin. apply elem_of_app in Hin as [Hin|Hin].
    + apply Hdone; [by apply (startedAtOnce_phase c)|].
      by apply (inv_started _ _ HI g fs c).
    + apply elem_of_tag in Hin as [Hdom ->].
      apply Hdone; [simpl; lia|]. apply (inv_domains _ _ HI).
      apply Hdone; [simpl; lia|]. apply (inv_started _ _ HI g fs c); [done..|].
      unfold startedAtOnce. rewrite !elem_of_app, !elem_of_tag. tauto.
Qed.

Lemma inv_run sched st : Inv zclFiles st -> Inv zclFiles (run sched st).
Proof.
  revert st. induction sched as [|c sched IH]; intros st HI; [done|].
  simpl. apply IH. destruct c.
  - by apply inv_dispatch.
  - by apply inv_complete.
  - by apply inv_join.
Qed.

(** C6, as the code has it. In every run of a manifest-driven load, over any
    files and whatever the order and outcome of the operations, when an
    insertion of phase 3 (cluster extensions, global attribute defaults)
    begins, every insertion of phase 1 and of phase 2 that the run begins has
    finished before, and so has, with success, every phase-1 and phase-2
    insertion that the tags of the files call for. *)
Theorem parseZclFiles_phase3_after_phases_1_and_2 (sched : list Choice) :
  let tr := trace (run sched (parseZclFiles zclFiles)) in
  barrier 1 3 tr /\ barrier 2 3 tr /\
  forall pre f i post,
    tr = pre ++ Begin f i :: post -> phase i = 3 ->
    forall g c j, zclFiles !! g = Some (ParsedFile (Some c)) -> j ∈ calledFor c ->
      Finish g j true ∈ pre.
Proof.
  intros tr.
  pose proof (inv_ordered _ _ (inv_run sched _ inv_init)) as Hord.
  assert (Hsplit : forall pre f i post,
            tr = pre ++ Begin f i :: post -> phase i = 3 ->
            (forall g j, phase j <> 3 -> Begin g j ∈ tr -> Finish g j true ∈ pre) /\
            (forall g c j, zclFiles !! g = Some (ParsedFile (Some c)) ->
               j ∈ calledFor c -> Finish g j true ∈ pre)).
  { intros pre f i post Htr Hph.
    assert (Hev : events (run sched (parseZclFiles zclFiles))
                  = rev post ++ Begin f i :: rev pre).
    { rewrite <- (rev_involutive (events _)). fold (trace (run sched (parseZclFiles zclFiles))).
      fold tr. rewrite Htr, rev_app_distr. simpl. by rewrite <- app_assoc. }
    destruct (Hord _ _ _ _ Hev Hph) as (H1 & H2 & H3). split.
    - intros g j Hj Hin. rewrite Htr in Hin.
      rewrite list_elem_of_In, (in_rev pre), <- list_elem_of_In. apply H2; [done|].
      apply elem_of_app in Hin as [Hin|Hin].
      + by rewrite list_elem_of_In, <- in_rev, <- list_elem_of_In.
      + apply elem_of_cons in Hin as [[= -> ->]|Hin]; [done|].
        exfalso. apply Hj, (H1 g).
        by rewrite list_elem_of_In, <- in_rev, <- list_elem_of_In.
    - intros g c j Hg Hj.
      rewrite list_elem_of_In, (in_rev pre), <- list_elem_of_In. by apply (H3 g c). }
  split_and!.
  - intros pre f i post Htr Hph g j Hj Hin. exists true.
    apply (Hsplit pre f i post Htr Hph); [lia|done].
  - intros pre f i post Htr Hph g j Hj Hin. exists true.
    apply (Hsplit pre f i post Htr Hph); [lia|done].
  - intros pre f i post Htr Hph. by apply (Hsplit pre f i post).
Qed.

End PhaseOrder.

(** C6, as stated, fails between phases 1 and 2: each file starts its own
    insertions as soon as it is parsed, so the clusters of one file begin to
    be inserted while the domains of another are still being inserted. *)
Lemma phase2_begins_before_phase1_is_done :
  ~ Claims.phasesInOrder [Examples.domainsXml; Examples.clustersXml]
      [Phases.Dispatch 0; Phases.Dispatch 1].
Proof.
  intros [_ Hbarrier].
  destruct (Hbarrier [Phases.Begin 0 Phases.insertSpecs] 1%nat Phases.insertClusters []
              eq_refl eq_refl 0%nat Phases.insertSpecs eq_refl) as [ok Hin].
  - apply list_elem_of_here.
  - apply list_elem_of_singleton in Hin. discriminate Hin.
Qed.

(** A run of the two sample files in which everything succeeds: the cluster
    extensions and the global attribute defaults begin last. *)
Lemma parseZclFiles_phase3_after_phases_1_and_2_witness :
  let sched := [Phases.Dispatch 1; Phases.Dispatch 0;
                Phases.Complete 1 Phases.insertClusters true;
                Phases.Complete 0 Phases.insertSpecs true;
                Phases.Join;
                Phases.Complete 0 Phases.insertDomains true;
                Phases.Join] in
  let tr := Phases.trace (Phases.run sched
              (Phases.parseZclFiles [Examples.domainsXml; Examples.clustersXml])) in
  tr = [Phases.Begin 1 Phases.insertClusters; Phases.Begin 0 Phases.insertSpecs;
        Phases.Finish 1 Phases.insertClusters true;
        Phases.Finish 0 Phases.insertSpecs true;
        Phases.Begin 0 Phases.insertDomains;
        Phases.Finish 0 Phases.insertDomains true;
        Phases.Begin 1 Phases.insertGlobalAttributeDefault;
        Phases.Begin 1 Phases.insertClusterExtensions] /\
  Phases.barrier 1 3 tr /\ Phases.barrier 2 3 tr.
Proof.
  intros sched tr. split; [reflexivity|].
  destruct (parseZclFiles_phase3_after_phases_1_and_2
              [Examples.domainsXml; Examples.clustersXml] sched) as (H1 & H2 & _).
  split; [exact H1 | exact H2].
Defined.

(** ** Byte formatting *)

Section BytesForValue.
Import HelperC.
Variable atomicSize : string -> option nat.



End BytesForValue.


(** * Further properties of the loader *)

(** ** Attributes and commands *)

Section MorePreparers.

Local Open Scope list_scope.
Local Open Scope nat_scope.

(** X1. The prepared attributes of a cluster are the source attributes
    without a [removedIn] marker, in source order; an attribute that carries
    the marker is left out, and no prepared attribute carries one. *)
Theorem prepareCluster_drops_removed_attributes
    (cluster : Xml.Cluster) (isExt : bool) (atts : list Xml.Attribute) :
  cl_attribute cluster = Some atts ->
  let kept := List.filter (fun a => match att_removedIn a with
                                    | None => true
                                    | Some _ => false
                                    end) atts in
  attributes (prepareCluster cluster isExt)
    = Some (map (preparedAttribute (manufacturerCode (prepareCluster cluster isExt))) kept) /\
  forall patts pt, attributes (prepareCluster cluster isExt) = Some patts ->
    pt ∈ patts -> pt_removedIn pt = None.
Proof.
  intros Hatts kept.
  assert (Heq : attributes (prepareCluster cluster isExt)
     = Some (map (preparedAttribute (manufacturerCode (prepareCluster cluster isExt))) kept)).
  { rewrite prepared_attributes, Hatts. f_equal. unfold kept.
    rewrite <- (concat_imap_filter _ (preparedAttribute _)).
    f_equal. apply imap_ext. intros i a _. by destruct (att_removedIn a). }
  split; [exact Heq|].
  intros patts pt Hp Hin. rewrite Heq in Hp. injection Hp as <-.
  apply (list_elem_of_fmap (preparedAttribute _)) in Hin as (a & -> & Hin).
  apply list_elem_of_In, filter_In in Hin as [_ Hkeep]. simpl.
  by destruct (att_removedIn a).
Qed.

(** Of the three attributes of the sample cluster the last one is removed. *)
Lemma prepareCluster_drops_removed_attributes_witness :
  exists patts,
    attributes (prepareCluster Examples.levelControl false) = Some patts /\
    map pt_name patts = [Some "current level"; Some "vendor level"].
Proof.
  destruct (prepareCluster_drops_removed_attributes Examples.levelControl false _ eq_refl)
    as [Heq _].
  eexists. split; [exact Heq | reflexivity].
Defined.

(** X2. Every command of a cluster is prepared, at its own position, also
    one that carries a [removedIn] marker: the marker is copied, not acted
    upon. *)
Theorem prepareCluster_keeps_every_command
    (cluster : Xml.Cluster) (isExt : bool) (cmds : list Xml.Command) :
  cl_command cluster = Some cmds ->
  exists pcmds,
    commands (prepareCluster cluster isExt) = Some pcmds /\
    length pcmds = length cmds /\
    forall k command, cmds !! k = Some command ->
      exists pc, pcmds !! k = Some pc /\
        pc_name pc = cmd_name command /\
        pc_code pc = parseIntOpt (cmd_code command) 0 /\
        pc_removedIn pc = cmd_removedIn command.
Proof.
  intros Hcmds. rewrite prepared_commands, Hcmds.
  eexists. split; [reflexivity|]. split; [apply length_map|].
  intros k command Hk.
  exists (preparedCommand (manufacturerCode (prepareCluster cluster isExt)) command).
  split; [|done].
  change (map ?f cmds) with (f <$> cmds). by rewrite list_lookup_fmap, Hk.
Qed.

(** The only command of the sample cluster is marked as removed and is still
    prepared. *)
Lemma prepareCluster_keeps_every_command_witness :
  exists pcmds pc,
    commands (prepareCluster Samples.oldCluster false) = Some pcmds /\
    pcmds !! 0 = Some pc /\ pc_removedIn pc = Some "zcl-7.0"%string.
Proof.
  destruct (prepareCluster_keeps_every_command Samples.oldCluster false _ eq_refl)
    as (pcmds & Hp & _ & Hall).
  destruct (Hall 0 _ eq_refl) as (pc & Hpc & _ & _ & Hrem).
  exists pcmds, pc. split; [exact Hp|]. split; [exact Hpc | exact Hrem].
Defined.

Lemma prepared_attribute_origin (cluster : Xml.Cluster) (isExt : bool) patts pt :
  attributes (prepareCluster cluster isExt) = Some patts -> pt ∈ patts ->
  exists atts a, cl_attribute cluster = Some atts /\ a ∈ atts /\
    pt = preparedAttribute (manufacturerCode (prepareCluster cluster isExt)) a.
Proof.
  intros Hp Hin. rewrite prepared_attributes in Hp.
  destruct (cl_attribute cluster) as [atts|]; [|done]. injection Hp as <-.
  apply elem_of_concat_imap in Hin as (i & a & Hi & Hin).
  destruct (att_removedIn a); [by apply elem_of_nil in Hin|].
  apply list_elem_of_singleton in Hin. exists atts, a.
  split; [done|]. split; [by apply list_elem_of_lookup_2 in Hi | done].
Qed.

(** X3. An extension (and a [global] element, prepared the same way) has no
    manufacturer code to hand down: a command or attribute in it that sets
    none of its own gets [undefined], also when the extension element itself
    carries a [manufacturerCode] attribute. *)
Theorem prepareCluster_extension_hands_down_no_manufacturerCode
    (cluster : Xml.Cluster) :
  manufacturerCode (prepareCluster cluster true) = Undefined /\
  (forall cmds k command, cl_command cluster = Some cmds -> cmds !! k = Some command ->
     cmd_manufacturerCode command = None ->
     exists pcmds pc, commands (prepareCluster cluster true) = Some pcmds /\
       pcmds !! k = Some pc /\ pc_manufacturerCode pc = Undefined) /\
  (forall patts pt, attributes (prepareCluster cluster true) = Some patts -> pt ∈ patts ->
     exists atts a, cl_attribute cluster = Some atts /\ a ∈ atts /\
       pt_name pt = att_text a /\
       (att_manufacturerCode a = None -> pt_manufacturerCode pt = Undefined)).
Proof.
  split; [done|]. split.
  - intros cmds k command Hcmds Hk Hnone. rewrite prepared_commands, Hcmds.
    eexists _, _. split; [reflexivity|]. split.
    + change (map ?f cmds) with (f <$> cmds). by rewrite list_lookup_fmap, Hk.
    + simpl. by rewrite Hnone.
  - intros patts pt Hp Hin.
    destruct (prepared_attribute_origin cluster true patts pt Hp Hin)
      as (atts & a & Hatts & Ha & ->).
    exists atts, a. split; [done|]. split; [done|]. split; [done|].
    intros Hnone. simpl. by rewrite Hnone.
Qed.

(** The sample extension carries manufacturer code 0x1002; its command does
    not get it. *)
Lemma prepareCluster_extension_hands_down_no_manufacturerCode_witness :
  (exists a, cl_attrs Samples.levelControlExtension = Some a /\
             ca_manufacturerCode a = Some "0x1002"%string) /\
  exists pcmds pc,
    commands (prepareCluster Samples.levelControlExtension true) = Some pcmds /\
    pcmds !! 0 = Some pc /\ pc_manufacturerCode pc = Undefined.
Proof.
  split; [eexists; split; reflexivity|].
  destruct (prepareCluster_extension_hands_down_no_manufacturerCode
              Samples.levelControlExtension) as (_ & Hcmd & _).
  exact (Hcmd _ 0 _ eq_refl eq_refl eq_refl).
Defined.

(** ** Global attributes, codes and device types *)

(** X4. A cluster with n [globalAttribute] entries of which e have side
    "either" is prepared into n + e rows. *)
Theorem prepareClusterGlobalAttribute_row_count
    (cluster : Xml.Cluster) (gas : list Xml.GlobalAttribute) :
  cl_globalAttribute cluster = Some gas ->
  exists ret,
    prepareClusterGlobalAttribute cluster = Some ret /\
    length (cga_globalAttribute ret)
      = length gas
        + length (List.filter (fun ga => bool_decide (ga_side ga = Some "either"%string)) gas).
Proof.
  intros Hgas. unfold prepareClusterGlobalAttribute. rewrite Hgas.
  eexists. split; [reflexivity|]. simpl.
  rewrite (forEach_collect (fun (_ : nat) ga =>
     if decide (ga_side ga = Some dbEnum.side_either) then
       [ {| gar_code := parseIntOpt (ga_code ga) 0;
            gar_side := Some dbEnum.side_client; gar_value := ga_value ga |};
         {| gar_code := parseIntOpt (ga_code ga) 0;
            gar_side := Some dbEnum.side_server; gar_value := ga_value ga |} ]
     else
       [ {| gar_code := parseIntOpt (ga_code ga) 0;
            gar_side := ga_side ga; gar_value := ga_value ga |} ]))
    by (intros; apply pushGlobalAttribute_rows).
  rewrite imap_ignoring_index. clear Hgas.
  induction gas as [|ga gas IH]; simpl; [done|].
  rewrite length_app, IH. unfold dbEnum.side_either.
  destruct (decide (ga_side ga = Some "either"%string)) as [He|He].
  - rewrite (bool_decide_eq_true_2 _ He). simpl. lia.
  - rewrite (bool_decide_eq_false_2 _ He). simpl. lia.
Qed.

(** The sample cluster has two entries, one of them "either". *)
Lemma prepareClusterGlobalAttribute_row_count_witness :
  exists ret,
    prepareClusterGlobalAttribute Examples.levelControl = Some ret /\
    length (cga_globalAttribute ret) = 3.
Proof.
  destruct (prepareClusterGlobalAttribute_row_count Examples.levelControl _ eq_refl)
    as (ret & Hret & Hlen).
  exists ret. split; [exact Hret | exact Hlen].
Defined.




Lemma pushInclusions_rows acc cluster i :
  pushInclusions acc cluster i =
    acc ++ match cls_include cluster with
           | Some includes => map preparedInclusion includes
           | None => []
           end.
Proof.
  unfold pushInclusions. destruct (cls_include cluster) as [includes|];
    [|by rewrite app_nil_r].
  unfold forEach.
  rewrite (forEachFrom_collect (fun (_ : nat) x => [preparedInclusion x])) by done.
  by rewrite concat_imap_singleton, imap_ignoring_index.
Qed.

(** X6. The cluster inclusions of a prepared device type are the [include]
    elements of all its [clusters] elements, flattened in document order; a
    [clusters] element without [include] contributes nothing, and an
    inclusion that names no required attributes or commands gets empty
    lists. *)
Theorem prepareDeviceType_flattens_inclusions
    (deviceType : Elements.DeviceType) (cls : list Elements.Clusters) :
  dt_clusters deviceType = Some cls ->
  pdt_clusters (prepareDeviceType deviceType)
    = Some (concat (map (fun c => match cls_include c with
                                  | Some includes => map preparedInclusion includes
                                  | None => []
                                  end) cls)) /\
  forall incs inc, pdt_clusters (prepareDeviceType deviceType) = Some incs ->
    inc ∈ incs ->
    exists c includes include,
      c ∈ cls /\ cls_include c = Some includes /\ include ∈ includes /\
      inc = preparedInclusion include /\
      (inc_requireAttribute include = None -> pi_requiredAttributes inc = []) /\
      (inc_requireCommand include = None -> pi_requiredCommands inc = []).
Proof.
  intros Hcls.
  assert (Heq : pdt_clusters (prepareDeviceType deviceType)
    = Some (concat (map (fun c => match cls_include c with
                                  | Some includes => map preparedInclusion includes
                                  | None => []
                                  end) cls))).
  { unfold prepareDeviceType. rewrite Hcls. simpl. f_equal.
    rewrite (forEach_collect (fun (_ : nat) c =>
               match cls_include c with
               | Some includes => map preparedInclusion includes
               | None => []
               end)) by (intros; apply pushInclusions_rows).
    by rewrite imap_ignoring_index. }
  split; [exact Heq|].
  intros incs inc Hincs Hin. rewrite Heq in Hincs. injection Hincs as <-.
  rewrite <- (imap_ignoring_index (fun c => match cls_include c with
                                  | Some includes => map preparedInclusion includes
                                  | None => []
                                  end)) in Hin.
  apply elem_of_concat_imap in Hin as (i & c & Hi & Hin).
  destruct (cls_include c) as [includes|] eqn:Hinc; [|by apply elem_of_nil in Hin].
  apply (list_elem_of_fmap preparedInclusion) in Hin as (include & -> & Hin).
  exists c, includes, include.
  split; [by apply list_elem_of_lookup_2 in Hi|]. split; [done|]. split; [done|].
  split; [done|]. split; intros H; simpl; by rewrite H.
Qed.

(** The sample device type has three [clusters] elements with two, no and
    one [include]. *)
Lemma prepareDeviceType_flattens_inclusions_witness :
  exists incs,
    pdt_clusters (prepareDeviceType Samples.onOffLight) = Some incs /\
    map pi_clusterName incs = [Some "Basic"; Some "On/off"; Some "Groups"]%string.
Proof.
  destruct (prepareDeviceType_flattens_inclusions Samples.onOffLight _ eq_refl)
    as [Heq _].
  eexists. split; [exact Heq | reflexivity].
Defined.

End MorePreparers.

(** ** Processing global attributes and domains *)

Section ProcessFacts.
Context {db : Type}.

Local Open Scope list_scope.
Local Open Scope nat_scope.

Lemma prepared_global_attribute_objects (data : list Xml.Cluster) :
  forEach data pushPrepared [] = omap prepareClusterGlobalAttribute data.
Proof.
  rewrite (forEach_collect (fun (_ : nat) x =>
             match prepareClusterGlobalAttribute x with
             | Some p => [p]
             | None => []
             end)).
  - rewrite imap_ignoring_index.
    induction data as [|x data IH]; simpl; [done|].
    destruct (prepareClusterGlobalAttribute x); simpl; by rewrite IH.
  - intros acc x i. unfold pushPrepared, push.
    destruct (prepareClusterGlobalAttribute x); [done | by rewrite app_nil_r].
Qed.

(** X7. [processClusterGlobalAttributes] hands the store one batch with the
    prepared object of every cluster that carries global attributes, in
    source order, and leaves the clusters without any out; when no cluster
    carries global attributes it does not call the store at all. *)
Theorem processClusterGlobalAttributes_skips_clusters_without
    (insertGlobalAttributeDefault : Z -> list ClusterGlobalAttribute -> async db unit)
    (packageId : Z) (data : list Xml.Cluster) :
  let objs := omap prepareClusterGlobalAttribute data in
  (length objs
     = length (List.filter (fun x => bool_decide (is_Some (cl_globalAttribute x))) data)) /\
  ((forall x, x ∈ data -> cl_globalAttribute x = None) ->
     processClusterGlobalAttributes insertGlobalAttributeDefault packageId data = ret tt) /\
  ((exists x, x ∈ data /\ is_Some (cl_globalAttribute x)) ->
     processClusterGlobalAttributes insertGlobalAttributeDefault packageId data
       = insertGlobalAttributeDefault packageId objs).
Proof.
  intros objs.
  assert (Hlen : length objs
     = length (List.filter (fun x => bool_decide (is_Some (cl_globalAttribute x))) data)).
  { unfold objs. induction data as [|x data IH]; [done|].
    cbn [omap list_omap List.filter].
    unfold prepareClusterGlobalAttribute at 1.
    destruct (cl_globalAttribute x) as [gas|].
    - rewrite bool_decide_eq_true_2 by (by eexists). cbn [length]. by rewrite IH.
    - rewrite bool_decide_eq_false_2 by (by intros [? ?]). apply IH. }
  split; [exact Hlen|].
  unfold processClusterGlobalAttributes. rewrite prepared_global_attribute_objects.
  fold objs. split.
  - intros Hnone. rewrite Hlen.
    replace (List.filter _ data) with (@nil Xml.Cluster); [done|].
    symmetry. clear Hlen objs. induction data as [|x data IH]; [done|].
    cbn [List.filter]. rewrite (Hnone x) by apply list_elem_of_here.
    rewrite bool_decide_eq_false_2 by (by intros [? ?]).
    apply IH. intros y Hy. apply Hnone. by apply list_elem_of_further.
  - intros (x & Hx & Hsome). rewrite Hlen.
    assert (Hin : In x (List.filter
              (fun x => bool_decide (is_Some (cl_globalAttribute x))) data)).
    { apply filter_In. split; [by apply list_elem_of_In|].
      by apply bool_decide_eq_true_2. }
    destruct (List.filter _ data); [done | by simpl].
Qed.

Lemma assignSpecRefs_in_range (specIds : list Z) :
  forall i (ds : list Objects.Domain),
    i + length specIds <= length ds ->
    exists ds',
      assignSpecRefs i specIds ds = Fulfilled ds' /\
      length ds' = length ds /\
      forall k d, ds !! k = Some d ->
        ds' !! k = Some (withSpecRef (if decide (i <= k) then specIds !! (k - i) else None) d).
Proof.
  induction specIds as [|id specIds IH]; intros i ds Hlen; simpl in *.
  - exists ds. split; [done|]. split; [done|].
    intros k d Hk. rewrite Hk. f_equal. by case_decide.
  - destruct (ds !! i) as [d0|] eqn:Hi;
      [|apply lookup_ge_None in Hi; lia].
    destruct (IH (S i) (<[i := setSpecRef id d0]> ds)) as (ds' & Hds' & Hl & Hall).
    { rewrite length_insert. lia. }
    exists ds'. split; [done|]. split; [by rewrite Hl, length_insert|].
    intros k d Hk. destruct (decide (k = i)) as [->|Hne].
    + rewrite (Hall i (setSpecRef id d0)).
      * rewrite decide_False by lia. rewrite decide_True by lia.
        replace (i - i) with 0 by lia. simpl. congruence.
      * apply list_lookup_insert_eq. by eapply lookup_lt_Some.
    + rewrite (Hall k d) by (by rewrite list_lookup_insert_ne).
      f_equal. f_equal. repeat case_decide; try lia; [|done].
      replace (k - i) with (S (k - S i)) by lia. done.
Qed.

Lemma assignSpecRefs_past_end (specIds : list Z) :
  forall i (ds : list Objects.Domain),
    i <= length ds -> length ds < i + length specIds ->
    assignSpecRefs i specIds ds
      = Rejected "TypeError: Cannot set property 'specRef' of undefined".
Proof.
  induction specIds as [|id specIds IH]; intros i ds Hi Hlen; simpl in *; [lia|].
  destruct (ds !! i) as [d0|] eqn:Hd; [|done].
  apply IH; rewrite length_insert; [|lia].
  apply lookup_lt_Some in Hd. lia.
Qed.

(** X8. [processDomains] gives every domain the spec id found at its own
    position in what [insertSpecs] returned, and then inserts the domains in
    source order; a domain beyond the ids returned keeps no reference.  When
    more ids come back than there are domains the assignment throws and the
    domains are not inserted; when [insertSpecs] rejects they are not
    inserted either, and the rejection is the one of [insertSpecs]. *)
Theorem processDomains_assigns_spec_ids_by_position
    (insertSpecs : Z -> list Objects.Domain -> async db (list Z))
    (insertDomains : Z -> list Objects.Domain -> async db unit)
    (packageId : Z) (data : list Elements.Domain) (s : db) :
  (forall s1 specIds,
     insertSpecs packageId (map prepareDomain data) s = (s1, Fulfilled specIds) ->
     (length specIds <= length data ->
        exists ds,
          processDomains insertSpecs insertDomains packageId data s
            = insertDomains packageId ds s1 /\
          length ds = length data /\
          forall k d, data !! k = Some d ->
            exists pd, ds !! k = Some pd /\ pd_specRef pd = specIds !! k /\
              pd_name pd = dom_name d /\ pd_specCode pd = dom_spec d) /\
     (length data < length specIds ->
        exists e,
          processDomains insertSpecs insertDomains packageId data s = (s1, Rejected e))) /\
  (forall s' e,
     insertSpecs packageId (map prepareDomain data) s = (s', Rejected e) ->
     processDomains insertSpecs insertDomains packageId data s = (s', Rejected e)).
Proof.
  split.
  - intros s1 specIds Hspecs. split.
    + intros Hlen.
      destruct (assignSpecRefs_in_range specIds 0 (map prepareDomain data))
        as (ds & Hds & Hl & Hall).
      { rewrite length_map. lia. }
      exists ds. split; [|split].
      * unfold processDomains, bind, lift. by rewrite Hspecs, Hds.
      * by rewrite Hl, length_map.
      * intros k d Hk.
        rewrite (Hall k (prepareDomain d)).
        -- eexists. split; [reflexivity|]. rewrite decide_True by lia.
           replace (k - 0) with k by lia.
           by destruct (specIds !! k).
        -- change (map ?f data) with (f <$> data). by rewrite list_lookup_fmap, Hk.
    + intros Hlen. eexists. unfold processDomains, bind, lift. rewrite Hspecs.
      rewrite assignSpecRefs_past_end; [done|lia|]. rewrite length_map. lia.
  - intros s' e Hrej. unfold processDomains, bind. by rewrite Hrej.
Qed.

End ProcessFacts.

(** The sample cluster carries global attributes, the old cluster none: one
    object is handed over. *)
Lemma processClusterGlobalAttributes_skips_clusters_without_witness :
  processClusterGlobalAttributes Samples.countRows 1
    [Samples.oldCluster; Examples.levelControl] [] = ([1%Z], Fulfilled tt) /\
  processClusterGlobalAttributes Samples.countRows 1 [Samples.oldCluster] []
    = ([], Fulfilled tt).
Proof.
  destruct (processClusterGlobalAttributes_skips_clusters_without
              Samples.countRows 1 [Samples.oldCluster; Examples.levelControl])
    as (_ & _ & Hsome).
  destruct (processClusterGlobalAttributes_skips_clusters_without
              Samples.countRows 1 [Samples.oldCluster]) as (_ & Hnone & _).
  split.
  - rewrite Hsome; [reflexivity|].
    exists Examples.levelControl. split; [|by eexists].
    apply list_elem_of_further, list_elem_of_here.
  - rewrite Hnone; [reflexivity|].
    intros x ->%list_elem_of_singleton. reflexivity.
Defined.

(** Two domains and two ids: each domain carries its own.  When the specs
    are refused, so are the domains, and nothing is kept. *)
Lemma processDomains_assigns_spec_ids_by_position_witness :
  (exists ds,
     processDomains Samples.countSpecs Samples.keepRefs 1
       [Samples.domain "General" "zcl-7.0"; Samples.domain "Lighting" "zll-1.0"] []
     = Samples.keepRefs 1 ds [] /\
     (exists pd, ds !! 0%nat = Some pd /\ pd_specRef pd = Some 100) /\
     (exists pd, ds !! 1%nat = Some pd /\ pd_specRef pd = Some 101)) /\
  processDomains Samples.refuseSpecs Samples.keepRefs 1
    [Samples.domain "General" "zcl-7.0"; Samples.domain "Lighting" "zll-1.0"] []
  = ([], Rejected "SQLITE_CONSTRAINT").
Proof.
  split.
  - destruct (processDomains_assigns_spec_ids_by_position
                Samples.countSpecs Samples.keepRefs 1
                [Samples.domain "General" "zcl-7.0"; Samples.domain "Lighting" "zll-1.0"]
                []) as (Hok & _).
    destruct (Hok [] [100; 101] eq_refl) as (Hin & _).
    destruct (Hin ltac:(simpl; lia)) as (ds & Heq & _ & Hall).
    exists ds. split; [exact Heq|]. split.
    + destruct (Hall 0%nat _ eq_refl) as (pd & H1 & H2 & _). by exists pd.
    + destruct (Hall 1%nat _ eq_refl) as (pd & H1 & H2 & _). by exists pd.
  - destruct (processDomains_assigns_spec_ids_by_position
                Samples.refuseSpecs Samples.keepRefs 1
                [Samples.domain "General" "zcl-7.0"; Samples.domain "Lighting" "zll-1.0"]
                []) as (_ & Hrej).
    exact (Hrej [] "SQLITE_CONSTRAINT" eq_refl).
Defined.

(** ** Files of a manifest *)

Section FilesFacts.
Context {db Parsed : Type} `{B : Backend db Parsed}.
Variable qualifyZclFileOf : Z -> string -> string -> Z -> async db Qualified.

Local Open Scope list_scope.

(** X9. [parseSingleZclFile] never rejects because a file cannot be read,
    qualified or parsed: it then resolves with [undefined] and nothing of the
    file is processed.  It rejects only with a rejection of
    [processParsedZclData]. *)
Theorem parseSingleZclFile_swallows_read_errors (packageId : Z) (file : string) (s : db) :
  (forall s' e, Files.readAndParse qualifyZclFileOf packageId file s = (s', Rejected e) ->
     Files.parseSingleZclFile qualifyZclFileOf packageId file s = (s', Fulfilled None)) /\
  (forall s' e, readFile file s = (s', Rejected e) ->
     Files.parseSingleZclFile qualifyZclFileOf packageId file s = (s', Fulfilled None)) /\
  (forall s' e,
     Files.parseSingleZclFile qualifyZclFileOf packageId file s = (s', Rejected e) ->
     exists argument s0,
       Files.readAndParse qualifyZclFileOf packageId file s = (s0, Fulfilled argument) /\
       processParsedZclData argument s0 = (s', Rejected e)).
Proof.
  split; [|split].
  - intros s' e H. unfold Files.parseSingleZclFile. by rewrite H.
  - intros s' e H. unfold Files.parseSingleZclFile, Files.readAndParse, bind.
    by rewrite H.
  - intros s' e. unfold Files.parseSingleZclFile.
    destruct (Files.readAndParse qualifyZclFileOf packageId file s) as [s0 [argument|e0]];
      [|done].
    destruct (processParsedZclData argument s0) as [s1 [later|e1]] eqn:Hp; [done|].
    intros [= <- <-]. by exists argument, s0.
Qed.






End FilesFacts.


(** ** The custom device type *)

Section CustomDeviceFacts.
Context {db Row : Type}.
Variable customDevice : Objects.DeviceType.
Variable selectDeviceTypeByCodeAndName : Z -> num -> string -> async db (option Row).
Variable insertDeviceTypes : Z -> list Objects.DeviceType -> async db unit.

(** X11. On a store whose lookup changes nothing and finds a device type
    once it has been inserted, [processCustomZclDeviceType] inserts the
    custom device type at most once: when the lookup finds it nothing is
    inserted, and running the function again after it has succeeded leaves
    the store as it is. *)
Theorem processCustomZclDeviceType_inserts_once (packageId : Z) :
  (forall s s' r,
     selectDeviceTypeByCodeAndName packageId (pdt_code customDevice)
       (pdt_name customDevice) s = (s', r) -> s' = s) ->
  (forall dts s s',
     insertDeviceTypes packageId dts s = (s', Fulfilled tt) ->
     exists row,
       selectDeviceTypeByCodeAndName packageId (pdt_code customDevice)
         (pdt_name customDevice) s' = (s', Fulfilled (Some row))) ->
  (forall s row,
     selectDeviceTypeByCodeAndName packageId (pdt_code customDevice)
       (pdt_name customDevice) s = (s, Fulfilled (Some row)) ->
     CustomDevice.processCustomZclDeviceType customDevice
       selectDeviceTypeByCodeAndName insertDeviceTypes packageId s
       = (s, Fulfilled tt)) /\
  (forall s s1,
     CustomDevice.processCustomZclDeviceType customDevice
       selectDeviceTypeByCodeAndName insertDeviceTypes packageId s
       = (s1, Fulfilled tt) ->
     CustomDevice.processCustomZclDeviceType customDevice
       selectDeviceTypeByCodeAndName insertDeviceTypes packageId s1
       = (s1, Fulfilled tt)).
Proof.
  intros Hreadonly Hfound.
  assert (Hexists : forall s row,
     selectDeviceTypeByCodeAndName packageId (pdt_code customDevice)
       (pdt_name customDevice) s = (s, Fulfilled (Some row)) ->
     CustomDevice.processCustomZclDeviceType customDevice
       selectDeviceTypeByCodeAndName insertDeviceTypes packageId s
       = (s, Fulfilled tt)).
  { intros s row Hsel. unfold CustomDevice.processCustomZclDeviceType, bind.
    by rewrite Hsel. }
  split; [exact Hexists|].
  intros s s1. unfold CustomDevice.processCustomZclDeviceType at 1. unfold bind.
  destruct (selectDeviceTypeByCodeAndName packageId (pdt_code customDevice)
              (pdt_name customDevice) s) as [s' [[row|]|e]] eqn:Hsel; [| |done].
  - pose proof (Hreadonly _ _ _ Hsel) as ->.
    intros [= <-]. by apply (Hexists s row).
  - intros Hins. destruct (Hfound _ _ _ Hins) as [row Hrow].
    by apply (Hexists s1 row).
Qed.

End CustomDeviceFacts.

(** On the one-bit store the first run inserts and the second does not. *)
Lemma processCustomZclDeviceType_inserts_once_witness :
  CustomDevice.processCustomZclDeviceType Collaborators.customDevice
    Collaborators.selectCustom Collaborators.insertCustom 1 false = (true, Fulfilled tt) /\
  CustomDevice.processCustomZclDeviceType Collaborators.customDevice
    Collaborators.selectCustom Collaborators.insertCustom 1 true = (true, Fulfilled tt).
Proof.
  destruct (processCustomZclDeviceType_inserts_once Collaborators.customDevice
              Collaborators.selectCustom Collaborators.insertCustom 1) as [_ Hagain].
  - intros s s' r [= <- _]. reflexivity.
  - intros dts s s' [= <-]. exists tt. reflexivity.
  - split; [reflexivity|]. apply (Hagain false). reflexivity.
Defined.

(** ** Reading the manifest *)

Section CollectFacts.
Variable locateRelativeFilePath : list string -> option string -> option string.
Variable pathJoin : string -> string -> string.
Variable dirname : string -> string.

Local Open Scope list_scope.
Local Open Scope nat_scope.

Lemma located_files (fileLocations xmlFile : list string) :
  forEach xmlFile (pushLocated locateRelativeFilePath fileLocations) []
    = omap (fun x => locateRelativeFilePath fileLocations (Some x)) xmlFile.
Proof.
  rewrite (forEach_collect (fun (_ : nat) x =>
             match locateRelativeFilePath fileLocations (Some x) with
             | Some f => [f]
             | None => []
             end)).
  - rewrite imap_ignoring_index.
    induction xmlFile as [|x l IH]; simpl; [done|].
    destruct (locateRelativeFilePath fileLocations (Some x)); simpl; by rewrite IH.
  - intros acc x i. unfold pushLocated, push.
    destruct (locateRelativeFilePath _ _); [done | by rewrite app_nil_r].
Qed.

(** X12. The XML files a JSON manifest contributes are the files of its
    [xmlFile] list that can be located under the directory of the manifest
    joined with its roots, in manifest order; a file that cannot be located
    is left out without an error. *)
Theorem collectDataFromJsonFile_leaves_out_unlocated_files
    (metadataFile : string) (obj : JsonManifest) :
  let m := collectDataFromJsonFile locateRelativeFilePath pathJoin dirname metadataFile obj in
  let roots := match obj_xmlRoot obj with
               | RootString p => [p]
               | RootArray ps => ps
               end in
  let fileLocations := map (pathJoin (dirname metadataFile)) roots in
  zclFiles m = omap (fun x => locateRelativeFilePath fileLocations (Some x)) (obj_xmlFile obj) /\
  length (zclFiles m) <= length (obj_xmlFile obj) /\
  (forall f, f ∈ zclFiles m <->
     exists x, x ∈ obj_xmlFile obj /\ locateRelativeFilePath fileLocations (Some x) = Some f).
Proof.
  intros m roots fileLocations.
  assert (Heq : zclFiles m
    = omap (fun x => locateRelativeFilePath fileLocations (Some x)) (obj_xmlFile obj)).
  { unfold m, collectDataFromJsonFile, fileLocations, roots. simpl.
    destruct (obj_xmlRoot obj); apply located_files. }
  split; [exact Heq|]. rewrite Heq. split.
  - generalize (obj_xmlFile obj). intros l.
    induction l as [|x l IH]; [done|]. simpl in *.
    destruct (locateRelativeFilePath fileLocations (Some x)); simpl;
      [apply le_n_S | apply le_S]; exact IH.
  - intros f. rewrite list_elem_of_omap. naive_solver.
Qed.

End CollectFacts.

(** ** Options, defaults and the two entry points *)

Section LoaderFacts.
Context {db Parsed : Type} `{B : Backend db Parsed}.

Local Open Scope list_scope.

(** X14. A boolean default is looked up as the option 1 when its value is
    truthy and as the option 0 otherwise, and the row found is recorded as
    the default.  When the category has no such option the chain throws:
    the boolean defaults are rejected, whatever the other entries do. *)
Theorem parseBoolDefaults_needs_an_option_row
    (pkgRef : Z) (optionCategory : string) (v : bool) (s s1 : db)
    (found : option OptionRow) :
  selectSpecificOptionValue pkgRef optionCategory (VNum (if v then 1 else 0)) s
    = (s1, Fulfilled found) ->
  (forall row, found = Some row ->
     parseBoolDefaults pkgRef (Some [(optionCategory, v)]) s
       = insertDefaultOptionValue pkgRef optionCategory (or_id row) s1) /\
  (found = None ->
     exists e, parseBoolDefaults pkgRef (Some [(optionCategory, v)]) s = (s1, Rejected e)) /\
  (found = None -> forall pre post s0,
     s = fst (parseBoolDefaults pkgRef (Some pre) s0) ->
     rejected (snd (parseBoolDefaults pkgRef
                      (Some (pre ++ (optionCategory, v) :: post)) s0))).
Proof.
  intros Hsel. split; [|split].
  - intros row ->. unfold parseBoolDefaults, ignore, bind, ret. simpl.
    rewrite Hsel.
    destruct (insertDefaultOptionValue pkgRef optionCategory (or_id row) s1)
      as [s2 [[]|e]]; done.
  - intros ->. eexists. unfold parseBoolDefaults, ignore, bind, ret, throw. simpl.
    by rewrite Hsel.
  - intros -> pre post s0 Hs. unfold parseBoolDefaults.
    apply ignore_rejected. rewrite map_app. simpl.
    match goal with
    | |- rejected (snd (Async.all (?l1 ++ ?p :: ?l2) s0)) =>
        apply (all_rejected l1 p l2)
    end.
    unfold parseBoolDefaults in Hs. rewrite ignore_state in Hs. rewrite <- Hs.
    unfold bind, throw. by rewrite Hsel.
Qed.

(** X15. [loadSilabsZcl] awaits [dbBeginTransaction] before its [try]: when
    the transaction cannot be begun, the load rejects with that error,
    nothing of the body runs and [dbCommit] is not called. *)
Theorem loadSilabsZcl_stops_when_begin_fails
    (metafile : string) (isJson : bool) (s s0 : db) (e : exn) :
  dbBeginTransaction s = (s0, Rejected e) ->
  loadSilabsZcl metafile isJson s = (s0, Rejected e).
Proof.
  intros Hbegin. unfold loadSilabsZcl, bind. by rewrite Hbegin.
Qed.

(** X16. When the bound validator finds the file invalid,
    [loadIndividualSilabsFile] resolves with
    [{ succeeded: false, err: Error('Validation Failed') }] after the file
    has been read, qualified and parsed: the package of the file is
    recorded, and nothing of its content is processed. *)
Theorem loadIndividualSilabsFile_stops_on_invalid_file
    (filePath : string) (validator : string -> outcome Validation)
    (s s0 s1 s2 : db) (fileContent d : string) (result : Qualified) (parsed : Parsed) :
  readFile filePath s = (s0, Fulfilled fileContent) ->
  qualifyZclFile filePath fileContent (checksum fileContent) s0 = (s1, Fulfilled result) ->
  validator fileContent = Fulfilled (Some false) ->
  q_data result = Some d ->
  parseXml d s1 = (s2, Fulfilled parsed) ->
  loadIndividualSilabsFile filePath (Some validator) s
    = (s2, Fulfilled (LoadFailed "Validation Failed")).
Proof.
  intros Hread Hqual Hval Hdata Hparse.
  unfold loadIndividualSilabsFile, loadIndividualSilabsFileBody, tryCatch, bind,
    lift, ret, throw.
  by rewrite Hread, Hqual, Hval, Hdata, Hparse.
Qed.

(** X17. When [loadIndividualSilabsFile] reports success, the package id it
    reports is the one [qualifyZclFile] resolved with for the content read
    from the file, and the post loading step has run and fulfilled last. *)
Theorem loadIndividualSilabsFile_success_means
    (filePath : string) (boundValidator : option (string -> outcome Validation))
    (s s' : db) (pkgId : Z) :
  loadIndividualSilabsFile filePath boundValidator s = (s', Fulfilled (LoadSucceeded pkgId)) ->
  exists s0 s1 s2 fileContent result,
    readFile filePath s = (s0, Fulfilled fileContent) /\
    qualifyZclFile filePath fileContent (checksum fileContent) s0 = (s1, Fulfilled result) /\
    q_packageId result = pkgId /\
    processZclPostLoading s2 = (s', Fulfilled tt).
Proof.
  unfold loadIndividualSilabsFile, tryCatch, ret.
  destruct (loadIndividualSilabsFileBody filePath boundValidator s)
    as [s3 [r|e]] eqn:Hbody; [|done].
  intros [= -> ->]. revert Hbody.
  unfold loadIndividualSilabsFileBody, bind, ret, throw, lift.
  destruct (readFile filePath s) as [s0 [fileContent|?]] eqn:Hread; [|done].
  destruct (qualifyZclFile filePath fileContent (checksum fileContent) s0)
    as [s1 [result|?]] eqn:Hqual; [|done].
  intros Hrest. exists s0, s1.
  assert (Hpost : exists s2 u, processZclPostLoading s2 = (s', Fulfilled u) /\
                               q_packageId result = pkgId).
  { revert Hrest.
    repeat match goal with
           | |- context [match processZclPostLoading ?st with _ => _ end] =>
               destruct (processZclPostLoading st) as [? [?|?]] eqn:Hpl;
               try discriminate
           | |- context [match ?m ?st with _ => _ end] =>
               destruct (m st) as [? [?|?]]; try discriminate
           | |- context [match ?o with Some _ => _ | None => _ end] =>
               destruct o; try discriminate
           | |- context [match ?o with Fulfilled _ => _ | Rejected _ => _ end] =>
               destruct o; try discriminate
           | |- context [if ?b then _ else _] => destruct b; try discriminate
           end;
      intros [= <- <-]; eauto. }
  destruct Hpost as (s2 & [] & Hpl & Hid).
  by exists s2, fileContent, result.
Qed.

End LoaderFacts.

(** A store that refuses to begin a transaction. *)
Lemma loadSilabsZcl_stops_when_begin_fails_witness :
  loadSilabsZcl (B := Collaborators.refusing) "zcl.json" true MemStore.empty
    = (MemStore.empty, Rejected "SQLITE_BUSY").
Proof.
  exact (loadSilabsZcl_stops_when_begin_fails (B := Collaborators.refusing)
           "zcl.json" true MemStore.empty MemStore.empty "SQLITE_BUSY" eq_refl).
Defined.

(** The sample file with a validator that rejects it: the package row of the
    file is in the store and the load reports the failure. *)
Lemma loadIndividualSilabsFile_stops_on_invalid_file_witness :
  loadIndividualSilabsFile (B := MemStore.backend Examples.world) "general.xml"
    (Some (fun _ => Fulfilled (Some false))) MemStore.empty
  = ({| MemStore.committed := [MemStore.PackageRow 1 "general.xml" 15];
        MemStore.working := None |},
     Fulfilled (LoadFailed "Validation Failed")).
Proof.
  exact (loadIndividualSilabsFile_stops_on_invalid_file
           (B := MemStore.backend Examples.world) "general.xml"
           (fun _ => Fulfilled (Some false)) MemStore.empty MemStore.empty
           _ _ "<configurator/>" "<configurator/>" _ "<configurator/>"
           eq_refl eq_refl eq_refl eq_refl eq_refl).
Defined.

(** The sample file without a validator loads: package 1. *)
Lemma loadIndividualSilabsFile_success_means_witness :
  exists s0 s1 s2 fileContent result,
    readFile (Backend := MemStore.backend Examples.world) "general.xml" MemStore.empty
      = (s0, Fulfilled fileContent) /\
    qualifyZclFile (Backend := MemStore.backend Examples.world)
      "general.xml" fileContent
      (checksum (Backend := MemStore.backend Examples.world) fileContent) s0
      = (s1, Fulfilled result) /\
    q_packageId result = 1 /\
    processZclPostLoading (Backend := MemStore.backend Examples.world) s2
      = ({| MemStore.committed := [MemStore.PackageRow 1 "general.xml" 15;
                                   MemStore.FileRow 1 "general.xml"];
            MemStore.working := None |}, Fulfilled tt).
Proof.
  exact (loadIndividualSilabsFile_success_means (B := MemStore.backend Examples.world)
           "general.xml" None MemStore.empty _ 1 eq_refl).
Defined.

(** In the sample store the category commandDiscovery has the options 1 and
    0; the category unknown has none. *)
Lemma parseBoolDefaults_needs_an_option_row_witness :
  parseBoolDefaults (B := MemStore.backend Examples.world) 1
    (Some [("commandDiscovery", true)]) Examples.storeWithOptions
  = insertDefaultOptionValue (Backend := MemStore.backend Examples.world)
      1 "commandDiscovery" 5 Examples.storeWithOptions /\
  exists e,
    parseBoolDefaults (B := MemStore.backend Examples.world) 1
      (Some [("unknown", true)]) Examples.storeWithOptions
    = (Examples.storeWithOptions, Rejected e).
Proof.
  split.
  - destruct (parseBoolDefaults_needs_an_option_row (B := MemStore.backend Examples.world)
                1 "commandDiscovery" true Examples.storeWithOptions
                Examples.storeWithOptions _ eq_refl) as (Hrow & _ & _).
    exact (Hrow _ eq_refl).
  - destruct (parseBoolDefaults_needs_an_option_row (B := MemStore.backend Examples.world)
                1 "unknown" true Examples.storeWithOptions
                Examples.storeWithOptions None eq_refl) as (_ & Hnone & _).
    exact (Hnone eq_refl).
Defined.

(** ** More on the order of insertions *)

Section MorePhaseOrder.
Import Phases PhaseFacts.

Local Open Scope list_scope.
Local Open Scope nat_scope.

Variable zclFiles : list File.

Lemma inv_step c st : Inv zclFiles st -> Inv zclFiles (step c st).
Proof.
  intros HI. destruct c.
  - by apply inv_dispatch.
  - by apply inv_complete.
  - by apply inv_join.
Qed.

Lemma file_content st g fs :
  Inv zclFiles st -> files st !! g = Some fs -> zclFiles !! g = Some (content fs).
Proof.
  intros HI Hg. rewrite <- (inv_content _ _ HI).
  change (map content ?x) with (content <$> x).
  by rewrite list_lookup_fmap, Hg.
Qed.

Lemma startedAtOnce_allowed c j : j ∈ startedAtOnce c -> j ∈ allowed c.
Proof.
  intros H. unfold allowed, calledFor. rewrite !elem_of_app. by left; left.
Qed.

Lemma insertDomains_not_at_once c : insertDomains ∉ startedAtOnce c.
Proof.
  unfold startedAtOnce. rewrite !elem_of_app, !elem_of_tag.
  intros H. decompose [or and] H; discriminate.
Qed.

Lemma insertSpecs_allowed c : insertSpecs ∈ allowed c -> insertDomains ∈ allowed c.
Proof.
  unfold allowed, calledFor, startedAtOnce.
  rewrite !elem_of_app, !elem_of_tag. intros H.
  assert (Hd : domain c = true).
  { decompose [or and] H; try discriminate; try done.
    match goal with Hs : _ ∈ concat _ |- _ => apply startedBy_phase in Hs; discriminate end. }
  left. right. by split.
Qed.

Lemma laterOf_started fs ls j :
  laterOf fs = Some ls -> j ∈ concat (map startedBy ls) ->
  exists c, content fs = ParsedFile (Some c) /\ j ∈ allowed c.
Proof.
  unfold laterOf. destruct (content fs) as [| |[c|]]; intros [= <-] Hj;
    try (by apply elem_of_nil in Hj).
  exists c. split; [done|]. unfold allowed. apply elem_of_app. by right.
Qed.

Lemma dispatch_pending f fs j :
  j ∈ pending (fst (processParsedZclData f fs)) ->
  exists c, content fs = ParsedFile (Some c) /\ j ∈ startedAtOnce c.
Proof.
  unfold processParsedZclData. destruct (content fs) as [| |[c|]]; simpl;
    try (by intros ?%elem_of_nil).
  intros H. by exists c.
Qed.

Lemma callLater_events l k g j :
  Begin g j ∈ snd (callLater k l) ->
  k <= g /\
  exists fs ls, l !! (g - k) = Some fs /\ laterOf fs = Some ls /\
    j ∈ concat (map startedBy ls) /\
    forall k', k' <= g - k -> exists fs', l !! k' = Some fs' /\ laterOf fs' <> None.
Proof.
  revert k. induction l as [|fs l IH]; intros k; simpl.
  - by intros ?%elem_of_nil.
  - destruct (laterOf fs) as [ls|] eqn:Hls; [|by intros ?%elem_of_nil].
    specialize (IH (S k)). destruct (callLater (S k) l) as [rest evs]. simpl in *.
    intros [Hin|Hin]%elem_of_app.
    + destruct (IH Hin) as (Hle & fs0 & ls0 & Hl & Hl0 & Hj & Hall).
      split; [lia|]. exists fs0, ls0.
      replace (g - k) with (S (g - S k)) by lia. split; [done|].
      split; [done|]. split; [done|].
      intros [|k'] Hk'; simpl.
      * exists fs. split; [done|congruence].
      * apply Hall. lia.
    + apply elem_of_begins in Hin as (j' & [= -> ->] & Hj).
      split; [lia|]. exists fs, ls. replace (k - k) with 0 by lia.
      split; [done|]. split; [done|]. split; [done|].
      intros k' Hk'. replace k' with 0 by lia. exists fs. split; [done|congruence].
Qed.

Lemma callLater_pending l k g fs' :
  fst (callLater k l) !! g = Some fs' ->
  exists fs, l !! g = Some fs /\ content fs' = content fs /\
    dispatched fs' = dispatched fs /\ failed fs' = failed fs /\
    forall j, j ∈ pending fs' ->
      j ∈ pending fs \/ exists ls, laterOf fs = Some ls /\ j ∈ concat (map startedBy ls).
Proof.
  revert k g. induction l as [|fs l IH]; intros k g; simpl; [done|].
  destruct (laterOf fs) as [ls|] eqn:Hls.
  - specialize (IH (S k)). destruct (callLater (S k) l) as [rest evs]. simpl in *.
    destruct g as [|g]; simpl.
    + intros [= <-]. exists fs. simpl. split_and!; try done.
      intros j [Hin|Hin]%elem_of_app; [by left|]. right. by exists ls.
    + apply IH.
  - simpl. intros Hg. exists fs'. split_and!; try done. by left.
Qed.

Lemma inv2_init : Inv2 zclFiles (parseZclFiles zclFiles).
Proof.
  split; simpl.
  - by intros g j ?%elem_of_nil.
  - intros g fs j Hg.
    change (map ?f zclFiles) with (f <$> zclFiles) in Hg.
    rewrite list_lookup_fmap in Hg.
    destruct (zclFiles !! g); simpl in Hg; [|done]. injection Hg as <-. simpl.
    by intros ?%elem_of_nil.
  - intros later g earlier H. by destruct later.
  - by intros g j _ ?%elem_of_nil.
  - by intros g j ?%elem_of_nil.
Qed.

Lemma inv2_dispatch st f :
  Inv zclFiles st -> Inv2 zclFiles st -> Inv2 zclFiles (step (Dispatch f) st).
Proof.
  intros HI HJ. simpl.
  destruct (files st !! f) as [fs|] eqn:Hf; [|done].
  destruct (dispatched fs) eqn:Hd; [done|].
  pose proof (processParsedZclData_spec f fs) as Hspec.
  pose proof (dispatch_pending f fs) as Hpend.
  destruct (processParsedZclData f fs) as [fs' evs]. simpl in Hpend.
  destruct Hspec as (Hc & Hd' & Hfail & Hevs & Hph & Hstarted).
  destruct (inv_idle _ _ HI f fs Hf Hd) as [Hpend0 Hfail0].
  split; simpl.
  - intros g j [Hin|Hin]%elem_of_app; [|by apply (inv_tagged _ _ HJ)].
    apply Hevs in Hin as (j' & [= -> ->] & Hin).
    destruct (Hpend _ Hin) as (c & Hcc & Hjc). exists c.
    split; [|by apply startedAtOnce_allowed].
    rewrite (file_content st f fs HI Hf). by rewrite Hcc.
  - intros g fs0 j Hg Hj.
    apply lookup_insert_cases in Hg as [[-> ->]|[Hne Hg]];
      [|by apply (inv_pending_tagged _ _ HJ g fs0)].
    destruct (Hpend _ Hj) as (c & Hcc & Hjc). exists c.
    split; [congruence | by apply startedAtOnce_allowed].
  - intros later g earlier Heq.
    apply split_events in Heq as [(l2 & -> & Heq)|(n2 & Heq & ->)].
    + by apply (inv_specs_first _ _ HJ l2 g).
    + exfalso. assert (Hin : Begin g insertDomains ∈ evs).
      { rewrite Heq. apply elem_of_app. right. apply list_elem_of_here. }
      apply Hevs in Hin as (j' & [= -> <-] & Hin).
      destruct (Hpend _ Hin) as (c & _ & Hjc).
      by apply insertDomains_not_at_once in Hjc.
  - intros g j Hph' [Hin|Hin]%elem_of_app.
    { by apply Hevs in Hin as (j' & ? & _). }
    destruct (inv_failure _ _ HJ g j Hph' Hin) as (Hj & fs0 & Hg & Hfailed).
    split; [done|]. destruct (decide (g = f)) as [->|Hne].
    + congruence.
    + exists fs0. by rewrite list_lookup_insert_ne.
  - intros g j [Hin|Hin]%elem_of_app Hph'; [|by apply (inv_readable _ _ HJ g j)].
    apply Hevs in Hin as (j' & [= -> ->] & Hin). by apply Hph in Hin.
Qed.

Lemma inv2_complete st f i ok :
  Inv zclFiles st -> Inv2 zclFiles st -> Inv2 zclFiles (step (Complete f i ok) st).
Proof.
  intros HI HJ. simpl.
  destruct (files st !! f) as [fs|] eqn:Hf; [|done].
  case_decide as Hi; [|done]. simpl.
  set (next := match i with
               | insertSpecs => if ok then [insertDomains] else []
               | _ => []
               end).
  assert (Hflt : f < length (files st)) by (by eapply lookup_lt_Some).
  assert (Hnext : forall j, j ∈ next -> j = insertDomains /\ i = insertSpecs /\ ok = true).
  { intros j. unfold next. destruct i, ok; try (by intros ?%elem_of_nil).
    by intros ->%list_elem_of_singleton. }
  assert (Hnew : forall e, e ∈ begins f next ++ [Finish f i ok] ->
            e = Finish f i ok \/
            (e = Begin f insertDomains /\ i = insertSpecs /\ ok = true)).
  { intros e [Hin|Hin]%elem_of_app.
    - apply elem_of_begins in Hin as (j & -> & Hin).
      destruct (Hnext j Hin) as (-> & -> & ->). by right.
    - apply list_elem_of_singleton in Hin. by left. }
  assert (Hdom : i = insertSpecs ->
            exists c, content fs = ParsedFile (Some c) /\ insertDomains ∈ allowed c).
  { intros ->. destruct (inv_pending_tagged _ _ HJ f fs _ Hf Hi) as (c & Hc & Ha).
    exists c. split; [done | by apply insertSpecs_allowed]. }
  split; simpl.
  - intros g j [Hin|Hin]%elem_of_app; [|by apply (inv_tagged _ _ HJ)].
    destruct (Hnew _ Hin) as [?|([= -> ->] & Hi' & _)]; [done|].
    destruct (Hdom Hi') as (c & Hc & Ha). exists c. split; [|done].
    rewrite (file_content st f fs HI Hf). by rewrite Hc.
  - intros g fs0 j Hg Hj.
    apply lookup_insert_cases in Hg as [[-> ->]|[Hne Hg]];
      [|by apply (inv_pending_tagged _ _ HJ g fs0)].
    simpl in *. apply elem_of_app in Hj as [Hj|Hj].
    + apply elem_of_without in Hj as [Hj _].
      by apply (inv_pending_tagged _ _ HJ f fs).
    + destruct (Hnext j Hj) as (-> & Hi' & _). by apply Hdom.
  - intros later g earlier Heq.
    apply split_events in Heq as [(l2 & -> & Heq)|(n2 & Heq & ->)].
    + by apply (inv_specs_first _ _ HJ l2 g).
    + assert (Hin : Begin g insertDomains ∈ begins f next ++ [Finish f i ok]).
      { rewrite Heq. apply elem_of_app. right. apply list_elem_of_here. }
      destruct (Hnew _ Hin) as [?|([= ->] & -> & ->)]; [done|].
      simpl in Heq. destruct later as [|b later]; simpl in Heq.
      * injection Heq as <-. apply list_elem_of_here.
      * injection Heq as _ Heq. destruct later; [done|]. by destruct later.
  - intros g j Hph [Hin|Hin]%elem_of_app.
    + destruct (Hnew _ Hin) as [[= -> -> <-]|[? _]]; [|done].
      assert (Hj : joined st = false).
      { destruct (joined st) eqn:Hj; [|done].
        destruct (inv_after _ _ HI Hj f fs Hf) as [_ Hall]. by apply Hall in Hi. }
      split; [done|]. eexists. split; [by apply list_lookup_insert_eq|].
      simpl. apply orb_true_r.
    + destruct (inv_failure _ _ HJ g j Hph Hin) as (Hj & fs0 & Hg & Hfailed).
      split; [done|]. destruct (decide (g = f)) as [->|Hne].
      * rewrite Hf in Hg. injection Hg as <-.
        eexists. split; [by apply list_lookup_insert_eq|]. simpl. by rewrite Hfailed.
      * exists fs0. by rewrite list_lookup_insert_ne.
  - intros g j [Hin|Hin]%elem_of_app Hph; [|by apply (inv_readable _ _ HJ g j)].
    destruct (Hnew _ Hin) as [?|([= -> ->] & _)]; done.
Qed.

Lemma inv2_join st :
  Inv zclFiles st -> Inv2 zclFiles st -> Inv2 zclFiles (step Join st).
Proof.
  intros HI HJ. simpl.
  destruct (joined st) eqn:Hj; [done|].
  destruct (forallb fulfilled (files st)) eqn:Hall; [|done].
  assert (Hful : forall g fs, files st !! g = Some fs ->
            dispatched fs = true /\ failed fs = false /\ pending fs = []).
  { intros g fs Hg. apply fulfilled_true.
    rewrite forallb_forall in Hall. apply Hall, list_elem_of_In.
    by apply list_elem_of_lookup_2 in Hg. }
  pose proof (callLater_spec (files st) 0) as Hspec.
  pose proof (fun g j => callLater_events (files st) 0 g j) as Hevents.
  pose proof (fun g fs' => callLater_pending (files st) 0 g fs') as Hpending.
  destruct (callLater 0 (files st)) as [fss evs]. simpl in Hevents, Hpending.
  destruct Hspec as (_ & _ & He).
  split; simpl.
  - intros g j [Hin|Hin]%elem_of_app; [|by apply (inv_tagged _ _ HJ)].
    destruct (Hevents g j Hin) as (_ & fs & ls & Hg & Hls & Hjs & _).
    replace (g - 0) with g in Hg by lia.
    destruct (laterOf_started fs ls j Hls Hjs) as (c & Hc & Ha).
    exists c. split; [|done]. rewrite (file_content st g fs HI Hg). by rewrite Hc.
  - intros g fs' j Hg Hjp.
    destruct (Hpending g fs' Hg) as (fs & Hg0 & Hc & _ & _ & Hp).
    destruct (Hp j Hjp) as [Hold|(ls & Hls & Hjs)].
    + destruct (inv_pending_tagged _ _ HJ g fs j Hg0 Hold) as (c & Hcc & Ha).
      exists c. split; [congruence|done].
    + destruct (laterOf_started fs ls j Hls Hjs) as (c & Hcc & Ha).
      exists c. split; [congruence|done].
  - intros later g earlier Heq.
    apply split_events in Heq as [(l2 & -> & Heq)|(n2 & Heq & ->)].
    + by apply (inv_specs_first _ _ HJ l2 g).
    + exfalso. destruct (He (Begin g insertDomains)) as (f' & i' & [= <- <-] & Hph).
      * rewrite Heq. apply elem_of_app. right. apply list_elem_of_here.
      * discriminate Hph.
  - intros g j Hph [Hin|Hin]%elem_of_app.
    { by destruct (He _ Hin) as (f' & i' & ? & _). }
    destruct (inv_failure _ _ HJ g j Hph Hin) as (_ & fs0 & Hg & Hfailed).
    destruct (Hful g fs0 Hg) as (_ & ? & _). congruence.
  - intros g j [Hin|Hin]%elem_of_app Hph.
    + destruct (Hevents g j Hin) as (_ & _ & _ & _ & _ & _ & Hbefore).
      intros k Hk Hbad. destruct (Hbefore k) as (fs' & Hk' & Hlater); [lia|].
      rewrite (file_content st k fs' HI Hk') in Hbad. injection Hbad as Hbad.
      unfold laterOf in Hlater. by rewrite Hbad in Hlater.
    + exfalso. by apply (inv_before _ _ HI Hj g j).
Qed.

Lemma invs_run sched st :
  Inv zclFiles st -> Inv2 zclFiles st ->
  Inv zclFiles (run sched st) /\ Inv2 zclFiles (run sched st).
Proof.
  revert st. induction sched as [|c sched IH]; intros st HI HJ; [done|].
  simpl. apply IH; [by apply inv_step|]. destruct c.
  - by apply inv2_dispatch.
  - by apply inv2_complete.
  - by apply inv2_join.
Qed.

Lemma trace_split st pre e post :
  trace st = pre ++ e :: post -> events st = rev post ++ e :: rev pre.
Proof.
  unfold trace. intros H. rewrite <- (rev_involutive (events st)), H, rev_app_distr.
  simpl. by rewrite <- app_assoc.
Qed.

Lemma elem_of_trace st e : e ∈ trace st <-> e ∈ events st.
Proof. unfold trace. by rewrite !list_elem_of_In, <- in_rev. Qed.

(** X18. The domains of a file are inserted only after the specs of the
    same file have been inserted with success: in every run, wherever
    [insertDomains] begins for a file, [insertSpecs] of that file has
    finished before. *)
Theorem insertDomains_begins_after_insertSpecs (sched : list Choice) :
  forall pre g post,
    trace (run sched (parseZclFiles zclFiles)) = pre ++ Begin g insertDomains :: post ->
    Finish g insertSpecs true ∈ pre.
Proof.
  intros pre g post Htr.
  destruct (invs_run sched _ (inv_init zclFiles) inv2_init) as [_ HJ].
  apply trace_split in Htr.
  rewrite list_elem_of_In, (in_rev pre), <- list_elem_of_In.
  by apply (inv_specs_first _ _ HJ (rev post) g).
Qed.

(** X19. When an insertion of phase 1 or 2 fails in a run, no insertion of
    phase 3 begins in that run: the cluster extensions and the global
    attribute defaults of all files are left out. *)
Theorem failed_insertion_leaves_phase3_out (sched : list Choice) :
  forall g j, phase j <> 3 ->
    Finish g j false ∈ trace (run sched (parseZclFiles zclFiles)) ->
    forall f i, Begin f i ∈ trace (run sched (parseZclFiles zclFiles)) -> phase i <> 3.
Proof.
  intros g j Hph Hfail f i Hin.
  destruct (invs_run sched _ (inv_init zclFiles) inv2_init) as [HI HJ].
  apply elem_of_trace in Hfail, Hin.
  destruct (inv_failure _ _ HJ g j Hph Hfail) as [Hj _].
  by apply (inv_before _ _ HI Hj f).
Qed.

(** X20. The later functions are called file by file until the first file
    that was given up: no insertion of phase 3 ever begins for a file that
    comes at or after an unreadable file of the list. *)
Theorem unreadable_file_cuts_phase3 (sched : list Choice) :
  forall k g j, zclFiles !! k = Some Unreadable -> k <= g ->
    Begin g j ∈ trace (run sched (parseZclFiles zclFiles)) -> phase j <> 3.
Proof.
  intros k g j Hk Hle Hin Hph.
  destruct (invs_run sched _ (inv_init zclFiles) inv2_init) as [_ HJ].
  apply elem_of_trace in Hin.
  by apply (inv_readable _ _ HJ g j Hin Hph k).
Qed.

(** X21. An insertion begins for a file only if the file was parsed and its
    tags lead to it: clusters only with a [cluster] tag, specs and domains
    only with a [domain] tag, global attribute defaults only with a
    [cluster] tag and some cluster that carries global attributes, cluster
    extensions only with a [clusterExtension] tag. *)
Theorem insertions_follow_the_tags (sched : list Choice) :
  forall g j, Begin g j ∈ trace (run sched (parseZclFiles zclFiles)) ->
    exists c, zclFiles !! g = Some (ParsedFile (Some c)) /\
      match j with
      | insertAtomics => atomic c = true
      | insertBitmaps => bitmap c = true
      | insertClusters => cluster c = true
      | insertSpecs | insertDomains => domain c = true
      | insertEnums => enum c = true
      | insertStructs => struct c = true
      | insertDeviceTypes => deviceType c = true
      | insertGlobals => global c = true
      | insertGlobalAttributeDefault => cluster c = true /\ someGlobalAttribute c = true
      | insertClusterExtensions => clusterExtension c = true
      end.
Proof.
  intros g j Hin.
  destruct (invs_run sched _ (inv_init zclFiles) inv2_init) as [_ HJ].
  apply elem_of_trace in Hin.
  destruct (inv_tagged _ _ HJ g j Hin) as (c & Hc & Ha).
  exists c. split; [done|]. revert Ha.
  unfold allowed, calledFor, startedAtOnce, promisesStep3.
  rewrite !elem_of_app, !elem_of_tag.
  destruct (cluster c), (someGlobalAttribute c), (clusterExtension c); simpl;
    rewrite ?elem_of_cons, ?elem_of_nil;
    intros H; decompose [or and] H; subst; try discriminate; try done.
Qed.

Lemma NoDup_begins f l : NoDup l -> NoDup (begins f l).
Proof.
  intros H. unfold begins. rewrite <- Permutation_rev.
  change (map (Begin f) l) with (Begin f <$> l).
  apply NoDup_fmap_2; [|done]. by intros x y [= ->].
Qed.

Lemma NoDup_tag b i : NoDup (tag b i).
Proof. destruct b; simpl; [apply NoDup_singleton | apply NoDup_nil_2]. Qed.

Lemma NoDup_startedAtOnce c : NoDup (startedAtOnce c).
Proof.
  unfold startedAtOnce. rewrite !NoDup_app.
  split_and!; try apply NoDup_tag;
    intros x [_ ->]%elem_of_tag; rewrite ?elem_of_app, ?elem_of_tag;
    intros H; decompose [or and] H; discriminate.
Qed.

Lemma NoDup_later fs ls :
  laterOf fs = Some ls -> NoDup (concat (map startedBy ls)).
Proof.
  unfold laterOf, promisesStep3.
  destruct (content fs) as [| |[c|]]; intros [= <-]; try apply NoDup_nil_2.
  destruct (cluster c), (someGlobalAttribute c), (clusterExtension c); simpl;
    repeat (apply NoDup_cons_2 || apply NoDup_nil_2);
    rewrite ?elem_of_cons, ?elem_of_nil; intros H; decompose [or] H;
      first [discriminate | done].
Qed.

Lemma callLater_begun l k g fs' j :
  fst (callLater k l) !! g = Some fs' -> j ∈ pending fs' ->
  (exists fs, l !! g = Some fs /\ j ∈ pending fs) \/
  Begin (k + g) j ∈ snd (callLater k l).
Proof.
  revert k g. induction l as [|fs l IH]; intros k g; simpl; [done|].
  destruct (laterOf fs) as [ls|] eqn:Hls.
  - specialize (IH (S k)). destruct (callLater (S k) l) as [rest evs]. simpl in *.
    destruct g as [|g]; simpl.
    + intros [= <-]. simpl. intros [Hin|Hin]%elem_of_app.
      * left. by exists fs.
      * right. apply elem_of_app. right. apply elem_of_begins.
        exists j. split; [|done]. f_equal. lia.
    + intros Hg Hj. destruct (IH g Hg Hj) as [?|Hin]; [by left|].
      right. apply elem_of_app. left. by replace (k + S g) with (S k + g) by lia.
  - simpl. intros Hg Hj. left. by exists fs'.
Qed.

Lemma callLater_nodup l k : NoDup (snd (callLater k l)).
Proof.
  revert k. induction l as [|fs l IH]; intros k; simpl; [apply NoDup_nil_2|].
  destruct (laterOf fs) as [ls|] eqn:Hls; [|apply NoDup_nil_2].
  pose proof (IH (S k)) as Hnd.
  pose proof (callLater_spec l (S k)) as Hspec.
  pose proof (fun g j => callLater_events l (S k) g j) as Hev.
  destruct (callLater (S k) l) as [rest evs]. simpl in *.
  destruct Hspec as (_ & _ & He).
  apply NoDup_app. split; [done|]. split.
  - intros e Hin Hin'. destruct (He e Hin) as (g & j & -> & _).
    apply Hev in Hin as [Hle _].
    apply elem_of_begins in Hin' as (j' & [= -> _] & _). lia.
  - apply NoDup_begins. by eapply NoDup_later.
Qed.

Lemma domains_after_specs st g :
  Inv2 zclFiles st -> Begin g insertDomains ∈ events st ->
  Finish g insertSpecs true ∈ events st.
Proof.
  intros HJ Hin. apply list_elem_of_split in Hin as (later & earlier & Heq).
  rewrite Heq. apply elem_of_app. right. apply list_elem_of_further.
  by apply (inv_specs_first _ _ HJ later g earlier).
Qed.

Lemma inv3_init : Inv3 (parseZclFiles zclFiles).
Proof.
  split; simpl.
  - apply NoDup_nil_2.
  - by intros g fs _ _ e ?%elem_of_nil.
  - intros g fs j Hg.
    change (map ?f zclFiles) with (f <$> zclFiles) in Hg.
    rewrite list_lookup_fmap in Hg.
    destruct (zclFiles !! g); simpl in Hg; [|done]. injection Hg as <-. simpl.
    by intros ?%elem_of_nil.
  - by intros g j ok ?%elem_of_nil.
  - by intros g fs j ok _ ?%elem_of_nil.
Qed.

Lemma inv3_dispatch st f :
  Inv zclFiles st -> Inv3 st -> Inv3 (step (Dispatch f) st).
Proof.
  intros HI HK. simpl.
  destruct (files st !! f) as [fs|] eqn:Hf; [|done].
  destruct (dispatched fs) eqn:Hd; [done|].
  pose proof (processParsedZclData_spec f fs) as Hspec.
  pose proof (dispatch_pending f fs) as Hpend.
  assert (Hnd : NoDup (snd (processParsedZclData f fs))).
  { unfold processParsedZclData. destruct (content fs) as [| |[c|]]; simpl;
      try apply NoDup_nil_2. apply NoDup_begins, NoDup_startedAtOnce. }
  destruct (processParsedZclData f fs) as [fs' evs]. simpl in Hpend, Hnd.
  destruct Hspec as (Hc & Hd' & Hfail & Hevs & Hph & Hstarted).
  pose proof (inv_quiet _ HK f fs Hf Hd) as Hquiet.
  split; simpl.
  - apply NoDup_app. split; [done|]. split; [|by apply (inv_nodup _ HK)].
    intros e Hin Hin'. apply Hevs in Hin as (j & -> & _).
    by apply (Hquiet _ Hin').
  - intros g fs0 Hg Hd0 e [Hin|Hin]%elem_of_app.
    + apply Hevs in Hin as (j & -> & _). simpl.
      apply lookup_insert_cases in Hg as [[-> ->]|[Hne Hg]]; [congruence|done].
    + apply lookup_insert_cases in Hg as [[-> ->]|[Hne Hg]]; [congruence|].
      by apply (inv_quiet _ HK g fs0).
  - intros g fs0 j Hg Hj. apply elem_of_app.
    apply lookup_insert_cases in Hg as [[-> ->]|[Hne Hg]].
    + left. apply Hevs. by exists j.
    + right. by apply (inv_pending_begun _ HK g fs0).
  - intros g j ok [Hin|Hin]%elem_of_app.
    + by apply Hevs in Hin as (j' & ? & _).
    + apply elem_of_app. right. by apply (inv_begun _ HK g j ok).
  - intros g fs0 j ok Hg [Hin|Hin]%elem_of_app.
    + by apply Hevs in Hin as (j' & ? & _).
    + apply lookup_insert_cases in Hg as [[-> ->]|[Hne Hg]].
      * by destruct (Hquiet _ Hin).
      * by apply (inv_finished _ HK g fs0 j ok).
Qed.

Lemma inv3_complete st f i ok :
  Inv zclFiles st -> Inv2 zclFiles st -> Inv3 st ->
  Inv3 (step (Complete f i ok) st).
Proof.
  intros HI HJ HK. simpl.
  destruct (files st !! f) as [fs|] eqn:Hf; [|done].
  case_decide as Hi; [|done]. simpl.
  set (next := match i with
               | insertSpecs => if ok then [insertDomains] else []
               | _ => []
               end).
  assert (Hnext : forall j, j ∈ next -> j = insertDomains /\ i = insertSpecs /\ ok = true).
  { intros j. unfold next. destruct i, ok; try (by intros ?%elem_of_nil).
    by intros ->%list_elem_of_singleton. }
  assert (Hnew : forall e, e ∈ begins f next ++ [Finish f i ok] ->
            e = Finish f i ok \/
            (e = Begin f insertDomains /\ i = insertSpecs /\ ok = true)).
  { intros e [Hin|Hin]%elem_of_app.
    - apply elem_of_begins in Hin as (j & -> & Hin).
      destruct (Hnext j Hin) as (-> & -> & ->). by right.
    - apply list_elem_of_singleton in Hin. by left. }
  assert (Hdisp : dispatched fs = true).
  { destruct (dispatched fs) eqn:Hd; [done|].
    destruct (inv_idle _ _ HI f fs Hf Hd) as [Hp _]. rewrite Hp in Hi.
    by apply elem_of_nil in Hi. }
  assert (Hfresh : i = insertSpecs -> Begin f insertDomains ∉ events st).
  { intros -> Hin. apply (domains_after_specs st f HJ) in Hin.
    by apply (inv_finished _ HK f fs _ _ Hf Hin). }
  split; simpl.
  - apply NoDup_app. split; [|split; [|by apply (inv_nodup _ HK)]].
    + unfold next. destruct i, ok; simpl;
        repeat (apply NoDup_cons_2 || apply NoDup_nil_2);
        rewrite ?elem_of_cons, ?elem_of_nil; intros H; decompose [or] H;
      first [discriminate | done].
    + intros e Hin Hin'. destruct (Hnew e Hin) as [->|(-> & Hi' & _)].
      * by apply (inv_finished _ HK f fs i ok Hf Hin').
      * by apply Hfresh.
  - intros g fs0 Hg Hd0 e [Hin|Hin]%elem_of_app.
    + apply lookup_insert_cases in Hg as [[-> ->]|[Hne Hg]];
        [simpl in Hd0; congruence|].
      destruct (Hnew e Hin) as [->|(-> & _)]; done.
    + apply lookup_insert_cases in Hg as [[-> ->]|[Hne Hg]];
        [simpl in Hd0; congruence|].
      by apply (inv_quiet _ HK g fs0).
  - intros g fs0 j Hg Hj. apply elem_of_app.
    apply lookup_insert_cases in Hg as [[-> ->]|[Hne Hg]].
    + simpl in Hj. apply elem_of_app in Hj as [Hj|Hj].
      * right. apply elem_of_without in Hj as [Hj _].
        by apply (inv_pending_begun _ HK f fs).
      * left. apply elem_of_app. left. apply elem_of_begins. by exists j.
    + right. by apply (inv_pending_begun _ HK g fs0).
  - intros g j ok' [Hin|Hin]%elem_of_app.
    + destruct (Hnew _ Hin) as [[= -> -> ->]|[? _]]; [|done].
      apply elem_of_app. right. by apply (inv_pending_begun _ HK f fs).
    + apply elem_of_app. right. by apply (inv_begun _ HK g j ok').
  - intros g fs0 j ok' Hg Hin Hj.
    apply lookup_insert_cases in Hg as [[-> ->]|[Hne Hg]].
    + simpl in Hj. apply elem_of_app in Hin as [Hin|Hin].
      * destruct (Hnew _ Hin) as [[= -> ->]|[? _]]; [|done].
        apply elem_of_app in Hj as [Hj|Hj].
        -- by apply elem_of_without in Hj as [_ ?].
        -- destruct (Hnext _ Hj) as (-> & ? & _). done.
      * apply elem_of_app in Hj as [Hj|Hj].
        -- apply elem_of_without in Hj as [Hj _].
           by apply (inv_finished _ HK f fs j ok' Hf Hin).
        -- destruct (Hnext _ Hj) as (-> & Hi' & _).
           apply (inv_begun _ HK) in Hin. by apply Hfresh in Hin.
    + apply elem_of_app in Hin as [Hin|Hin].
      * destruct (Hnew _ Hin) as [[= -> _ _]|[? _]]; done.
      * by apply (inv_finished _ HK g fs0 j ok' Hg Hin).
Qed.

Lemma inv3_join st :
  Inv zclFiles st -> Inv3 st -> Inv3 (step Join st).
Proof.
  intros HI HK. simpl.
  destruct (joined st) eqn:Hj; [done|].
  destruct (forallb fulfilled (files st)) eqn:Hall; [|done].
  assert (Hful : forall g fs, files st !! g = Some fs ->
            dispatched fs = true /\ failed fs = false /\ pending fs = []).
  { intros g fs Hg. apply fulfilled_true.
    rewrite forallb_forall in Hall. apply Hall, list_elem_of_In.
    by apply list_elem_of_lookup_2 in Hg. }
  pose proof (callLater_spec (files st) 0) as Hspec.
  pose proof (callLater_nodup (files st) 0) as Hnd.
  pose proof (fun g fs' => callLater_pending (files st) 0 g fs') as Hpending.
  pose proof (fun g fs' j => callLater_begun (files st) 0 g fs' j) as Hbegun.
  destruct (callLater 0 (files st)) as [fss evs]. simpl in Hnd, Hpending, Hbegun.
  destruct Hspec as (_ & _ & He).
  split; simpl.
  - apply NoDup_app. split; [done|]. split; [|by apply (inv_nodup _ HK)].
    intros e Hin Hin'. destruct (He e Hin) as (g & j & -> & Hph).
    by apply (inv_before _ _ HI Hj g j Hin').
  - intros g fs' Hg Hd. destruct (Hpending g fs' Hg) as (fs & Hg0 & _ & Hd0 & _).
    destruct (Hful g fs Hg0) as (? & _). congruence.
  - intros g fs' j Hg Hjp. apply elem_of_app.
    destruct (Hbegun g fs' j Hg Hjp) as [(fs & Hg0 & Hold)|Hin]; [|by left].
    right. by apply (inv_pending_begun _ HK g fs).
  - intros g j ok [Hin|Hin]%elem_of_app.
    + by destruct (He _ Hin) as (f' & i' & ? & _).
    + apply elem_of_app. right. by apply (inv_begun _ HK g j ok).
  - intros g fs' j ok Hg [Hin|Hin]%elem_of_app Hjp.
    { by destruct (He _ Hin) as (f' & i' & ? & _). }
    destruct (Hpending g fs' Hg) as (fs & Hg0 & _ & _ & _ & Hp).
    destruct (Hp j Hjp) as [Hold|(ls & _ & Hjs)].
    + by apply (inv_finished _ HK g fs j ok Hg0 Hin).
    + apply startedBy_phase in Hjs. apply (inv_begun _ HK) in Hin.
      by apply (inv_before _ _ HI Hj g j Hin).
Qed.

Lemma invs3_run sched st :
  Inv zclFiles st -> Inv2 zclFiles st -> Inv3 st -> Inv3 (run sched st).
Proof.
  revert st. induction sched as [|c sched IH]; intros st HI HJ HK; [done|].
  simpl. apply IH; [by apply inv_step| |].
  - destruct c; [by apply inv2_dispatch | by apply inv2_complete | by apply inv2_join].
  - destruct c; [by apply inv3_dispatch | by apply inv3_complete | by apply inv3_join].
Qed.

(** X22. No insertion is run twice: in every run, the trace holds each
    beginning and each end of an insertion of a file at most once, and
    every insertion that ends had begun. *)
Theorem insertions_run_at_most_once (sched : list Choice) :
  NoDup (trace (run sched (parseZclFiles zclFiles))) /\
  forall g j ok, Finish g j ok ∈ trace (run sched (parseZclFiles zclFiles)) ->
    Begin g j ∈ trace (run sched (parseZclFiles zclFiles)).
Proof.
  pose proof (invs3_run sched _ (inv_init zclFiles) inv2_init inv3_init) as HK.
  split.
  - unfold trace. rewrite <- Permutation_rev. apply (inv_nodup _ HK).
  - intros g j ok. rewrite !elem_of_trace. apply (inv_begun _ HK).
Qed.


Lemma callLater_started l k g j :
  Begin g j ∈ snd (callLater k l) ->
  exists fs', fst (callLater k l) !! (g - k) = Some fs' /\ j ∈ pending fs'.
Proof.
  revert k. induction l as [|fs l IH]; intros k; simpl.
  - by intros ?%elem_of_nil.
  - destruct (laterOf fs) as [ls|] eqn:Hls; [|by intros ?%elem_of_nil].
    pose proof (IH (S k)) as IH'.
    pose proof (callLater_events l (S k) g j) as Hev.
    destruct (callLater (S k) l) as [rest evs]. simpl in *.
    intros [Hin|Hin]%elem_of_app.
    + destruct (Hev Hin) as [Hle _]. destruct (IH' Hin) as (fs' & Hg & Hj).
      exists fs'. replace (g - k) with (S (g - S k)) by lia. by split.
    + apply elem_of_begins in Hin as (j' & [= -> ->] & Hj).
      replace (k - k) with 0 by lia. eexists. split; [done|]. simpl.
      apply elem_of_app. by right.
Qed.

Lemma callLater_keeps l k g fs :
  l !! g = Some fs ->
  exists fs', fst (callLater k l) !! g = Some fs' /\
    forall j, j ∈ pending fs -> j ∈ pending fs'.
Proof.
  revert k g. induction l as [|fs0 l IH]; intros k g; simpl; [done|].
  destruct (laterOf fs0) as [ls|] eqn:Hls.
  - specialize (IH (S k)). destruct (callLater (S k) l) as [rest evs]. simpl in *.
    destruct g as [|g]; simpl.
    + intros [= ->]. eexists. split; [done|]. simpl. intros j Hj.
      apply elem_of_app. by left.
    + apply IH.
  - simpl. intros Hg. by exists fs.
Qed.

Lemma lookup_file st g c :
  Inv zclFiles st -> zclFiles !! g = Some c ->
  exists fs, files st !! g = Some fs /\ content fs = c.
Proof.
  intros HI. rewrite <- (inv_content _ _ HI).
  change (map content ?x) with (content <$> x).
  rewrite list_lookup_fmap. destruct (files st !! g) as [fs|]; [|done].
  simpl. intros [= <-]. by exists fs.
Qed.

Lemma inv4_init : Inv4 (parseZclFiles zclFiles).
Proof.
  split; simpl. by intros g j ?%elem_of_nil.
Qed.

Lemma inv4_dispatch st f :
  Inv zclFiles st -> Inv4 st -> Inv4 (step (Dispatch f) st).
Proof.
  intros HI HL. simpl.
  destruct (files st !! f) as [fs|] eqn:Hf; [|done].
  destruct (dispatched fs) eqn:Hd; [done|].
  pose proof (processParsedZclData_spec f fs) as Hspec.
  destruct (processParsedZclData f fs) as [fs' evs].
  destruct Hspec as (Hc & Hd' & Hfail & Hevs & Hph & Hstarted).
  destruct (inv_idle _ _ HI f fs Hf Hd) as [Hpend0 _].
  assert (Hflt : f < length (files st)) by (by eapply lookup_lt_Some).
  split; simpl.
  - intros g j [Hin|Hin]%elem_of_app.
    + apply Hevs in Hin as (j' & [= -> ->] & Hin).
      exists fs'. split; [by apply list_lookup_insert_eq | by left].
    + destruct (inv_resolved _ HL g j Hin) as (fs0 & Hg & Hcase).
      destruct (decide (g = f)) as [->|Hne].
      * exists fs'. split; [by apply list_lookup_insert_eq|].
        rewrite Hf in Hg. injection Hg as <-.
        destruct Hcase as [Hp|(ok & Hfin)].
        -- rewrite Hpend0 in Hp. by apply elem_of_nil in Hp.
        -- right. exists ok. apply elem_of_app. by right.
      * exists fs0. split; [by rewrite list_lookup_insert_ne|].
        destruct Hcase as [?|(ok & Hfin)]; [by left|].
        right. exists ok. apply elem_of_app. by right.
Qed.

Lemma inv4_complete st f i ok :
  Inv zclFiles st -> Inv4 st -> Inv4 (step (Complete f i ok) st).
Proof.
  intros HI HL. simpl.
  destruct (files st !! f) as [fs|] eqn:Hf; [|done].
  case_decide as Hi; [|done]. simpl.
  set (next := match i with
               | insertSpecs => if ok then [insertDomains] else []
               | _ => []
               end).
  assert (Hflt : f < length (files st)) by (by eapply lookup_lt_Some).
  split; simpl.
  - intros g j [[Hin|Hin]%elem_of_app|Hin]%elem_of_app.
    + apply elem_of_begins in Hin as (j' & [= -> ->] & Hin).
      eexists. split; [by apply list_lookup_insert_eq|]. left. simpl.
      apply elem_of_app. by right.
    + by apply list_elem_of_singleton in Hin.
    + destruct (inv_resolved _ HL g j Hin) as (fs0 & Hg & Hcase).
      destruct (decide (g = f)) as [->|Hne].
      * eexists. split; [by apply list_lookup_insert_eq|]. simpl.
        rewrite Hf in Hg. injection Hg as <-.
        destruct Hcase as [Hp|(ok' & Hfin)].
        -- destruct (decide (j = i)) as [->|Hji].
           ++ right. exists ok. apply elem_of_app. left. apply elem_of_app. right.
              apply list_elem_of_here.
           ++ left. apply elem_of_app. left. by apply elem_of_without.
        -- right. exists ok'. apply elem_of_app. by right.
      * exists fs0. split; [by rewrite list_lookup_insert_ne|].
        destruct Hcase as [?|(ok' & Hfin)]; [by left|].
        right. exists ok'. apply elem_of_app. by right.
Qed.

Lemma inv4_join st :
  Inv zclFiles st -> Inv4 st -> Inv4 (step Join st).
Proof.
  intros HI HL. simpl.
  destruct (joined st) eqn:Hj; [done|].
  destruct (forallb fulfilled (files st)) eqn:Hall; [|done].
  pose proof (fun g j => callLater_started (files st) 0 g j) as Hstarted.
  pose proof (fun g fs => callLater_keeps (files st) 0 g fs) as Hkeeps.
  destruct (callLater 0 (files st)) as [fss evs].
  simpl in Hstarted, Hkeeps.
  split; simpl.
  - intros g j [Hin|Hin]%elem_of_app.
    + destruct (Hstarted g j Hin) as (fs' & Hg & Hjp).
      replace (g - 0) with g in Hg by lia. exists fs'. split; [done | by left].
    + destruct (inv_resolved _ HL g j Hin) as (fs0 & Hg & Hcase).
      destruct (Hkeeps g fs0 Hg) as (fs' & Hg' & Hsub).
      exists fs'. split; [done|].
      destruct Hcase as [?|(ok & Hfin)]; [left; by apply Hsub|].
      right. exists ok. apply elem_of_app. by right.
Qed.

Lemma invs4_run sched st :
  Inv zclFiles st -> Inv4 st -> Inv4 (run sched st).
Proof.
  revert st. induction sched as [|c sched IH]; intros st HI HL; [done|].
  simpl. apply IH; [by apply inv_step|].
  destruct c; [by apply inv4_dispatch | by apply inv4_complete | by apply inv4_join].
Qed.

(** X23. Nothing of phases 1 and 2 is skipped.  Once a run has called the
    later functions, every insertion of phases 1 and 2 that the tags of a
    parsed file call for has ended with success, the domains included. *)
Theorem called_for_insertions_done_at_join (sched : list Choice) :
  let st := run sched (parseZclFiles zclFiles) in
  joined st = true ->
  forall g c, zclFiles !! g = Some (ParsedFile (Some c)) ->
    forall j, j ∈ calledFor c -> Finish g j true ∈ trace st.
Proof.
  intros st Hj g c Hg.
  destruct (invs_run sched _ (inv_init zclFiles) inv2_init) as [HI HJ].
  pose proof (invs4_run sched _ (inv_init zclFiles) inv4_init) as HL.
  fold st in HI, HJ, HL.
  destruct (lookup_file st g _ HI Hg) as (fs & Hfs & Hc).
  destruct (inv_after _ _ HI Hj g fs Hfs) as [Hd Hlate].
  assert (Hgood : forall j, phase j <> 3 -> Begin g j ∈ events st ->
            Finish g j true ∈ events st).
  { intros j Hph Hin.
    destruct (inv_resolved _ HL g j Hin) as (fs0 & Hg0 & [Hp|([|] & Hfin)]).
    - rewrite Hfs in Hg0. injection Hg0 as <-. by apply Hlate in Hp.
    - done.
    - destruct (inv_failure _ _ HJ g j Hph Hfin) as [Hj' _]. congruence. }
  assert (Honce : forall j, j ∈ startedAtOnce c -> Finish g j true ∈ events st).
  { intros j Hin. apply Hgood; [by eapply startedAtOnce_phase|].
    by apply (inv_started _ _ HI g fs c). }
  intros j [Hin|Hin]%elem_of_app; apply elem_of_trace; [by apply Honce|].
  apply elem_of_tag in Hin as [Hdom ->].
  apply Hgood; [discriminate|]. apply (inv_domains _ _ HI), Honce.
  unfold startedAtOnce. rewrite !elem_of_app, !elem_of_tag. tauto.
Qed.

End MorePhaseOrder.

(** The two sample files, everything succeeding: the domains of the first
    file begin after its specs are in. *)
Lemma insertDomains_begins_after_insertSpecs_witness :
  let sched := [Phases.Dispatch 1; Phases.Dispatch 0;
                Phases.Complete 1 Phases.insertClusters true;
                Phases.Complete 0 Phases.insertSpecs true;
                Phases.Join;
                Phases.Complete 0 Phases.insertDomains true;
                Phases.Join] in
  Phases.Finish 0 Phases.insertSpecs true
    ∈ [Phases.Begin 1 Phases.insertClusters; Phases.Begin 0 Phases.insertSpecs;
       Phases.Finish 1 Phases.insertClusters true;
       Phases.Finish 0 Phases.insertSpecs true].
Proof.
  intros sched.
  apply (insertDomains_begins_after_insertSpecs
           [Examples.domainsXml; Examples.clustersXml] sched _ 0
           [Phases.Finish 0 Phases.insertDomains true;
            Phases.Begin 1 Phases.insertGlobalAttributeDefault;
            Phases.Begin 1 Phases.insertClusterExtensions]).
  reflexivity.
Defined.

(** The same two files when the clusters of the second fail to insert. *)
Lemma failed_insertion_leaves_phase3_out_witness :
  let sched := [Phases.Dispatch 1; Phases.Dispatch 0;
                Phases.Complete 1 Phases.insertClusters false;
                Phases.Complete 0 Phases.insertSpecs true;
                Phases.Join;
                Phases.Complete 0 Phases.insertDomains true;
                Phases.Join] in
  let tr := Phases.trace (Phases.run sched
              (Phases.parseZclFiles [Examples.domainsXml; Examples.clustersXml])) in
  tr = [Phases.Begin 1 Phases.insertClusters; Phases.Begin 0 Phases.insertSpecs;
        Phases.Finish 1 Phases.insertClusters false;
        Phases.Finish 0 Phases.insertSpecs true;
        Phases.Begin 0 Phases.insertDomains;
        Phases.Finish 0 Phases.insertDomains true] /\
  Phases.phase Phases.insertDomains <> 3%nat.
Proof.
  intros sched tr. split; [reflexivity|].
  refine (failed_insertion_leaves_phase3_out
            [Examples.domainsXml; Examples.clustersXml] sched
            1%nat Phases.insertClusters _ _ 0%nat Phases.insertDomains _);
    [discriminate| |].
  - apply list_elem_of_In. vm_compute. tauto.
  - apply list_elem_of_In. vm_compute. tauto.
Defined.

(** An unreadable file before the clusters: the clusters are inserted, the
    later functions of their file are never called. *)
Lemma unreadable_file_cuts_phase3_witness :
  let sched := [Phases.Dispatch 0; Phases.Dispatch 1;
                Phases.Complete 1 Phases.insertClusters true;
                Phases.Join] in
  let tr := Phases.trace (Phases.run sched
              (Phases.parseZclFiles [Phases.Unreadable; Examples.clustersXml])) in
  tr = [Phases.Begin 1 Phases.insertClusters;
        Phases.Finish 1 Phases.insertClusters true] /\
  Phases.phase Phases.insertClusters <> 3%nat.
Proof.
  intros sched tr. split; [reflexivity|].
  apply (unreadable_file_cuts_phase3
           [Phases.Unreadable; Examples.clustersXml] sched 0%nat 1%nat);
    [reflexivity | lia |].
  apply list_elem_of_In. vm_compute. tauto.
Defined.

(** The global attribute defaults of the sample cluster file. *)
Lemma insertions_follow_the_tags_witness :
  let sched := [Phases.Dispatch 1; Phases.Dispatch 0;
                Phases.Complete 1 Phases.insertClusters true;
                Phases.Complete 0 Phases.insertSpecs true;
                Phases.Join;
                Phases.Complete 0 Phases.insertDomains true;
                Phases.Join] in
  exists c,
    [Examples.domainsXml; Examples.clustersXml] !! 1%nat
      = Some (Phases.ParsedFile (Some c)) /\
    Phases.cluster c = true /\ Phases.someGlobalAttribute c = true.
Proof.
  intros sched.
  apply (insertions_follow_the_tags
           [Examples.domainsXml; Examples.clustersXml] sched
           1%nat Phases.insertGlobalAttributeDefault).
  apply list_elem_of_In. vm_compute. tauto.
Defined.

(** The two sample files at the moment the later functions are called. *)
Lemma called_for_insertions_done_at_join_witness :
  let sched := [Phases.Dispatch 1; Phases.Dispatch 0;
                Phases.Complete 1 Phases.insertClusters true;
                Phases.Complete 0 Phases.insertSpecs true;
                Phases.Complete 0 Phases.insertDomains true;
                Phases.Join] in
  let st := Phases.run sched
              (Phases.parseZclFiles [Examples.domainsXml; Examples.clustersXml]) in
  Phases.joined st = true /\
  Phases.Finish 1 Phases.insertClusters true ∈ Phases.trace st /\
  Phases.Finish 0 Phases.insertDomains true ∈ Phases.trace st.
Proof.
  intros sched st. split; [reflexivity|]. split.
  - apply (called_for_insertions_done_at_join
             [Examples.domainsXml; Examples.clustersXml] sched eq_refl 1%nat _ eq_refl).
    apply list_elem_of_In. vm_compute. tauto.
  - apply (called_for_insertions_done_at_join
             [Examples.domainsXml; Examples.clustersXml] sched eq_refl 0%nat _ eq_refl).
    apply list_elem_of_In. vm_compute. tauto.
Defined.
